(** * Song matching engine: canonical text, candidate extraction,
      similarity scoring, index construction and cross matching.

    A shallow embedding of [finddiffentsing.py].  Python strings are lists of
    Unicode code points; dictionaries are association lists in insertion
    order (the order in which Python iterates them); the scores are binary64
    floating-point numbers, as computed by the interpreter. *)

From Stdlib Require Import String Ascii List NArith ZArith Bool Arith Lia.
From Stdlib Require Import Sorting.Permutation.
From Stdlib Require Import Floats Numbers.Cyclic.Int63.Uint63.
Import ListNotations.

(** ** Python strings *)

Definition codepoint := N.
Definition pystr := list codepoint.

(** An ASCII literal as a Python string. *)
Definition str (s : string) : pystr := map N_of_ascii (list_ascii_of_string s).

Definition pystr_eqb (a b : pystr) : bool :=
  if list_eq_dec N.eq_dec a b then true else false.

(** Truth value of a string: [if text] holds when the string is not empty. *)
Definition truthy (s : pystr) : bool :=
  match s with [] => false | _ :: _ => true end.

(** Is [p] a prefix of [s] ([str.startswith])? *)
Fixpoint startswith (p s : pystr) : bool :=
  match p, s with
  | [], _ => true
  | x :: p', y :: s' => N.eqb x y && startswith p' s'
  | _ :: _, [] => false
  end.

Definition endswith (p s : pystr) : bool := startswith (rev p) (rev s).

(** [sep in s] for a non-empty separator, and [s.split(sep, 1)]: the text
    before and after the first occurrence. *)
Fixpoint split_first (sep s : pystr) : option (pystr * pystr) :=
  if startswith sep s then Some ([], skipn (length sep) s)
  else match s with
       | [] => None
       | c :: s' =>
           match split_first sep s' with
           | Some (l, r) => Some (c :: l, r)
           | None => None
           end
       end.

(** ** The Unicode character database

    [str.lower], [\w] and [\s] are Unicode aware: their tables belong to the
    interpreter, not to the program, and are a parameter of the model. *)

Record UnicodeData := {
  py_lower : pystr -> pystr;        (* str.lower() *)
  py_isalnum : codepoint -> bool;   (* alphanumeric: \w without the underscore *)
  py_isspace : codepoint -> bool    (* whitespace: \s and str.strip() *)
}.

Definition ascii_upper (c : codepoint) : bool := (65 <=? c)%N && (c <=? 90)%N.
Definition ascii_lower_letter (c : codepoint) : bool := (97 <=? c)%N && (c <=? 122)%N.
Definition ascii_digit (c : codepoint) : bool := (48 <=? c)%N && (c <=? 57)%N.

(** CJK unified ideographs, the range U+4E00..U+9FFF of the source. *)
Definition is_cjk (c : codepoint) : bool := (19968 <=? c)%N && (c <=? 40959)%N.

Definition SPACE : codepoint := 32%N.
Definition NEWLINE : codepoint := 10%N.
Definition UNDERSCORE : codepoint := 95%N.

(** What the program relies on from the database. *)
Record UnicodeLaws (U : UnicodeData) : Prop := {
  space_isspace : py_isspace U SPACE = true;
  lower_no_upper : forall s c, In c (py_lower U s) -> ascii_upper c = false
}.

(** The database restricted to Basic Latin, the Latin-1 supplement and the
    CJK unified ideographs; code points of other blocks are taken as
    caseless and not alphanumeric. *)
Module Latin.

Definition lower_char (c : codepoint) : codepoint :=
  if ascii_upper c then (c + 32)%N
  else if (192 <=? c)%N && (c <=? 222)%N && negb (c =? 215)%N then (c + 32)%N
  else c.

Definition isalnum (c : codepoint) : bool :=
  ascii_digit c || ascii_upper c || ascii_lower_letter c
  || (c =? 170)%N || (c =? 178)%N || (c =? 179)%N || (c =? 181)%N
  || (c =? 185)%N || (c =? 186)%N
  || ((188 <=? c)%N && (c <=? 190)%N)
  || ((192 <=? c)%N && (c <=? 214)%N)
  || ((216 <=? c)%N && (c <=? 246)%N)
  || ((248 <=? c)%N && (c <=? 255)%N)
  || is_cjk c.

Definition isspace (c : codepoint) : bool :=
  ((9 <=? c)%N && (c <=? 13)%N) || ((28 <=? c)%N && (c <=? 32)%N)
  || (c =? 133)%N || (c =? 160)%N || (c =? 5760)%N
  || ((8192 <=? c)%N && (c <=? 8202)%N)
  || (c =? 8232)%N || (c =? 8233)%N || (c =? 8239)%N || (c =? 8287)%N
  || (c =? 12288)%N.

Definition table : UnicodeData :=
  {| py_lower := map lower_char; py_isalnum := isalnum; py_isspace := isspace |}.

End Latin.

(** ** TextCanonicalizer: [deep_clean_text] *)

Section Canonical.

Variable U : UnicodeData.

Definition is_space (c : codepoint) : bool := py_isspace U c.

(** The class [\w]. *)
Definition is_word (c : codepoint) : bool := py_isalnum U c || (c =? UNDERSCORE)%N.

Fixpoint lstrip (s : pystr) : pystr :=
  match s with
  | c :: s' => if is_space c then lstrip s' else s
  | [] => []
  end.

Fixpoint rstrip (s : pystr) : pystr :=
  match s with
  | [] => []
  | c :: s' =>
      match rstrip s' with
      | [] => if is_space c then [] else [c]
      | r => c :: r
      end
  end.

(** [str.strip()] *)
Definition strip (s : pystr) : pystr := rstrip (lstrip s).

(** *** [re.sub(r'[\(\[].*?[\)\]]', '', text)] *)

Definition is_opener (c : codepoint) : bool := (c =? 40)%N || (c =? 91)%N.
Definition is_closer (c : codepoint) : bool := (c =? 41)%N || (c =? 93)%N.

(** The lazy [.*?] followed by a closer: the number of characters up to and
    including the nearest closer, when no newline comes before it. *)
Fixpoint find_close (s : pystr) : option nat :=
  match s with
  | [] => None
  | c :: s' =>
      if is_closer c then Some 1
      else if (c =? NEWLINE)%N then None
      else option_map S (find_close s')
  end.

(** Left-to-right scan; [skip] counts the characters of the current match
    that are still to be dropped. *)
Fixpoint sub_brackets_from (skip : nat) (s : pystr) : pystr :=
  match s with
  | [] => []
  | c :: s' =>
      match skip with
      | S k => sub_brackets_from k s'
      | O =>
          if is_opener c then
            match find_close s' with
            | Some n => sub_brackets_from n s'
            | None => c :: sub_brackets_from 0 s'
            end
          else c :: sub_brackets_from 0 s'
      end
  end.

Definition sub_brackets (s : pystr) : pystr := sub_brackets_from 0 s.

(** *** [re.sub(rf'\b{marker}\b', '', text)] *)

Definition version_markers : list pystr :=
  [str "live"; str "ver."; str "version"; str "remix"; str "acoustic";
   str "instrumental"; str "demo"; str "edit"; str "mix"; str "feat.";
   str "ft."].

(** The marker is spliced into the pattern as it is: a letter stands for
    itself and the dot is the regular-expression dot, any character but a
    newline. *)
Inductive atom := Lit (c : codepoint) | AnyChar.

Definition marker_pattern (marker : pystr) : list atom :=
  map (fun c => if (c =? 46)%N then AnyChar else Lit c) marker.

Definition atom_matches (a : atom) (c : codepoint) : bool :=
  match a with
  | Lit x => (x =? c)%N
  | AnyChar => negb (c =? NEWLINE)%N
  end.

Definition word_opt (c : option codepoint) : bool :=
  match c with Some x => is_word x | None => false end.

(** [\b] between two neighbours; the ends of the text count as non-word. *)
Definition boundary (before after : option codepoint) : bool :=
  xorb (word_opt before) (word_opt after).

(** The atoms of [pat], then [\b]; [prev] is the character before. *)
Fixpoint match_atoms (pat : list atom) (prev : option codepoint) (s : pystr) : bool :=
  match pat with
  | [] => boundary prev (hd_error s)
  | a :: pat' =>
      match s with
      | [] => false
      | c :: s' => atom_matches a c && match_atoms pat' (Some c) s'
      end
  end.

Definition match_here (pat : list atom) (prev : option codepoint) (s : pystr) : bool :=
  boundary prev (hd_error s) && match_atoms pat prev s.

Fixpoint sub_pattern_from (pat : list atom) (skip : nat) (prev : option codepoint)
         (s : pystr) : pystr :=
  match s with
  | [] => []
  | c :: s' =>
      match skip with
      | S k => sub_pattern_from pat k (Some c) s'
      | O =>
          if match_here pat prev s
          then sub_pattern_from pat (length pat - 1) (Some c) s'
          else c :: sub_pattern_from pat 0 (Some c) s'
      end
  end.

Definition sub_marker (marker : pystr) (s : pystr) : pystr :=
  sub_pattern_from (marker_pattern marker) 0 None s.

(** The loop over [version_markers]. *)
Definition remove_markers (s : pystr) : pystr :=
  fold_left (fun text marker => sub_marker marker text) version_markers s.

(** *** [re.sub(r'[^\w\u4e00-\u9fff\s]', ' ', text)] *)

Definition kept (c : codepoint) : bool := is_word c || is_cjk c || is_space c.

Definition sub_special (s : pystr) : pystr :=
  map (fun c => if kept c then c else SPACE) s.

(** *** [re.sub(r'\s+', ' ', text)] *)

Fixpoint sub_spaces_from (in_run : bool) (s : pystr) : pystr :=
  match s with
  | [] => []
  | c :: s' =>
      if is_space c
      then (if in_run then sub_spaces_from true s' else SPACE :: sub_spaces_from true s')
      else c :: sub_spaces_from false s'
  end.

Definition sub_spaces (s : pystr) : pystr := sub_spaces_from false s.

Definition deep_clean_text (text : pystr) : pystr :=
  if negb (truthy text) then []
  else
    let text := strip (py_lower U text) in
    let text := sub_brackets text in
    let text := remove_markers text in
    let text := sub_special text in
    strip (sub_spaces text).

End Canonical.


(** *** The shape of canonical text *)

Fixpoint no_space_run (s : pystr) : bool :=
  match s with
  | a :: (b :: _) as t => negb ((a =? SPACE)%N && (b =? SPACE)%N) && no_space_run t
  | _ => true
  end.

Definition first_is_space (s : pystr) : bool :=
  match s with c :: _ => (c =? SPACE)%N | [] => false end.

Definition last_is_space (s : pystr) : bool := (last s 0%N =? SPACE)%N.

(** Single spaces only: none in front, none at the end, no two in a row. *)
Definition single_spaced (s : pystr) : bool :=
  negb (first_is_space s) && negb (last_is_space s) && no_space_run s.

(** The characters the specification lists: a-z, 0-9, underscore, the CJK
    ideographs and the space. *)
Definition listed_char (c : codepoint) : bool :=
  ascii_lower_letter c || ascii_digit c || (c =? UNDERSCORE)%N || is_cjk c
  || (c =? SPACE)%N.

(** The characters the program lets through: the space, and the characters
    of [\w] or of the CJK range that are neither whitespace nor an ASCII
    capital. *)
Definition canonical_char (U : UnicodeData) (c : codepoint) : bool :=
  (c =? SPACE)%N
  || ((is_word U c || is_cjk c) && negb (is_space U c) && negb (ascii_upper c)).


(** ** SimilarityScorer: [calculate_similarity] *)

(** [(c1 != c2)] added to an integer. *)
Definition neq_cost (c1 c2 : codepoint) : nat := if (c1 =? c2)%N then 0 else 1.

Definition min3 (a b c : nat) : nat := Nat.min a (Nat.min b c).

(** The loop [for j, c2 in enumerate(s2)]: [s2] is what is left of the
    second string from index [j] on.  A list index out of range raises in
    Python; here it would read 0, and the rows are always long enough. *)
Fixpoint inner_loop (previous_row : list nat) (c1 : codepoint) (j : nat)
         (s2 : pystr) (current_row : list nat) : list nat :=
  match s2 with
  | [] => current_row
  | c2 :: s2' =>
      let insertions := nth (j + 1) previous_row 0 + 1 in
      let deletions := nth j current_row 0 + 1 in
      let substitutions := nth j previous_row 0 + neq_cost c1 c2 in
      inner_loop previous_row c1 (S j) s2'
                 (current_row ++ [min3 insertions deletions substitutions])
  end.

(** The loop [for i, c1 in enumerate(s1)], from index [i] on. *)
Fixpoint outer_loop (s2 : pystr) (i : nat) (s1 : pystr) (previous_row : list nat)
  : list nat :=
  match s1 with
  | [] => previous_row
  | c1 :: s1' => outer_loop s2 (S i) s1' (inner_loop previous_row c1 0 s2 [i + 1])
  end.

(** The body of [levenshtein_distance] once [len(s1) >= len(s2)]. *)
Definition levenshtein_rows (s1 s2 : pystr) : nat :=
  if length s2 =? 0 then length s1
  else last (outer_loop s2 0 s1 (seq 0 (length s2 + 1))) 0.

Definition levenshtein_distance (s1 s2 : pystr) : nat :=
  if length s1 <? length s2 then levenshtein_rows s2 s1
  else levenshtein_rows s1 s2.

(** An integer as a binary64 number.  [int / int] and [1.0 - x] are then the
    binary64 operations; this is Python's true division for operands below
    2^53, far above the length of any string. *)
Definition float_of_nat (n : nat) : float := of_uint63 (Uint63.of_Z (Z.of_nat n)).

Definition calculate_similarity (str1 str2 : pystr) : float :=
  if negb (truthy str1) || negb (truthy str2) then 0%float
  else if pystr_eqb str1 str2 then 1%float
  else
    let len1 := length str1 in
    let len2 := length str2 in
    let max_len := Nat.max len1 len2 in
    if max_len =? 0 then 1%float
    else
      let distance := levenshtein_distance str1 str2 in
      (1 - float_of_nat distance / float_of_nat max_len)%float.

(** *** Edit scripts: the specification of the distance *)

(** [edits a b n]: [a] is turned into [b] by a script of deletions,
    insertions and substitutions of total cost [n]; keeping a character is a
    substitution by itself, of cost 0. *)
Inductive edits : pystr -> pystr -> nat -> Prop :=
| edits_nil : edits [] [] 0
| edits_delete x a b n : edits a b n -> edits (x :: a) b (S n)
| edits_insert y a b n : edits a b n -> edits a (y :: b) (S n)
| edits_subst x y a b n : edits a b n -> edits (x :: a) (y :: b) (neq_cost x y + n).

(** [d] is the cost of a cheapest script. *)
Definition edit_distance (a b : pystr) (d : nat) : Prop :=
  edits a b d /\ forall n, edits a b n -> d <= n.

(** ** Dictionaries

    A Python [dict] keeps its keys in insertion order and iterates in that
    order: an association list without repeated keys. *)

Section Dict.

Variables (K V : Type) (eqb : K -> K -> bool).

Definition dict := list (K * V).

(** [k in d], [d[k]] *)
Fixpoint dict_get (d : dict) (k : K) : option V :=
  match d with
  | [] => None
  | (k', v) :: d' => if eqb k k' then Some v else dict_get d' k
  end.

(** [d[k] = v]: an existing key keeps its place. *)
Fixpoint dict_set (d : dict) (k : K) (v : V) : dict :=
  match d with
  | [] => [(k, v)]
  | (k', v') :: d' => if eqb k k' then (k', v) :: d' else (k', v') :: dict_set d' k v
  end.

Definition dict_keys (d : dict) : list K := map fst d.

End Dict.

(** [d[k].append(x)] on a [defaultdict(list)]: a missing key is created
    with an empty list first. *)
Fixpoint dict_append (K V : Type) (eqb : K -> K -> bool)
         (d : dict K (list V)) (k : K) (x : V) : dict K (list V) :=
  match d with
  | [] => [(k, [x])]
  | (k', l) :: d' =>
      if eqb k k' then (k', l ++ [x]) :: d' else (k', l) :: dict_append K V eqb d' k x
  end.

Arguments dict_get {K V} eqb d k.
Arguments dict_set {K V} eqb d k v.
Arguments dict_keys {K V} d.
Arguments dict_append {K V} eqb d k x.

(** ** Exceptions *)

Inductive exn := OSError | IndexError | NameError.

Inductive result (A : Type) : Type :=
| Ok (a : A)
| Raise (e : exn).

Arguments Ok {A} a.
Arguments Raise {A} e.

Definition bind {A B : Type} (r : result A) (f : A -> result B) : result B :=
  match r with
  | Ok a => f a
  | Raise e => Raise e
  end.

(** ** The operating system and the tag readers

    Directory listing, the file test, path joining and the two tag readers
    of [mutagen] are collaborators of the program.  [listdir] is [None] when
    [os.listdir] raises [OSError]; a tag reader is [None] when anything in
    the [try] block raises, and otherwise gives the first artist and the
    first title, each possibly absent. *)

Record OS := {
  path_sep : codepoint -> bool;
  path_join : pystr -> pystr -> pystr;
  listdir : pystr -> option (list pystr);
  isfile : pystr -> bool;
  EasyID3 : pystr -> option (option pystr * option pystr);
  FLAC : pystr -> option (option pystr * option pystr)
}.

(** ** CandidateExtractor: [extract_artist_title_comprehensive] *)

Definition interpretation : Type := pystr * pystr * pystr.

Definition DOT : codepoint := 46%N.
Definition HYPHEN : codepoint := 45%N.

(** Index of the last character of [s] that satisfies [p] ([str.rfind]). *)
Fixpoint rfind_from (p : codepoint -> bool) (i : nat) (s : pystr) (found : option nat)
  : option nat :=
  match s with
  | [] => found
  | c :: s' => rfind_from p (S i) s' (if p c then Some i else found)
  end.

Definition rfind (p : codepoint -> bool) (s : pystr) : option nat :=
  rfind_from p 0 s None.

Definition is_dot (c : codepoint) : bool := (c =? DOT)%N.

(** [os.path.splitext(p)[0]]: the extension starts at the last dot of the
    last path component, unless only dots come before it there. *)
Definition splitext_root (os : OS) (p : pystr) : pystr :=
  match rfind is_dot p with
  | None => p
  | Some dotIndex =>
      let filenameIndex :=
        match rfind (path_sep os) p with Some sepIndex => S sepIndex | None => 0 end in
      if (filenameIndex <=? dotIndex)
         && existsb (fun c => negb (is_dot c))
                    (firstn (dotIndex - filenameIndex) (skipn filenameIndex p))
      then firstn dotIndex p
      else p
  end.

Definition contains (sep s : pystr) : bool :=
  match split_first sep s with Some _ => true | None => false end.

Definition EM_DASH : codepoint := 8212%N.
Definition EN_DASH : codepoint := 8211%N.

Definition separators : list pystr :=
  [str " - "; [SPACE; EM_DASH; SPACE]; [SPACE; EN_DASH; SPACE];
   str "-"; str "_"; str "~"].

Section Extractor.

Variable U : UnicodeData.
Variable os : OS.

(** Strategy 1: the tags of the file. *)
Definition metadata_strategy (filepath : pystr) : list interpretation :=
  let tags :=
    if endswith (str ".mp3") (py_lower U filepath) then EasyID3 os filepath
    else if endswith (str ".flac") (py_lower U filepath) then FLAC os filepath
    else Some (None, None) in
  match tags with
  | Some (Some artist, Some title) =>
      if truthy artist && truthy title then [(str "metadata", artist, title)] else []
  | _ => []
  end.

(** Strategy 2: [artist sep title]. *)
Definition filename_strategy (name_no_ext sep : pystr) : list interpretation :=
  match split_first sep name_no_ext with
  | Some (part0, part1) =>
      let artist := strip U part0 in
      let title := strip U part1 in
      if truthy artist && truthy title
      then [(str "filename" ++ sep, artist, title)]
      else []
  | None => []
  end.

(** Strategy 3: [title sep artist], kept when the artist is short. *)
Definition filename_rev_strategy (name_no_ext sep : pystr) : list interpretation :=
  match split_first sep name_no_ext with
  | Some (part0, part1) =>
      let title := strip U part0 in
      let artist := strip U part1 in
      if truthy artist && truthy title
      then (if length artist <=? 15
            then [(str "filename_rev" ++ sep, artist, title)]
            else [])
      else []
  | None => []
  end.

Definition reversed_strategies (name_no_ext : pystr) : list interpretation :=
  if contains (str " - ") name_no_ext || contains (str "-") name_no_ext
  then flat_map (filename_rev_strategy name_no_ext) [str " - "; str "-"]
  else [].

(** *** Strategy 4: the three patterns

    The regular expressions are matched as [re.match] does, by backtracking:
    the first group is lazy, the runs of separators are greedy. *)

(** The class [[\s\-_]]. *)
Definition is_sep (c : codepoint) : bool :=
  is_space U c || (c =? HYPHEN)%N || (c =? UNDERSCORE)%N.

Definition not_newline (c : codepoint) : bool := negb (c =? NEWLINE)%N.

Fixpoint take_while (p : codepoint -> bool) (s : pystr) : pystr :=
  match s with
  | c :: s' => if p c then c :: take_while p s' else []
  | [] => []
  end.

Fixpoint drop_while (p : codepoint -> bool) (s : pystr) : pystr :=
  match s with
  | c :: s' => if p c then drop_while p s' else s
  | [] => []
  end.

(** [(.+)$]: the rest of the text, without newline, up to the end or to a
    last newline. *)
Definition rest_group (s : pystr) : option pystr :=
  let g := take_while not_newline s in
  if truthy g then
    match drop_while not_newline s with
    | [] => Some g
    | [_] => Some g
    | _ => None
    end
  else None.

(** A run of separators followed by [k]: the longest run first, then
    shorter ones, down to one separator. *)
Fixpoint try_runs (k : pystr -> option pystr) (j : nat) (s : pystr) : option pystr :=
  match j with
  | O => None
  | S j' =>
      match k (skipn j s) with
      | Some g => Some g
      | None => try_runs k j' s
      end
  end.

Definition seps_then (k : pystr -> option pystr) (s : pystr) : option pystr :=
  try_runs k (length (take_while is_sep s)) s.

Definition literal_then (lit : pystr) (k : pystr -> option pystr) (s : pystr)
  : option pystr :=
  if startswith lit s then k (skipn (length lit) s) else None.

(** [\.?]: with the dot first, then without. *)
Definition opt_dot_then (k : pystr -> option pystr) (s : pystr) : option pystr :=
  match s with
  | c :: s' =>
      if is_dot c then
        match k s' with
        | Some g => Some g
        | None => k s
        end
      else k s
  | [] => k s
  end.

(** [^(.+?)] followed by [tail]: the shortest first group for which the
    rest matches.  [group1] is the group so far, [s] what follows it. *)
Fixpoint lazy_group (tail : pystr -> option pystr) (group1 s : pystr)
  : option (pystr * pystr) :=
  match tail s with
  | Some group2 => Some (group1, group2)
  | None =>
      match s with
      | [] => None
      | c :: s' =>
          if not_newline c then lazy_group tail (group1 ++ [c]) s' else None
      end
  end.

Definition re_match (tail : pystr -> option pystr) (s : pystr) : option (pystr * pystr) :=
  match s with
  | [] => None
  | c :: s' => if not_newline c then lazy_group tail [c] s' else None
  end.

(** [^(.+?)[\s\-_]+(.+)$] *)
Definition pattern_artist_title : pystr -> option pystr :=
  seps_then rest_group.

(** [^(.+?)[\s\-_]+by[\s\-_]+(.+)$] *)
Definition pattern_title_artist : pystr -> option pystr :=
  seps_then (literal_then (str "by") (seps_then rest_group)).

(** [^(.+?)[\s\-_]+ft\.?[\s\-_]+(.+)$] *)
Definition pattern_artist_feat : pystr -> option pystr :=
  seps_then (literal_then (str "ft") (opt_dot_then (seps_then rest_group))).

Definition regex_strategies (name_no_ext : pystr) : list interpretation :=
  (match re_match pattern_artist_title name_no_ext with
   | Some (g1, g2) => [(str "regex_artist-title", strip U g1, strip U g2)]
   | None => []
   end)
  ++ (match re_match pattern_title_artist name_no_ext with
      | Some (g1, g2) => [(str "regex_title-artist", strip U g2, strip U g1)]
      | None => []
      end)
  ++ (match re_match pattern_artist_feat name_no_ext with
      | Some (g1, g2) => [(str "regex_artist-feat", strip U g1, strip U g2)]
      | None => []
      end).

(** The candidates before cleaning. *)
Definition raw_strategies (filepath filename : pystr) : list interpretation :=
  let name_no_ext := splitext_root os filename in
  metadata_strategy filepath
  ++ flat_map (filename_strategy name_no_ext) separators
  ++ reversed_strategies name_no_ext
  ++ regex_strategies name_no_ext.

(** The last loop: both fields are cleaned, and a candidate with an empty
    field is dropped. *)
Definition clean_strategy (s : interpretation) : list interpretation :=
  let '(strategy_name, artist, title) := s in
  let clean_artist := deep_clean_text U artist in
  let clean_title := deep_clean_text U title in
  if truthy clean_artist && truthy clean_title
  then [(strategy_name, clean_artist, clean_title)]
  else [].

Definition extract_artist_title_comprehensive (filepath filename : pystr)
  : list interpretation :=
  flat_map clean_strategy (raw_strategies filepath filename).

(** ** IndexBuilder: [build_smart_index] *)

Definition key : Type := pystr * pystr.

Definition key_eqb (k1 k2 : key) : bool :=
  pystr_eqb (fst k1) (fst k2) && pystr_eqb (snd k1) (snd k2).

Definition file_index : Type := dict pystr (list interpretation).
Definition reverse_index : Type := dict key (list pystr).

(** The counters of the first loop; they are printed, not returned. *)
Record index_state := {
  st_index : file_index;
  st_counts : dict pystr nat;
  st_total : nat;
  st_audio : nat;
  st_unparsed : list pystr
}.

Definition count_strategy (counts : dict pystr nat) (s : interpretation) : dict pystr nat :=
  let '(strategy, _, _) := s in
  match dict_get pystr_eqb counts strategy with
  | Some n => dict_set pystr_eqb counts strategy (n + 1)
  | None => dict_set pystr_eqb counts strategy 1
  end.

Definition is_audio_name (filename : pystr) : bool :=
  endswith (str ".mp3") (py_lower U filename)
  || endswith (str ".flac") (py_lower U filename).

(** One round of [for filename in os.listdir(folder_path)]. *)
Definition index_step (folder_path : pystr) (st : index_state) (filename : pystr)
  : index_state :=
  let total := st_total st + 1 in
  let filepath := path_join os folder_path filename in
  if negb (isfile os filepath) then
    {| st_index := st_index st; st_counts := st_counts st; st_total := total;
       st_audio := st_audio st; st_unparsed := st_unparsed st |}
  else if negb (is_audio_name filename) then
    {| st_index := st_index st; st_counts := st_counts st; st_total := total;
       st_audio := st_audio st; st_unparsed := st_unparsed st |}
  else
    let strategies := extract_artist_title_comprehensive filepath filename in
    match strategies with
    | _ :: _ =>
        {| st_index := dict_set pystr_eqb (st_index st) filename strategies;
           st_counts := fold_left count_strategy strategies (st_counts st);
           st_total := total; st_audio := st_audio st + 1;
           st_unparsed := st_unparsed st |}
    | [] =>
        {| st_index := st_index st; st_counts := st_counts st; st_total := total;
           st_audio := st_audio st + 1;
           st_unparsed := st_unparsed st ++ [filename] |}
    end.

Definition index_start : index_state :=
  {| st_index := []; st_counts := []; st_total := 0; st_audio := 0; st_unparsed := [] |}.

Definition index_files (folder_path : pystr) (names : list pystr) : index_state :=
  fold_left (index_step folder_path) names index_start.

(** The second loop: every interpretation of every file is filed under its
    (artist, title) key. *)
Definition file_keys (reverse : reverse_index) (entry : pystr * list interpretation)
  : reverse_index :=
  let '(filename, strategies) := entry in
  fold_left (fun rev (s : interpretation) =>
               let '(_, artist, title) := s in
               dict_append key_eqb rev (artist, title) filename)
            strategies reverse.

Definition build_reverse_index (index : file_index) : reverse_index :=
  fold_left file_keys index [].

Definition build_smart_index (folder_path : pystr) : result (file_index * reverse_index) :=
  match listdir os folder_path with
  | None => Raise OSError
  | Some names =>
      let index := st_index (index_files folder_path names) in
      Ok (index, build_reverse_index index)
  end.

End Extractor.

(** ** CrossMatcher: the main loop of [find_unique_with_cross_check] *)

Inductive match_type :=
| ExactMatch
| FuzzyMatch (similarity : float).

(** [(filename2, label, info2, info1)]; the label of a fuzzy match shows the
    similarity. *)
Definition match_detail : Type := pystr * match_type * pystr * pystr.

Definition GATE : float := 0x1.999999999999ap-1%float.      (* 0.8 *)
Definition ACCEPT : float := 0x1.b333333333333p-1%float.    (* 0.85 *)

Record best := {
  best_match : option (pystr * pystr * float);
  best_similarity : float
}.

(** One round of [for key1 in reverse1.keys()]. *)
Definition scan_key (artist2 title2 : pystr) (b : best) (key1 : key) : best :=
  let '(artist1, title1) := key1 in
  let artist_sim := calculate_similarity artist1 artist2 in
  if (GATE <? artist_sim)%float then
    let title_sim := calculate_similarity title1 title2 in
    let overall_sim := ((artist_sim + title_sim) / 2)%float in
    if (best_similarity b <? overall_sim)%float
    then {| best_match := Some (artist1, title1, overall_sim);
            best_similarity := overall_sim |}
    else b
  else b.

(** What the loop over the interpretations of a file leaves behind: the
    exact match it stopped at, or the best fuzzy candidate together with the
    loop variables [artist2], [title2]. *)
Inductive scan_result :=
| FoundExact (strategy2 : pystr) (matched_files : list pystr)
| NoExact (b : best) (last : option (pystr * pystr)).

Fixpoint scan_strategies (reverse1 : reverse_index) (strategies2 : list interpretation)
         (b : best) (last : option (pystr * pystr)) : scan_result :=
  match strategies2 with
  | [] => NoExact b last
  | (strategy2, artist2, title2) :: rest =>
      match dict_get key_eqb reverse1 (artist2, title2) with
      | Some matched_files => FoundExact strategy2 matched_files
      | None =>
          scan_strategies reverse1 rest
            (fold_left (scan_key artist2 title2) (dict_keys reverse1) b)
            (Some (artist2, title2))
      end
  end.

Definition best_start : best := {| best_match := None; best_similarity := 0%float |}.

Definition dash (a b : pystr) : pystr := a ++ str "-" ++ b.

(** One round of [for filename2, strategies2 in index2.items()], on the two
    result lists. *)
Definition match_file (reverse1 : reverse_index)
           (acc : list pystr * list match_detail)
           (entry : pystr * list interpretation)
  : result (list pystr * list match_detail) :=
  let '(unique_songs, match_details) := acc in
  let '(filename2, strategies2) := entry in
  match scan_strategies reverse1 strategies2 best_start None with
  | FoundExact strategy2 matched_files =>
      match matched_files with
      | first :: _ =>
          Ok (unique_songs,
              match_details ++ [(filename2, ExactMatch, strategy2, first)])
      | [] => Raise IndexError
      end
  | NoExact b last =>
      match best_match b with
      | Some (artist1, title1, similarity) =>
          if (ACCEPT <? best_similarity b)%float then
            match last with
            | Some (artist2, title2) =>
                Ok (unique_songs,
                    match_details ++ [(filename2, FuzzyMatch similarity,
                                       dash artist2 title2, dash artist1 title1)])
            | None => Raise NameError
            end
          else Ok (unique_songs ++ [filename2], match_details)
      | None => Ok (unique_songs ++ [filename2], match_details)
      end
  end.

Fixpoint cross_check (reverse1 : reverse_index) (index2 : file_index)
         (acc : list pystr * list match_detail)
  : result (list pystr * list match_detail) :=
  match index2 with
  | [] => Ok acc
  | entry :: rest =>
      bind (match_file reverse1 acc entry) (cross_check reverse1 rest)
  end.

Definition find_unique_with_cross_check (U : UnicodeData) (os : OS)
           (folder1 folder2 : pystr)
  : result (list pystr * list match_detail * nat * nat) :=
  bind (build_smart_index U os folder1) (fun '(index1, reverse1) =>
  bind (build_smart_index U os folder2) (fun '(index2, reverse2) =>
  bind (cross_check reverse1 index2 ([], [])) (fun '(unique_songs, match_details) =>
  Ok (unique_songs, match_details, length index1, length index2)))).

(** ** The analysis tools: [analyze_naming_patterns], [quick_analysis],
       [manual_verification] *)

(** The labels of the naming patterns, as code points. *)
Definition LABEL_SPACED_HYPHEN : pystr :=
  [34; 32; 45; 32; 34; 32; 20998; 38548]%N.        (* '" - " 分隔' *)
Definition LABEL_HYPHEN : pystr := [34; 45; 34; 32; 20998; 38548]%N.
Definition LABEL_UNDERSCORE : pystr := [34; 95; 34; 32; 20998; 38548]%N.
Definition LABEL_SPACE : pystr := [31354; 26684; 20998; 38548]%N.
Definition LABEL_SPECIAL : pystr := [29305; 27530; 23383; 31526; 20998; 38548]%N.
Definition LABEL_CHINESE : pystr := [32431; 20013; 25991; 26080; 20998; 38548]%N.
Definition LABEL_OTHER : pystr := [20854; 20182; 26684; 24335]%N.

(** [re.search] for two characters of the range U+4E00..U+9FFF with any
    characters but a newline between them. *)
Fixpoint two_cjk (s : pystr) : bool :=
  match s with
  | [] => false
  | c :: s' =>
      (is_cjk c && existsb is_cjk (take_while not_newline s')) || two_cjk s'
  end.

(** The chain of [if]/[elif] that names the pattern of one file name. *)
Definition naming_pattern (name : pystr) : pystr :=
  if contains (str " - ") name then LABEL_SPACED_HYPHEN
  else if contains (str "-") name then LABEL_HYPHEN
  else if contains (str "_") name then LABEL_UNDERSCORE
  else if contains (str " ") name then LABEL_SPACE
  else if existsb (fun char => contains [char] name) [183; 8226; 12539]%N
       then LABEL_SPECIAL
  else if two_cjk name then LABEL_CHINESE
  else LABEL_OTHER.

(** [patterns[label] += 1] on a [Counter]: a missing label counts 0. *)
Definition counter_add (patterns : dict pystr nat) (label : pystr) : dict pystr nat :=
  match dict_get pystr_eqb patterns label with
  | Some n => dict_set pystr_eqb patterns label (n + 1)
  | None => dict_set pystr_eqb patterns label 1
  end.

Section Tools.

Variable U : UnicodeData.
Variable os : OS.

Definition analyze_naming_patterns (filenames : list pystr) : dict pystr nat :=
  fold_left (fun patterns filename =>
               counter_add patterns (naming_pattern (splitext_root os filename)))
            filenames [].

(** [[f for f in os.listdir(folder) if f.lower().endswith(('.mp3', '.flac'))]] *)
Definition audio_files (folder : pystr) : result (list pystr) :=
  match listdir os folder with
  | None => Raise OSError
  | Some names => Ok (filter (is_audio_name U) names)
  end.

(** The inner loop of the simple matching test: is the name of some file of
    the first folder part of [name2_no_ext], or the other way round? *)
Definition simple_match (files1 : list pystr) (file2 : pystr) : bool :=
  let name2_no_ext := py_lower U (splitext_root os file2) in
  existsb (fun file1 =>
             let name1_no_ext := py_lower U (splitext_root os file1) in
             contains name1_no_ext name2_no_ext || contains name2_no_ext name1_no_ext)
          files1.

Definition simple_matches (files1 files2 : list pystr) : nat :=
  length (filter (simple_match files1) (firstn 20 files2)).

(** What [quick_analysis] prints: the patterns of both folders and the
    number of simple matches. *)
Definition quick_analysis_report (folder1 folder2 : pystr)
  : result (dict pystr nat * dict pystr nat * nat) :=
  bind (audio_files folder1) (fun files1 =>
  bind (audio_files folder2) (fun files2 =>
  Ok (analyze_naming_patterns files1, analyze_naming_patterns files2,
      simple_matches files1 files2))).

Definition quick_analysis (folder1 folder2 : pystr) : result (nat * nat) :=
  bind (audio_files folder1) (fun files1 =>
  bind (audio_files folder2) (fun files2 =>
  Ok (length files1, length files2))).

(** *** [manual_verification]

    [answers i] is the line typed at the [i]-th question.  The verdict of a
    sample is [Some true] for a confirmed unique song (answer [n]),
    [Some false] for a misjudged one (answer [y]) and [None] when skipped. *)
Definition verdict (answer : pystr) : option bool :=
  let response := py_lower U (strip U answer) in
  if pystr_eqb response (str "y") then Some false
  else if pystr_eqb response (str "n") then Some true
  else None.

Definition manual_verification (answers : nat -> pystr) (unique_songs : list pystr)
           (sample_size : nat) : option (list (pystr * option bool)) :=
  match unique_songs with
  | [] => None
  | _ :: _ =>
      let sample := firstn (Nat.min sample_size (length unique_songs)) unique_songs in
      Some (map (fun p : nat * pystr => (snd p, verdict (answers (fst p))))
                (combine (seq 0 (length sample)) sample))
  end.

(** The three tallies of the summary. *)
Definition correct (results : list (pystr * option bool)) : nat :=
  length (filter (fun r => match snd r with Some true => true | _ => false end) results).

Definition incorrect (results : list (pystr * option bool)) : nat :=
  length (filter (fun r => match snd r with Some false => true | _ => false end) results).

Definition skipped (results : list (pystr * option bool)) : nat :=
  length results - correct results - incorrect results.

End Tools.

(** ** Notions used to state the properties of the matcher *)

(** The mean of the artist and the title similarity of a reference key and
    an interpretation, and the gate on the artist similarity. *)
Definition overall (key1 : key) (artist2 title2 : pystr) : float :=
  ((calculate_similarity (fst key1) artist2
    + calculate_similarity (snd key1) title2) / 2)%float.

Definition passes_gate (key1 : key) (artist2 : pystr) : bool :=
  (GATE <? calculate_similarity (fst key1) artist2)%float.

(** The overall similarities of all the pairs (interpretation, reference
    key) that pass the gate, in the order of the scan. *)
Definition gated_scores (reverse1 : reverse_index) (strategies2 : list interpretation)
  : list float :=
  flat_map (fun s : interpretation =>
              let '(_, artist2, title2) := s in
              flat_map (fun key1 =>
                          if passes_gate key1 artist2
                          then [overall key1 artist2 title2] else [])
                       (dict_keys reverse1))
           strategies2.

Definition fmax (a b : float) : float := if (a <? b)%float then b else a.

(** The best of a list of scores; none for the empty list. *)
Definition best_overall (scores : list float) : option float :=
  match scores with
  | [] => None
  | s :: rest => Some (fold_left fmax rest s)
  end.

(** Does the best overall similarity exceed the acceptance threshold? *)
Definition accepted (reverse1 : reverse_index) (strategies2 : list interpretation) : bool :=
  match best_overall (gated_scores reverse1 strategies2) with
  | Some b => (ACCEPT <? b)%float
  | None => false
  end.

Definition interpretation_key (s : interpretation) : key :=
  let '(_, artist, title) := s in (artist, title).

(** No interpretation of the file is a key of the reference index. *)
Definition no_exact_key (reverse1 : reverse_index) (strategies2 : list interpretation) : Prop :=
  forall s, In s strategies2 -> dict_get key_eqb reverse1 (interpretation_key s) = None.

Definition detail_file (d : match_detail) : pystr :=
  let '(filename2, _, _, _) := d in filename2.

Definition is_fuzzy (d : match_detail) : bool :=
  match d with (_, FuzzyMatch _, _, _) => true | _ => false end.

(** ** Notions used to state the properties of the indices *)

(** A listed name enters the file index when it is a regular file with an
    audio extension and at least one interpretation. *)
Definition regular_audio (U : UnicodeData) (os : OS) (folder_path filename : pystr) : bool :=
  isfile os (path_join os folder_path filename) && is_audio_name U filename.

Definition parsed (U : UnicodeData) (os : OS) (folder_path filename : pystr) : bool :=
  match extract_artist_title_comprehensive
          U os (path_join os folder_path filename) filename with
  | [] => false
  | _ :: _ => true
  end.

Definition qualifies (U : UnicodeData) (os : OS) (folder_path filename : pystr) : bool :=
  regular_audio U os folder_path filename && parsed U os folder_path filename.

(** The files filed under a key: each file of the index, once for each of
    its interpretations that has the key. *)
Definition has_key (k : key) (s : interpretation) : bool :=
  key_eqb k (interpretation_key s).

Definition bucket_of (index : file_index) (k : key) : list pystr :=
  flat_map (fun entry : pystr * list interpretation =>
              map (fun _ => fst entry) (filter (has_key k) (snd entry)))
           index.

Definition is_exact (d : match_detail) : bool :=
  match d with (_, ExactMatch, _, _) => true | _ => false end.

(** ** Notions used to state the properties of the extractor *)

(** The names of the strategies, in the order in which the extractor tries
    them. *)
Definition STRATEGY_NAMES : list pystr :=
  [str "metadata"]
  ++ map (fun sep => str "filename" ++ sep) separators
  ++ map (fun sep => str "filename_rev" ++ sep) [str " - "; str "-"]
  ++ [str "regex_artist-title"; str "regex_title-artist"; str "regex_artist-feat"].

Definition strategy_name (s : interpretation) : pystr := let '(name, _, _) := s in name.

(** [sublist l l']: [l] is [l'] with some elements left out. *)
Inductive sublist {A : Type} : list A -> list A -> Prop :=
| sublist_nil : sublist [] []
| sublist_skip x l l' : sublist l l' -> sublist l (x :: l')
| sublist_keep x l l' : sublist l l' -> sublist (x :: l) (x :: l').

Definition TILDE : codepoint := 126%N.

(** Neither a blank, nor a hyphen, an underscore or a tilde. *)
Definition plain_char (U : UnicodeData) (c : codepoint) : bool :=
  negb (is_sep U c) && negb (c =? TILDE)%N.

(** The split made by the pattern [^(.+?)[\s\-_]+(.+)$] on one line: the
    first group is the first character and what follows it up to the first
    separator; the second group is what follows the run of separators, or
    the last separator of the run when nothing follows. *)
Definition first_separator_split (U : UnicodeData) (name : pystr) : option (pystr * pystr) :=
  match name with
  | [] => None
  | c :: s =>
      let group1 := c :: take_while (fun c => negb (is_sep U c)) s in
      let rest := drop_while (fun c => negb (is_sep U c)) s in
      match drop_while (is_sep U) rest with
      | (_ :: _) as group2 => Some (group1, group2)
      | [] =>
          match take_while (is_sep U) rest with
          | (_ :: _ :: _) as run => Some (group1, [last run 0%N])
          | _ => None
          end
      end
  end.

(** [part0] and [part1] are the text before and after the first occurrence
    of [sep] in [name]. *)
Definition first_cut (sep name part0 part1 : pystr) : Prop :=
  name = part0 ++ sep ++ part1
  /\ forall before after, name = before ++ sep ++ after -> length part0 <= length before.

(** Does the extractor give the file an interpretation by the strategy
    [label]? *)
Definition uses (U : UnicodeData) (os : OS) (folder_path label filename : pystr) : bool :=
  existsb (fun s => pystr_eqb label (strategy_name s))
          (extract_artist_title_comprehensive
             U os (path_join os folder_path filename) filename).

(** The listed regular audio files with an interpretation by [label]. *)
Definition strategy_users (U : UnicodeData) (os : OS) (folder_path label : pystr)
           (names : list pystr) : list pystr :=
  filter (fun n => regular_audio U os folder_path n && uses U os folder_path label n) names.

(** ** Notions used to state the properties of the counters *)

(** [patterns[label]] on a [Counter]: a missing label counts 0. *)
Definition get_count (patterns : dict pystr nat) (label : pystr) : nat :=
  match dict_get pystr_eqb patterns label with Some n => n | None => 0 end.

Definition positive_counts (patterns : dict pystr nat) : Prop :=
  forall label n, dict_get pystr_eqb patterns label = Some n -> 0 < n.

(** ** Notions used to state the properties of the matcher on a collection *)

(** Is the key of some interpretation a key of the reference index? *)
Definition has_exact_key (reverse1 : reverse_index) (strategies2 : list interpretation) : bool :=
  existsb (fun s => match dict_get key_eqb reverse1 (interpretation_key s) with
                    | Some _ => true
                    | None => false
                    end)
          strategies2.

(** The candidates that the matcher leaves without a decision. *)
Definition unmatched (reverse1 : reverse_index) (entry : pystr * list interpretation) : bool :=
  negb (has_exact_key reverse1 (snd entry)) && negb (accepted reverse1 (snd entry)).

(** The reference key and the interpretation that a similarity comes from. *)
Definition scored_by (reverse1 : reverse_index) (strategies2 : list interpretation)
           (key1 : key) (similarity : float) : Prop :=
  In key1 (dict_keys reverse1)
  /\ exists s, In s strategies2
               /\ passes_gate key1 (fst (interpretation_key s)) = true
               /\ similarity = overall key1 (fst (interpretation_key s))
                                       (snd (interpretation_key s)).

(** The running state of the scan of one candidate: where the best match
    comes from, and which interpretation the loop variables hold. *)
Definition best_traced (reverse1 : reverse_index) (done : list interpretation) (b : best)
  : Prop :=
  match best_match b with
  | Some (artist1, title1, similarity) =>
      similarity = best_similarity b
      /\ scored_by reverse1 done (artist1, title1) similarity
  | None => True
  end.

Definition last_traced (done : list interpretation) (last : option (pystr * pystr)) : Prop :=
  match last with
  | Some k => exists pre s, done = pre ++ [s] /\ k = interpretation_key s
  | None => done = []
  end.

(** The verdicts without answer. *)
Definition unanswered (results : list (pystr * option bool)) : nat :=
  length (filter (fun r => match snd r with None => true | _ => false end) results).

(** ** A small collection, used to instantiate the theorems *)

Module Demo.

Definition names_ref : list pystr :=
  [str "Adele - Hello.flac"; str "notes.txt"; str "abcdefghij - hello.mp3"].

Definition names_cand : list pystr :=
  [str "Adele - Hello (Remix).flac"; str "abcdefghix-hellx.mp3";
   str "unknownartist - totallyuniquesongxyz.mp3"].

(** Two directories, [ref] and [cand]; any other path cannot be listed. *)
Definition os : OS :=
  {| path_sep := fun c => (c =? 47)%N;
     path_join := fun a b => a ++ str "/" ++ b;
     listdir := fun p =>
                  if pystr_eqb p (str "ref") then Some names_ref
                  else if pystr_eqb p (str "cand") then Some names_cand
                  else None;
     isfile := fun _ => true;
     EasyID3 := fun _ => None;
     FLAC := fun _ => None |}.

Definition index_of (folder : pystr) : file_index :=
  match build_smart_index Latin.table os folder with
  | Ok (index, _) => index
  | Raise _ => []
  end.

Definition reverse_of (folder : pystr) : reverse_index :=
  match build_smart_index Latin.table os folder with
  | Ok (_, reverse) => reverse
  | Raise _ => []
  end.

(** A reference key and an interpretation at overall similarity 0.85:
    the artists are equal and three of the ten characters of the title
    differ. *)
Definition reverse_085 : reverse_index :=
  [((str "adele", str "abcdefghij"), [str "ref.flac"])].

Definition strategies_085 : list interpretation :=
  [(str "filename - ", str "adele", str "abcdefgxyz")].

End Demo.

(** ** More of the small collection *)

Module Sample.

Definition reverse_two : reverse_index :=
  [((str "adele", str "hello"), [str "a.flac"]);
   ((str "abba", str "waterloo"), [str "b.flac"])].

Definition reverse_one : reverse_index :=
  [((str "abba", str "waterloo"), [str "b.flac"])].

Definition strategies_unknown : list interpretation :=
  [(str "filename - ", str "unknownartist", str "totallyuniquesongxyz")].

(** One character of ten differs in the title: overall similarity 0.95. *)
Definition reverse_095 : reverse_index :=
  [((str "adele", str "abcdefghij"), [str "ref.flac"])].

Definition strategies_095 : list interpretation :=
  [(str "filename-", str "adelle", str "zzzzzzzzzz");
   (str "filename - ", str "adele", str "abcdefghix")].

(** The two result lists for the candidates [cand] against the references
    [ref]. *)
Definition unique_songs : list pystr :=
  match cross_check (Demo.reverse_of (str "ref")) (Demo.index_of (str "cand")) ([], []) with
  | Ok (unique_songs, _) => unique_songs
  | Raise _ => []
  end.

Definition match_details : list match_detail :=
  match cross_check (Demo.reverse_of (str "ref")) (Demo.index_of (str "cand")) ([], []) with
  | Ok (_, match_details) => match_details
  | Raise _ => []
  end.

End Sample.

(** * Facts about the model *)

Lemma pystr_eqb_eq (a b : pystr) : pystr_eqb a b = true <-> a = b.
Proof.
  unfold pystr_eqb. destruct (list_eq_dec N.eq_dec a b); split; congruence.
Qed.

Lemma pystr_eqb_refl (a : pystr) : pystr_eqb a a = true.
Proof. now apply pystr_eqb_eq. Qed.

(** ** Canonical text *)

Section CanonicalFacts.

Variable U : UnicodeData.

Lemma lstrip_incl s c : In c (lstrip U s) -> In c s.
Proof.
  induction s as [|x s IH]; simpl; auto.
  destruct (is_space U x); simpl; auto.
Qed.

Lemma rstrip_incl s c : In c (rstrip U s) -> In c s.
Proof.
  revert c. induction s as [|x s IH]; simpl; auto.
  intros c. destruct (rstrip U s) as [|y r].
  - destruct (is_space U x); simpl; tauto.
  - simpl. intros [H|H]; [auto | right; apply IH; exact H].
Qed.

Lemma strip_incl s c : In c (strip U s) -> In c s.
Proof. intros H. apply lstrip_incl, rstrip_incl, H. Qed.

Lemma sub_brackets_from_incl s : forall k c, In c (sub_brackets_from k s) -> In c s.
Proof.
  induction s as [|x s IH]; simpl; auto.
  intros [|k] c.
  - destruct (is_opener x).
    + destruct (find_close s); simpl; intros H; [right; eauto|].
      destruct H; eauto.
    + simpl. intros [H|H]; eauto.
  - intros H. right. eauto.
Qed.

Lemma sub_pattern_from_incl pat s :
  forall k prev c, In c (sub_pattern_from U pat k prev s) -> In c s.
Proof.
  induction s as [|x s IH]; simpl; auto.
  intros [|k] prev c.
  - destruct (match_here U pat prev (x :: s)); simpl.
    + intros H. right. eauto.
    + intros [H|H]; eauto.
  - intros H. right. eauto.
Qed.

Lemma remove_markers_incl s c : In c (remove_markers U s) -> In c s.
Proof.
  unfold remove_markers. generalize version_markers as ms.
  intros ms. revert s. induction ms as [|m ms IH]; simpl; auto.
  intros s H. apply IH in H. unfold sub_marker in H.
  eapply sub_pattern_from_incl; eauto.
Qed.

Lemma sub_special_inv s c :
  In c (sub_special U s) -> c = SPACE \/ (In c s /\ kept U c = true).
Proof.
  unfold sub_special. rewrite in_map_iff. intros [x [Hx Hin]].
  destruct (kept U x) eqn:K; subst; auto.
Qed.

Lemma sub_spaces_from_inv s :
  forall b c, In c (sub_spaces_from U b s) ->
              c = SPACE \/ (In c s /\ is_space U c = false).
Proof.
  induction s as [|x s IH]; simpl; [tauto|].
  intros b c. destruct (is_space U x) eqn:Sx.
  - destruct b; simpl.
    + intros H. apply IH in H. tauto.
    + intros [H|H]; auto. apply IH in H. tauto.
  - simpl. intros [H|H]; [subst; auto|]. apply IH in H. tauto.
Qed.

Hypothesis HU : UnicodeLaws U.

Lemma not_space_neq c : is_space U c = false -> (c =? SPACE)%N = false.
Proof.
  intros H. apply N.eqb_neq. intros ->.
  unfold is_space in H. rewrite (space_isspace U HU) in H. discriminate.
Qed.

(** After [\s+] is replaced no two spaces are neighbours, and a scan that
    starts inside a run does not start its output with a space. *)
Lemma sub_spaces_from_run s :
  forall b, no_space_run (sub_spaces_from U b s) = true
            /\ (b = true -> first_is_space (sub_spaces_from U b s) = false).
Proof.
  induction s as [|x s IH]; intros b; simpl; [auto|].
  destruct (is_space U x) eqn:Sx.
  - destruct b; [apply IH|].
    split; [|discriminate].
    destruct (IH true) as [H1 H2]. specialize (H2 eq_refl).
    simpl. destruct (sub_spaces_from U true s) as [|y t]; auto.
    simpl in H2. rewrite H1, H2. reflexivity.
  - pose proof (not_space_neq _ Sx) as Nx.
    split; [|intros _; simpl; exact Nx].
    destruct (IH false) as [H1 _].
    simpl. destruct (sub_spaces_from U false s) as [|y t]; auto.
    rewrite H1, Nx. reflexivity.
Qed.

Lemma no_space_run_tail a s : no_space_run (a :: s) = true -> no_space_run s = true.
Proof.
  destruct s as [|b t]; auto. simpl. intros H.
  apply andb_true_iff in H. apply H.
Qed.

Lemma lstrip_run s : no_space_run s = true -> no_space_run (lstrip U s) = true.
Proof.
  induction s as [|x s IH]; auto. intros H. simpl.
  destruct (is_space U x); auto. apply IH. eapply no_space_run_tail; eauto.
Qed.

Lemma lstrip_first s : first_is_space (lstrip U s) = false.
Proof.
  induction s as [|x s IH]; auto. simpl.
  destruct (is_space U x) eqn:Sx; auto. simpl. now apply not_space_neq.
Qed.

Lemma rstrip_hd s x r : rstrip U s = x :: r -> exists s', s = x :: s'.
Proof.
  destruct s as [|y s]; simpl; [discriminate|].
  destruct (rstrip U s).
  - destruct (is_space U y); [discriminate|]. intros [= -> _]. eauto.
  - intros [= -> _]. eauto.
Qed.

Lemma rstrip_run s : no_space_run s = true -> no_space_run (rstrip U s) = true.
Proof.
  induction s as [|x s IH]; auto. intros H.
  pose proof (IH (no_space_run_tail _ _ H)) as IH'. simpl.
  destruct (rstrip U s) as [|y r] eqn:E.
  - destruct (is_space U x); auto.
  - destruct (rstrip_hd _ _ _ E) as [s' ->].
    simpl in H. apply andb_true_iff in H. destruct H as [H _].
    change (negb ((x =? SPACE)%N && (y =? SPACE)%N) && no_space_run (y :: r) = true).
    now rewrite H, IH'.
Qed.

Lemma rstrip_first s : first_is_space s = false -> first_is_space (rstrip U s) = false.
Proof.
  destruct s as [|x s]; auto. simpl. intros H.
  destruct (rstrip U s); [destruct (is_space U x)|]; simpl; auto.
Qed.

Lemma rstrip_last s : last_is_space (rstrip U s) = false.
Proof.
  unfold last_is_space.
  induction s as [|x s IH]; auto. simpl.
  destruct (rstrip U s) as [|y r] eqn:E.
  - destruct (is_space U x) eqn:Sx; auto. simpl. now apply not_space_neq.
  - exact IH.
Qed.

Lemma strip_single_spaced s :
  no_space_run s = true -> single_spaced (strip U s) = true.
Proof.
  intros H. unfold single_spaced, strip.
  rewrite rstrip_first by apply lstrip_first.
  rewrite rstrip_last, rstrip_run by now apply lstrip_run.
  reflexivity.
Qed.

Lemma deep_clean_text_chars text c :
  In c (deep_clean_text U text) -> canonical_char U c = true.
Proof.
  unfold deep_clean_text. destruct (truthy text); simpl; [|tauto].
  intros H. apply strip_incl in H. unfold sub_spaces in H.
  unfold canonical_char.
  apply sub_spaces_from_inv in H. destruct H as [->|[H Sc]]; auto.
  rewrite Sc. simpl. rewrite andb_true_r.
  apply sub_special_inv in H. destruct H as [->|[H K]]; auto.
  apply remove_markers_incl, sub_brackets_from_incl, strip_incl in H.
  rewrite (lower_no_upper U HU _ _ H). simpl. rewrite andb_true_r.
  unfold kept in K. rewrite Sc, orb_false_r in K. rewrite K.
  apply orb_true_r.
Qed.

Lemma deep_clean_text_single_spaced text :
  single_spaced (deep_clean_text U text) = true.
Proof.
  unfold deep_clean_text. destruct (truthy text); simpl; auto.
  apply strip_single_spaced, sub_spaces_from_run.
Qed.

End CanonicalFacts.

(** *** The rows compute the edit distance *)

Section EditDistance.

Lemma neq_cost_sym x y : neq_cost x y = neq_cost y x.
Proof. unfold neq_cost. now rewrite N.eqb_sym. Qed.

Lemma neq_cost_le x y : neq_cost x y <= 1.
Proof. unfold neq_cost. destruct (x =? y)%N; lia. Qed.

Lemma edits_app a b n a' b' m :
  edits a b n -> edits a' b' m -> edits (a ++ a') (b ++ b') (n + m).
Proof.
  induction 1 as [|x a b n H IH|y a b n H IH|x y a b n H IH]; intros H'; simpl.
  - exact H'.
  - apply edits_delete, IH, H'.
  - apply edits_insert, IH, H'.
  - rewrite <- Nat.add_assoc. apply edits_subst, IH, H'.
Qed.

Lemma edits_snoc_delete a b n x : edits a b n -> edits (a ++ [x]) b (n + 1).
Proof.
  intros H. rewrite <- (app_nil_r b).
  apply edits_app; [exact H|]. apply edits_delete, edits_nil.
Qed.

Lemma edits_snoc_insert a b n y : edits a b n -> edits a (b ++ [y]) (n + 1).
Proof.
  intros H. rewrite <- (app_nil_r a).
  apply edits_app; [exact H|]. apply edits_insert, edits_nil.
Qed.

Lemma edits_snoc_subst a b n x y :
  edits a b n -> edits (a ++ [x]) (b ++ [y]) (n + neq_cost x y).
Proof.
  intros H. apply edits_app; [exact H|].
  rewrite <- (Nat.add_0_r (neq_cost x y)). apply edits_subst, edits_nil.
Qed.

Lemma edits_rev a b n : edits a b n -> edits (rev a) (rev b) n.
Proof.
  induction 1 as [|x a b n H IH|y a b n H IH|x y a b n H IH]; simpl.
  - apply edits_nil.
  - rewrite <- Nat.add_1_r. now apply edits_snoc_delete.
  - rewrite <- Nat.add_1_r. now apply edits_snoc_insert.
  - rewrite Nat.add_comm. now apply edits_snoc_subst.
Qed.

Lemma edits_sym a b n : edits a b n -> edits b a n.
Proof.
  induction 1 as [|x a b n H IH|y a b n H IH|x y a b n H IH].
  - apply edits_nil.
  - now apply edits_insert.
  - now apply edits_delete.
  - rewrite neq_cost_sym. now apply edits_subst.
Qed.

Lemma edits_length a b n :
  edits a b n -> length a <= length b + n /\ length b <= length a + n.
Proof. induction 1; simpl; lia. Qed.

Lemma edits_nil_l b : edits [] b (length b).
Proof. induction b; simpl; [apply edits_nil | now apply edits_insert]. Qed.

Lemma edits_nil_r a : edits a [] (length a).
Proof. induction a; simpl; [apply edits_nil | now apply edits_delete]. Qed.

Lemma edits_within_max a : forall b,
  exists n, edits a b n /\ n <= Nat.max (length a) (length b).
Proof.
  induction a as [|x a IH]; intros b.
  - exists (length b). split; [apply edits_nil_l | simpl; lia].
  - destruct b as [|y b].
    + exists (length (x :: a)). split; [apply edits_nil_r | simpl; lia].
    + destruct (IH b) as [n [H Hn]].
      exists (neq_cost x y + n). split; [now apply edits_subst|].
      pose proof (neq_cost_le x y). simpl. lia.
Qed.

Lemma edit_distance_nil_l b : edit_distance [] b (length b).
Proof.
  split; [apply edits_nil_l|]. intros n H. apply edits_length in H. simpl in H. lia.
Qed.

Lemma edit_distance_nil_r a : edit_distance a [] (length a).
Proof.
  split; [apply edits_nil_r|]. intros n H. apply edits_length in H. simpl in H. lia.
Qed.

Lemma edit_distance_unique a b d d' :
  edit_distance a b d -> edit_distance a b d' -> d = d'.
Proof.
  intros [H1 H2] [H3 H4]. apply H2 in H3. apply H4 in H1. lia.
Qed.

Lemma edit_distance_sym a b d : edit_distance a b d -> edit_distance b a d.
Proof.
  intros [H1 H2]. split; [now apply edits_sym|].
  intros n H. apply H2. now apply edits_sym.
Qed.

Lemma edit_distance_le_max a b d :
  edit_distance a b d -> d <= Nat.max (length a) (length b).
Proof.
  intros [_ H]. destruct (edits_within_max a b) as [n [Hn Hle]].
  apply H in Hn. lia.
Qed.

(** The recurrence of the table, on the last characters. *)
Lemma edit_distance_snoc a b x y d1 d2 d0 :
  edit_distance a (b ++ [y]) d1 ->
  edit_distance (a ++ [x]) b d2 ->
  edit_distance a b d0 ->
  edit_distance (a ++ [x]) (b ++ [y]) (min3 (d1 + 1) (d2 + 1) (d0 + neq_cost x y)).
Proof.
  intros [A1 M1] [A2 M2] [A0 M0]. split.
  - unfold min3.
    destruct (Nat.min_spec (d2 + 1) (d0 + neq_cost x y)) as [[_ ->]|[_ ->]];
      match goal with
      | |- context [Nat.min ?u ?v] =>
          destruct (Nat.min_spec u v) as [[_ ->]|[_ ->]]
      end;
      auto using edits_snoc_delete, edits_snoc_insert, edits_snoc_subst.
  - intros n H. apply edits_rev in H.
    rewrite !rev_app_distr in H. simpl in H.
    unfold min3.
    inversion H as [|x' a' b' n' H'|y' a' b' n' H'|x' y' a' b' n' H']; subst.
    + apply edits_rev in H'. simpl in H'. rewrite !rev_involutive in H'.
      apply M1 in H'. lia.
    + apply edits_rev in H'. simpl in H'. rewrite !rev_involutive in H'.
      apply M2 in H'. lia.
    + apply edits_rev in H'. rewrite !rev_involutive in H'.
      apply M0 in H'. lia.
Qed.

(** A row of the table: entry [j] is the distance between the prefix [p] of
    the first string and the first [j] characters of the second. *)
Definition row_ok (p s2 : pystr) (row : list nat) : Prop :=
  length row = length s2 + 1 /\
  forall j, j <= length s2 -> edit_distance p (firstn j s2) (nth j row 0).

Lemma firstn_app_exact (done rest : pystr) : firstn (length done) (done ++ rest) = done.
Proof. induction done; simpl; [now destruct rest | now f_equal]. Qed.

Lemma firstn_app_succ (done rest : pystr) c :
  firstn (S (length done)) (done ++ c :: rest) = done ++ [c].
Proof. induction done; simpl; [reflexivity | now f_equal]. Qed.

Lemma inner_loop_ok p c1 s2 prev :
  row_ok p s2 prev ->
  forall rest done cur,
    s2 = done ++ rest ->
    length cur = length done + 1 ->
    (forall k, k <= length done ->
               edit_distance (p ++ [c1]) (firstn k s2) (nth k cur 0)) ->
    row_ok (p ++ [c1]) s2 (inner_loop prev c1 (length done) rest cur).
Proof.
  intros [Lp Hp]. induction rest as [|c2 rest IH]; intros done cur E Lc Hc.
  - rewrite app_nil_r in E. subst done. simpl. split; assumption.
  - simpl.
    replace (S (length done)) with (length (done ++ [c2]))
      by (rewrite length_app; simpl; lia).
    apply IH.
    + rewrite <- app_assoc. exact E.
    + rewrite !length_app. simpl. lia.
    + intros k Hk. rewrite length_app in Hk. simpl in Hk.
      destruct (Nat.eq_dec k (length done + 1)) as [->|Hne].
      * rewrite app_nth2 by lia. rewrite Lc, Nat.sub_diag. simpl.
        assert (Hlen : length done + 1 <= length s2)
          by (rewrite E, length_app; simpl; lia).
        assert (F1 : firstn (length done + 1) s2 = done ++ [c2])
          by (rewrite E, Nat.add_1_r; apply firstn_app_succ).
        assert (F0 : firstn (length done) s2 = done)
          by (rewrite E; apply firstn_app_exact).
        pose proof (Hp (length done + 1) Hlen) as H1.
        pose proof (Hp (length done) ltac:(lia)) as H0.
        pose proof (Hc (length done) (le_n _)) as H2.
        rewrite F1 in H1 |- *. rewrite F0 in H0, H2.
        apply edit_distance_snoc; assumption.
      * rewrite app_nth1 by lia. apply Hc. lia.
Qed.

Lemma outer_loop_ok s2 :
  forall rest p prev,
    row_ok p s2 prev ->
    row_ok (p ++ rest) s2 (outer_loop s2 (length p) rest prev).
Proof.
  induction rest as [|c1 rest IH]; intros p prev H.
  - rewrite app_nil_r. exact H.
  - simpl.
    replace (p ++ c1 :: rest) with ((p ++ [c1]) ++ rest)
      by (rewrite <- app_assoc; reflexivity).
    replace (S (length p)) with (length (p ++ [c1]))
      by (rewrite length_app; simpl; lia).
    apply IH.
    apply (inner_loop_ok p c1 s2 prev H s2 [] [length p + 1]); auto.
    intros k Hk. simpl in Hk. replace k with 0 by lia. simpl.
    replace (length p + 1) with (length (p ++ [c1]))
      by (rewrite length_app; simpl; lia).
    apply edit_distance_nil_r.
Qed.

Lemma first_row_ok s2 : row_ok [] s2 (seq 0 (length s2 + 1)).
Proof.
  split; [apply length_seq|].
  intros j Hj. rewrite seq_nth by lia. simpl.
  replace j with (length (firstn j s2)) at 2
    by (rewrite length_firstn; lia).
  apply edit_distance_nil_l.
Qed.

Lemma last_is_nth (l : list nat) n : length l = n + 1 -> last l 0 = nth n l 0.
Proof.
  revert n. induction l as [|x l IH]; intros n H; simpl in H; [lia|].
  destruct l as [|y l].
  - simpl in H. now replace n with 0 by lia.
  - destruct n as [|n]; [simpl in H; lia|].
    change (last (y :: l) 0 = nth n (y :: l) 0). apply IH. simpl in *. lia.
Qed.

Lemma levenshtein_rows_ok s1 s2 : edit_distance s1 s2 (levenshtein_rows s1 s2).
Proof.
  unfold levenshtein_rows. destruct (length s2 =? 0) eqn:E.
  - apply Nat.eqb_eq in E. destruct s2; [|discriminate].
    apply edit_distance_nil_r.
  - destruct (outer_loop_ok s2 s1 [] _ (first_row_ok s2)) as [L H]. simpl in L, H.
    rewrite (last_is_nth _ _ L).
    specialize (H (length s2) (le_n _)). now rewrite firstn_all in H.
Qed.

Lemma levenshtein_distance_ok s1 s2 :
  edit_distance s1 s2 (levenshtein_distance s1 s2).
Proof.
  unfold levenshtein_distance. destruct (length s1 <? length s2).
  - apply edit_distance_sym, levenshtein_rows_ok.
  - apply levenshtein_rows_ok.
Qed.

Lemma levenshtein_distance_sym s1 s2 :
  levenshtein_distance s1 s2 = levenshtein_distance s2 s1.
Proof.
  apply (edit_distance_unique s1 s2); [apply levenshtein_distance_ok|].
  apply edit_distance_sym, levenshtein_distance_ok.
Qed.

End EditDistance.

(** ** Binary64 arithmetic on the unit interval *)

Module Binary64.

Local Open Scope Z_scope.

Lemma iter_pos_nat (A : Type) (f : A -> A) (p : positive) :
  forall x, iter_pos f p x = Nat.iter (Pos.to_nat p) f x.
Proof.
  induction p as [p IH|p IH|]; intros x; cbn [iter_pos].
  - rewrite !IH, Pos2Nat.inj_xI, Nat.iter_succ_r.
    replace (2 * Pos.to_nat p)%nat with (Pos.to_nat p + Pos.to_nat p)%nat by lia.
    now rewrite Nat.iter_add.
  - rewrite !IH, Pos2Nat.inj_xO.
    replace (2 * Pos.to_nat p)%nat with (Pos.to_nat p + Pos.to_nat p)%nat by lia.
    now rewrite Nat.iter_add.
  - reflexivity.
Qed.

Lemma shr_1_spec mrs :
  0 <= shr_m mrs ->
  shr_m (shr_1 mrs) = shr_m mrs / 2
  /\ shr_r (shr_1 mrs) = Z.odd (shr_m mrs)
  /\ shr_s (shr_1 mrs) = shr_r mrs || shr_s mrs.
Proof.
  destruct mrs as [m r s]. simpl. intros Hm.
  destruct m as [|p|p]; [auto| |lia].
  destruct p as [p|p|]; simpl; repeat split.
  - apply Z.div_unique with (r := 1); lia.
  - apply Z.div_unique with (r := 0); lia.
Qed.

Lemma shr_iter_spec n m r s :
  0 <= m ->
  let res := Nat.iter n shr_1 (Build_shr_record m r s) in
  shr_m res = m / 2 ^ Z.of_nat n
  /\ (r = false -> s = false -> m mod 2 ^ Z.of_nat n = 0 ->
      shr_r res = false /\ shr_s res = false).
Proof.
  intros Hm. induction n as [|n IH].
  - simpl. split; [now rewrite Z.div_1_r | intros; subst; auto].
  - rewrite Nat.iter_succ. cbv zeta in IH |- *.
    destruct IH as [IHm IHx].
    set (res := Nat.iter n shr_1 (Build_shr_record m r s)) in *.
    assert (Hp : 0 < 2 ^ Z.of_nat n) by (apply Z.pow_pos_nonneg; lia).
    assert (Hres : 0 <= shr_m res)
      by (rewrite IHm; apply Z.div_pos; lia).
    destruct (shr_1_spec res Hres) as [E1 [E2 E3]].
    rewrite Nat2Z.inj_succ, Z.pow_succ_r by lia.
    split.
    + rewrite E1, IHm, Z.div_div by lia. f_equal. lia.
    + intros Hr Hs Hmod.
      assert (Hdiv : exists k, m = k * (2 * 2 ^ Z.of_nat n)).
      { exists (m / (2 * 2 ^ Z.of_nat n)).
        rewrite (Z.div_mod m (2 * 2 ^ Z.of_nat n)) at 1 by lia.
        rewrite Hmod. lia. }
      destruct Hdiv as [k Hk].
      assert (Hmod' : m mod 2 ^ Z.of_nat n = 0).
      { rewrite Hk. replace (k * (2 * 2 ^ Z.of_nat n)) with ((k * 2) * 2 ^ Z.of_nat n) by lia.
        apply Z.mod_mul. lia. }
      destruct (IHx Hr Hs Hmod') as [Rr Rs].
      rewrite E2, E3, Rr, Rs, IHm. split; [|reflexivity].
      rewrite Hk. replace (k * (2 * 2 ^ Z.of_nat n)) with ((k * 2) * 2 ^ Z.of_nat n) by lia.
      rewrite Z.div_mul by lia. rewrite Z.odd_mul. simpl. apply andb_false_r.
Qed.

Lemma loc_of_record_of_loc m l : loc_of_shr_record (shr_record_of_loc m l) = l.
Proof. destruct l as [|[]]; reflexivity. Qed.

Lemma shr_m_record_of_loc m l : shr_m (shr_record_of_loc m l) = m.
Proof. destruct l as [|[]]; reflexivity. Qed.

(** A right shift by [n > 0] divides the mantissa by [2^n]; an exact
    multiple of [2^n] stays exact. *)
Lemma shr_pos_spec m l e n :
  0 <= m -> 0 < n ->
  let res := shr (shr_record_of_loc m l) e n in
  snd res = e + n
  /\ shr_m (fst res) = m / 2 ^ n
  /\ (l = loc_Exact -> m mod 2 ^ n = 0 -> loc_of_shr_record (fst res) = loc_Exact).
Proof.
  intros Hm Hn. destruct n as [|p|p]; try lia. simpl.
  rewrite iter_pos_nat.
  assert (G : forall r s,
             shr_m (Nat.iter (Pos.to_nat p) shr_1 (Build_shr_record m r s)) = m / Z.pow_pos 2 p
             /\ (r = false -> s = false -> m mod Z.pow_pos 2 p = 0 ->
                 loc_of_shr_record (Nat.iter (Pos.to_nat p) shr_1 (Build_shr_record m r s))
                 = loc_Exact)).
  { intros r s. destruct (shr_iter_spec (Pos.to_nat p) m r s Hm) as [H1 H2].
    rewrite positive_nat_Z in H1, H2. change (2 ^ Z.pos p) with (Z.pow_pos 2 p) in H1, H2.
    split; [exact H1|]. intros Hr Hs Hmod. destruct (H2 Hr Hs Hmod) as [Rr Rs].
    destruct (Nat.iter (Pos.to_nat p) shr_1 _) as [m' r' s']. simpl in *. now subst. }
  split; [reflexivity|].
  destruct l as [|[]]; simpl shr_record_of_loc;
    (split; [apply G | intros Hl Hmod; try discriminate; now apply G]).
Qed.

Lemma shr_nonpos_spec mrs e n : n <= 0 -> shr mrs e n = (mrs, e).
Proof. destruct n; simpl; auto; lia. Qed.

Lemma digits2_pos_bounds p :
  2 ^ (Z.pos (digits2_pos p) - 1) <= Z.pos p < 2 ^ Z.pos (digits2_pos p).
Proof.
  induction p as [p IH|p IH|]; simpl digits2_pos.
  - rewrite Pos2Z.inj_succ.
    replace (Z.succ (Z.pos (digits2_pos p)) - 1) with (Z.succ (Z.pos (digits2_pos p) - 1)) by lia.
    rewrite !Z.pow_succ_r by lia. lia.
  - rewrite Pos2Z.inj_succ.
    replace (Z.succ (Z.pos (digits2_pos p)) - 1) with (Z.succ (Z.pos (digits2_pos p) - 1)) by lia.
    rewrite !Z.pow_succ_r by lia. lia.
  - simpl. lia.
Qed.

Lemma Zdigits2_le m k : 0 <= k -> 0 <= m <= 2 ^ k -> Zdigits2 m <= k + 1.
Proof.
  intros Hk [H0 Hm]. destruct m as [|p|p]; simpl; try lia.
  destruct (digits2_pos_bounds p) as [Hlo _].
  assert (H : 2 ^ (Z.pos (digits2_pos p) - 1) <= 2 ^ k) by lia.
  apply Z.pow_le_mono_r_iff in H; lia.
Qed.

Lemma fexp_eq e : fexp prec emax e = Z.max (e - 53) (-1074).
Proof. reflexivity. Qed.


(** Spec floats in the unit interval: zero, or [m * 2^e] with [e <= -52] and
    [m <= 2^-e]. *)
Definition unit_float (x : spec_float) : Prop :=
  x = S754_zero false
  \/ exists m e, x = S754_finite false m e /\ e <= -52 /\ Z.pos m <= 2 ^ (- e).

(** Non-negative numbers, the infinity included. *)
Definition pos_float (x : spec_float) : Prop :=
  x = S754_zero false \/ (exists m e, x = S754_finite false m e)
  \/ x = S754_infinity false.

(** A truncated mantissa with its location that stands for a number of the
    unit interval. *)
Definition below_one (m e : Z) (l : location) : Prop :=
  e <= -52 /\ 0 <= m /\ (m < 2 ^ (- e) \/ (m = 2 ^ (- e) /\ l = loc_Exact)).

Lemma shr_fexp_below_one m e l :
  below_one m e l ->
  below_one (shr_m (fst (shr_fexp prec emax m e l)))
            (snd (shr_fexp prec emax m e l))
            (loc_of_shr_record (fst (shr_fexp prec emax m e l))).
Proof.
  intros (He & Hm & Hb). unfold shr_fexp.
  set (n := fexp prec emax (Zdigits2 m + e) - e).
  destruct (Z_lt_le_dec 0 n) as [Hn|Hn].
  - destruct (shr_pos_spec m l e n Hm Hn) as (E1 & E2 & E3).
    rewrite E1, E2.
    assert (Hd : Zdigits2 m <= - e + 1) by (apply Zdigits2_le; lia).
    assert (He' : e + n <= -52) by (unfold n; rewrite fexp_eq; lia).
    assert (Hpow : 2 ^ (- e) = 2 ^ (- (e + n)) * 2 ^ n)
      by (rewrite <- Z.pow_add_r by lia; f_equal; lia).
    assert (Hpn : 0 < 2 ^ n) by (apply Z.pow_pos_nonneg; lia).
    split; [exact He'|]. split; [apply Z.div_pos; lia|].
    destruct Hb as [Hlt|[Heq Hl]].
    + left. apply Z.div_lt_upper_bound; lia.
    + right. split.
      * rewrite Heq, Hpow. apply Z.div_mul; lia.
      * apply E3; [exact Hl|]. rewrite Heq, Hpow. apply Z.mod_mul. lia.
  - rewrite shr_nonpos_spec by exact Hn. simpl.
    rewrite shr_m_record_of_loc, loc_of_record_of_loc. repeat split; auto.
Qed.

Lemma round_below_one m e l :
  below_one m e l -> below_one (round_nearest_even m l) e loc_Exact.
Proof.
  intros (He & Hm & Hb). repeat split; [exact He| |].
  - destruct l as [|[]]; simpl; try destruct (Z.even m); lia.
  - destruct Hb as [Hlt|[Heq ->]]; [|right; auto].
    assert (round_nearest_even m l <= m + 1)
      by (destruct l as [|[]]; simpl; try destruct (Z.even m); lia).
    destruct (Z.eq_dec (round_nearest_even m l) (2 ^ (- e))); [right; auto | left; lia].
Qed.

Lemma binary_round_aux_unit m e l :
  below_one m e l -> unit_float (binary_round_aux prec emax false m e l).
Proof.
  intros H. unfold binary_round_aux.
  pose proof (shr_fexp_below_one m e l H) as H1.
  destruct (shr_fexp prec emax m e l) as [mrs1 e1]. simpl in H1.
  apply round_below_one in H1.
  pose proof (shr_fexp_below_one _ _ _ H1) as H2.
  destruct (shr_fexp prec emax _ e1 loc_Exact) as [mrs2 e2]. simpl in H2.
  destruct H2 as (He & Hm & Hb).
  destruct (shr_m mrs2) as [|p|p]; [left; reflexivity| |lia].
  replace (e2 <=? emax - prec) with true
    by (symmetry; apply Z.leb_le; unfold emax, prec; lia).
  right. exists p, e2. repeat split; auto. lia.
Qed.

Lemma shr_fexp_nonneg m e l :
  0 <= m -> 0 <= shr_m (fst (shr_fexp prec emax m e l)).
Proof.
  intros Hm. unfold shr_fexp.
  set (n := fexp prec emax (Zdigits2 m + e) - e).
  destruct (Z_lt_le_dec 0 n) as [Hn|Hn].
  - destruct (shr_pos_spec m l e n Hm Hn) as (_ & E2 & _).
    rewrite E2. apply Z.div_pos; [lia|]. apply Z.pow_pos_nonneg; lia.
  - rewrite shr_nonpos_spec by exact Hn. simpl. now rewrite shr_m_record_of_loc.
Qed.

Lemma binary_round_aux_pos m e l :
  0 <= m -> pos_float (binary_round_aux prec emax false m e l).
Proof.
  intros Hm. unfold binary_round_aux.
  pose proof (shr_fexp_nonneg m e l Hm) as H1.
  destruct (shr_fexp prec emax m e l) as [mrs1 e1]. simpl in H1.
  assert (H1' : 0 <= round_nearest_even (shr_m mrs1) (loc_of_shr_record mrs1))
    by (destruct (loc_of_shr_record mrs1) as [|[]]; simpl;
        try destruct (Z.even (shr_m mrs1)); lia).
  pose proof (shr_fexp_nonneg _ e1 loc_Exact H1') as H2.
  destruct (shr_fexp prec emax _ e1 loc_Exact) as [mrs2 e2]. simpl in H2.
  destruct (shr_m mrs2) as [|p|p]; [left; reflexivity| |lia].
  destruct (e2 <=? emax - prec); right; [left; eauto | right; reflexivity].
Qed.

Lemma iter_xO_spec mx k :
  Z.pos (nat_rect (fun _ => positive) mx (fun _ => xO) k) = Z.pos mx * 2 ^ Z.of_nat k.
Proof.
  induction k as [|k IH].
  - simpl. lia.
  - rewrite Nat2Z.inj_succ, Z.pow_succ_r by lia.
    cbn [nat_rect]. rewrite Pos2Z.inj_xO, IH. lia.
Qed.

Lemma shl_align_spec mx ex ex' :
  let res := shl_align mx ex ex' in
  snd res = Z.min ex ex' /\ Z.pos (fst res) = Z.pos mx * 2 ^ (ex - snd res).
Proof.
  unfold shl_align. destruct (ex' - ex) as [|d|d] eqn:E; simpl.
  - split; [lia|]. replace (ex - ex) with 0 by lia. simpl. lia.
  - split; [lia|]. replace (ex - ex) with 0 by lia. simpl. lia.
  - split; [lia|]. replace (ex - ex') with (Z.pos d) by lia.
    rewrite Pos2Nat.inj_iter, iter_xO_spec, positive_nat_Z. reflexivity.
Qed.

Lemma binary_round_unit m e :
  e <= -52 -> Z.pos m < 2 ^ (- e) -> unit_float (binary_round prec emax false m e).
Proof.
  intros He Hm. unfold binary_round.
  pose proof (shl_align_spec m e (fexp prec emax (Z.pos (digits2_pos m) + e))) as [E1 E2].
  destruct (shl_align m e _) as [mz ez]. cbn [fst snd] in E1, E2.
  apply binary_round_aux_unit. repeat split; try lia.
  left. rewrite E2.
  replace (2 ^ (- ez)) with (2 ^ (- e) * 2 ^ (e - ez))
    by (rewrite <- Z.pow_add_r by lia; f_equal; lia).
  apply Zmult_lt_compat_r; [apply Z.pow_pos_nonneg; lia | exact Hm].
Qed.


Lemma digits2_pos_unique p d :
  2 ^ (d - 1) <= Z.pos p < 2 ^ d -> Z.pos (digits2_pos p) = d.
Proof.
  intros [Hlo Hhi]. destruct (digits2_pos_bounds p) as [Blo Bhi].
  assert (0 < d).
  { destruct (Z_lt_le_dec 0 d); auto.
    assert (2 ^ d <= 2 ^ 0) by (apply Z.pow_le_mono_r; lia).
    simpl in *. lia. }
  assert (H1 : 2 ^ (d - 1) < 2 ^ Z.pos (digits2_pos p)) by lia.
  assert (H2 : 2 ^ (Z.pos (digits2_pos p) - 1) < 2 ^ d) by lia.
  apply Z.pow_lt_mono_r_iff in H1; try lia.
  apply Z.pow_lt_mono_r_iff in H2; lia.
Qed.

(** The binary64 number 1. *)
Definition SFone64 : spec_float := S754_finite false 4503599627370496 (-52).
Definition SFtwo64 : spec_float := S754_finite false 4503599627370496 (-51).

(** A normal number is left as it is by the rounding. *)
Lemma binary_round_aux_normal m e :
  Z.pos (digits2_pos m) = 53 -> -1074 <= e <= 971 ->
  binary_round_aux prec emax false (Z.pos m) e loc_Exact = S754_finite false m e.
Proof.
  intros Hd He. unfold binary_round_aux, shr_fexp. cbn [Zdigits2]. rewrite Hd.
  assert (E : fexp prec emax (53 + e) - e = 0) by (rewrite fexp_eq; lia).
  rewrite E.
  cbn [shr shr_record_of_loc shr_m loc_of_shr_record round_nearest_even Zdigits2].
  rewrite Hd, E.
  cbn [shr shr_record_of_loc shr_m].
  replace (e <=? emax - prec) with true
    by (symmetry; apply Z.leb_le; unfold emax, prec; lia).
  reflexivity.
Qed.

(** An integer below [2^53] is a binary64 number: it is converted exactly. *)
Lemma binary_normalize_int n :
  0 < n < 2 ^ 53 ->
  exists m e,
    binary_normalize prec emax n 0 false = S754_finite false m e
    /\ -52 <= e <= 0 /\ Z.pos m = n * 2 ^ (- e).
Proof.
  intros [Hlo Hhi]. destruct n as [|p|p]; try lia.
  unfold binary_normalize, binary_round.
  destruct (digits2_pos_bounds p) as [Blo Bhi].
  set (d := Z.pos (digits2_pos p)) in *.
  assert (Hd : 1 <= d <= 53).
  { split; [unfold d; lia|].
    destruct (Z_lt_le_dec 53 d); [|lia].
    assert (2 ^ 53 <= 2 ^ (d - 1)) by (apply Z.pow_le_mono_r; lia). lia. }
  pose proof (shl_align_spec p 0 (fexp prec emax (d + 0))) as [E1 E2].
  destruct (shl_align p 0 _) as [mz ez]. cbn [fst snd] in E1, E2.
  rewrite fexp_eq in E1.
  assert (Hez : ez = d - 53) by lia.
  exists mz, ez. split; [|split; [lia | rewrite E2; f_equal; f_equal; lia]].
  apply binary_round_aux_normal; [|lia].
  apply digits2_pos_unique. rewrite E2.
  replace (0 - ez) with (53 - d) by lia.
  replace (2 ^ (53 - 1)) with (2 ^ (d - 1) * 2 ^ (53 - d))
    by (rewrite <- Z.pow_add_r by lia; f_equal; lia).
  replace (2 ^ 53) with (2 ^ d * 2 ^ (53 - d))
    by (rewrite <- Z.pow_add_r by lia; f_equal; lia).
  assert (0 < 2 ^ (53 - d)) by (apply Z.pow_pos_nonneg; lia).
  split; [apply Z.mul_le_mono_nonneg_r; lia | apply Zmult_lt_compat_r; lia].
Qed.

(** The quotient of two positive numbers, the first not above the second,
    lies in the unit interval. *)
Lemma SFdiv_unit mx ex my ey :
  ex <= 0 -> ey <= 0 ->
  Z.pos mx * 2 ^ (- ey) <= Z.pos my * 2 ^ (- ex) ->
  unit_float (SFdiv prec emax (S754_finite false mx ex) (S754_finite false my ey)).
Proof.
  intros Hex Hey Hle. unfold SFdiv, SFdiv_core_binary. simpl Zdigits2.
  destruct (digits2_pos_bounds mx) as [Xlo Xhi].
  destruct (digits2_pos_bounds my) as [Ylo Yhi].
  set (d1 := Z.pos (digits2_pos mx)) in *.
  set (d2 := Z.pos (digits2_pos my)) in *.
  assert (Hd1 : 1 <= d1) by (unfold d1; lia).
  assert (Hd2 : 1 <= d2) by (unfold d2; lia).
  assert (Hdd : d1 + ex - (d2 + ey) <= 0).
  { assert (A : 2 ^ (d1 - 1) * 2 ^ (- ey) <= Z.pos mx * 2 ^ (- ey))
      by (apply Z.mul_le_mono_nonneg_r; [apply Z.pow_nonneg|]; lia).
    assert (B : Z.pos my * 2 ^ (- ex) < 2 ^ d2 * 2 ^ (- ex))
      by (apply Zmult_lt_compat_r; [apply Z.pow_pos_nonneg|]; lia).
    rewrite <- Z.pow_add_r in A, B by lia.
    assert (C : 2 ^ (d1 - 1 + - ey) < 2 ^ (d2 + - ex)) by lia.
    apply Z.pow_lt_mono_r_iff in C; lia. }
  set (e' := Z.min (fexp prec emax (d1 + ex - (d2 + ey))) (ex - ey)).
  assert (He' : e' <= -53) by (unfold e'; rewrite fexp_eq; lia).
  set (s := ex - ey - e').
  assert (Hs : 0 <= s) by (unfold s, e'; lia).
  set (m' := match s with Z.pos _ => Z.shiftl (Z.pos mx) s | 0 => Z.pos mx | Z.neg _ => 0 end).
  assert (Hm' : m' = Z.pos mx * 2 ^ s).
  { unfold m'. destruct s as [|p|p] eqn:Es; try lia.
    apply Z.shiftl_mul_pow2. lia. }
  pose proof (Z_div_mod m' (Z.pos my) ltac:(lia)) as Hdm.
  destruct (Z.div_eucl m' (Z.pos my)) as [q r]. destruct Hdm as [Hq Hr].
  simpl xorb. apply binary_round_aux_unit.
  assert (Hm'0 : 0 <= m') by (rewrite Hm'; apply Z.mul_nonneg_nonneg; [lia | apply Z.pow_nonneg; lia]).
  assert (Hq0 : 0 <= q) by nia.
  assert (Hbound : m' <= Z.pos my * 2 ^ (- e')).
  { assert (P : 0 < 2 ^ (- ex)) by (apply Z.pow_pos_nonneg; lia).
    assert (Q : m' * 2 ^ (- ex) = Z.pos mx * 2 ^ (- ey) * 2 ^ (- e')).
    { rewrite Hm', <- !Z.mul_assoc, <- !Z.pow_add_r by lia. do 2 f_equal. unfold s. lia. }
    assert (R : Z.pos mx * 2 ^ (- ey) * 2 ^ (- e') <= Z.pos my * 2 ^ (- ex) * 2 ^ (- e'))
      by (apply Z.mul_le_mono_nonneg_r; [apply Z.pow_nonneg; lia | exact Hle]).
    nia. }
  assert (P' : 0 < 2 ^ (- e')) by (apply Z.pow_pos_nonneg; lia).
  repeat split; [lia | exact Hq0 |].
  destruct (Z_lt_le_dec q (2 ^ (- e'))) as [Hlt|Hge]; [left; exact Hlt|].
  right. assert (q = 2 ^ (- e') /\ r = 0) as [-> ->] by nia.
  split; [reflexivity|].
  unfold new_location, new_location_even, new_location_odd.
  destruct (Z.even (Z.pos my)); reflexivity.
Qed.

Lemma SFsub_one_unit u : unit_float u -> unit_float (SFsub prec emax SFone64 u).
Proof.
  intros [->|(m & e & -> & He & Hm)].
  - right. exists 4503599627370496%positive, (-52). repeat split; simpl; lia.
  - unfold SFsub, SFone64.
    replace (Z.min (-52) e) with e by lia.
    pose proof (shl_align_spec 4503599627370496 (-52) e) as [A1 A2].
    pose proof (shl_align_spec m e e) as [B1 B2].
    destruct (shl_align 4503599627370496 (-52) e) as [ma ea].
    destruct (shl_align m e e) as [mb eb]. cbn [fst snd] in *.
    unfold cond_Zopp.
    assert (EA : Z.pos ma = 2 ^ (- e)).
    { rewrite A2. change (Z.pos 4503599627370496) with (2 ^ 52).
      rewrite <- Z.pow_add_r by lia. f_equal. lia. }
    assert (EB : Z.pos mb = Z.pos m).
    { rewrite B2. replace (e - eb) with 0 by lia. simpl. lia. }
    destruct (Z.pos ma - Z.pos mb) as [|p|p] eqn:D; simpl binary_normalize.
    + left. reflexivity.
    + apply binary_round_unit; lia.
    + lia.
Qed.

Lemma SFleb_finite m1 e1 m2 e2 :
  e1 < e2 \/ (e1 = e2 /\ Z.pos m1 <= Z.pos m2) ->
  SFleb (S754_finite false m1 e1) (S754_finite false m2 e2) = true.
Proof.
  intros H. unfold SFleb, SFcompare.
  destruct (Z.compare_spec e1 e2) as [E|L|G]; [|reflexivity|lia].
  destruct H as [H|[_ H]]; [lia|].
  pose proof (Pos.compare_spec m1 m2) as C. unfold Pos.compare in C.
  destruct C as [_|_|C]; [reflexivity | reflexivity | lia].
Qed.

Lemma unit_float_range u :
  unit_float u -> SFleb (S754_zero false) u = true /\ SFleb u SFone64 = true.
Proof.
  intros [->|(m & e & -> & He & Hm)].
  - split; reflexivity.
  - split; [reflexivity|].
    apply SFleb_finite.
    assert (E52 : 2 ^ (- -52) = 4503599627370496) by (vm_compute; reflexivity).
    destruct (Z.eq_dec e (-52)) as [->|Hne]; [right | left; lia].
    rewrite E52 in Hm. split; [reflexivity | exact Hm].
Qed.

Lemma unit_float_pos u : unit_float u -> pos_float u.
Proof.
  intros [->|(m & e & -> & _)]; [left; reflexivity | right; left; eauto].
Qed.


Lemma SFdiv_pos mx ex my ey :
  pos_float (SFdiv prec emax (S754_finite false mx ex) (S754_finite false my ey)).
Proof.
  unfold SFdiv, SFdiv_core_binary.
  set (e' := Z.min _ _). set (s := ex - ey - e').
  set (m' := match s with Z.pos _ => Z.shiftl (Z.pos mx) s | 0 => Z.pos mx | Z.neg _ => 0 end).
  assert (Hm' : 0 <= m').
  { unfold m'. destruct s as [|p|p]; try lia. apply Z.shiftl_nonneg. lia. }
  pose proof (Z_div_mod m' (Z.pos my) ltac:(lia)) as Hdm.
  destruct (Z.div_eucl m' (Z.pos my)) as [q r]. destruct Hdm as [Hq Hr].
  simpl xorb. apply binary_round_aux_pos. nia.
Qed.

Lemma SFdiv_pos_finite p my ey :
  pos_float p -> pos_float (SFdiv prec emax p (S754_finite false my ey)).
Proof.
  intros [->|[(m & e & ->)| ->]].
  - left. reflexivity.
  - apply SFdiv_pos.
  - right. right. reflexivity.
Qed.

Lemma SFadd_unit_pos a t :
  unit_float a -> unit_float t -> pos_float (SFadd prec emax a t).
Proof.
  intros [->|(ma & ea & -> & _)] [->|(mt & et & -> & _)].
  - left. reflexivity.
  - right. left. exists mt, et. reflexivity.
  - right. left. exists ma, ea. reflexivity.
  - unfold SFadd, cond_Zopp.
    destruct (shl_align ma ea (Z.min ea et)) as [m1 e1].
    destruct (shl_align mt et (Z.min ea et)) as [m2 e2]. cbn [fst].
    change (Z.pos m1 + Z.pos m2) with (Z.pos (m1 + m2)).
    unfold binary_normalize, binary_round.
    destruct (shl_align (m1 + m2) _ _) as [mz ez].
    apply binary_round_aux_pos. lia.
Qed.

(** Comparisons of spec floats follow a lexical order; the two facts the
    scan of the best score needs. *)
Ltac compare_cases :=
  repeat match goal with
         | H : context [Z.compare ?a ?b] |- _ => destruct (Z.compare_spec a b)
         | |- context [Z.compare ?a ?b] => destruct (Z.compare_spec a b)
         | H : context [Pos.compare_cont Eq ?a ?b] |- _ =>
             let C := fresh "C" in
             pose proof (Pos.compare_spec a b) as C; unfold Pos.compare in C; destruct C
         | |- context [Pos.compare_cont Eq ?a ?b] =>
             let C := fresh "C" in
             pose proof (Pos.compare_spec a b) as C; unfold Pos.compare in C; destruct C
         end.

Lemma SFltb_trans x y z :
  SFltb x y = true -> SFltb y z = true -> SFltb x z = true.
Proof.
  unfold SFltb, SFcompare.
  destruct x as [sx|sx| |sx mx ex], y as [sy|sy| |sy my ey], z as [sz|sz| |sz mz ez];
    try destruct sx; try destruct sy; try destruct sz;
    try discriminate; try reflexivity;
    intros H1 H2; compare_cases; simpl in *;
    try discriminate; try reflexivity; lia.
Qed.

Lemma SFltb_le_trans c b s :
  SFltb c s = true -> SFltb b s = false -> b <> S754_nan -> SFltb c b = true.
Proof.
  unfold SFltb, SFcompare.
  destruct c as [sc|sc| |sc mc ec], b as [sb|sb| |sb mb eb], s as [ss|ss| |ss ms es];
    try destruct sc; try destruct sb; try destruct ss;
    try discriminate; try reflexivity; try congruence;
    intros H1 H2 H3; compare_cases; simpl in *;
    try discriminate; try reflexivity; try congruence; lia.
Qed.

End Binary64.

(** ** The similarity as a binary64 number *)

(** Strings short enough for their length to be a binary64 integer. *)
Definition short (s : pystr) : Prop := (Z.of_nat (length s) < 2 ^ 53)%Z.

Section SimilarityFacts.

Import Binary64.

Lemma float_of_nat_SF n :
  (Z.of_nat n < 2 ^ 53)%Z ->
  Prim2SF (float_of_nat n) = binary_normalize prec emax (Z.of_nat n) 0 false.
Proof.
  intros H. unfold float_of_nat. rewrite FloatAxioms.of_uint63_spec, Uint63.of_Z_spec.
  rewrite Z.mod_small; [reflexivity|].
  assert (2 ^ 53 < wB)%Z by reflexivity. lia.
Qed.

Lemma ratio_unit d m :
  d <= m -> 0 < m -> (Z.of_nat m < 2 ^ 53)%Z ->
  unit_float (Prim2SF (float_of_nat d / float_of_nat m)).
Proof.
  intros Hdm Hm Hs. rewrite FloatAxioms.div_spec, !float_of_nat_SF by lia.
  destruct (binary_normalize_int (Z.of_nat m) ltac:(lia)) as (my & ey & -> & Hey & Hmy).
  destruct (Nat.eq_dec d 0) as [->|Hd].
  - left. reflexivity.
  - destruct (binary_normalize_int (Z.of_nat d) ltac:(lia)) as (mx & ex & -> & Hex & Hmx).
    apply SFdiv_unit; try lia.
    rewrite Hmx, Hmy.
    assert (0 < 2 ^ (- ex))%Z by (apply Z.pow_pos_nonneg; lia).
    assert (0 < 2 ^ (- ey))%Z by (apply Z.pow_pos_nonneg; lia).
    nia.
Qed.

Lemma one_SF : Prim2SF 1 = SFone64.
Proof. vm_compute. reflexivity. Qed.

Lemma zero_SF : Prim2SF 0 = S754_zero false.
Proof. vm_compute. reflexivity. Qed.

Lemma two_SF : Prim2SF 2 = SFtwo64.
Proof. vm_compute. reflexivity. Qed.

Lemma unit_float_one : unit_float SFone64.
Proof.
  right. exists 4503599627370496%positive, (-52)%Z.
  split; [reflexivity|]. split; [lia|]. vm_compute. discriminate.
Qed.

Lemma one_minus_ratio_unit d m :
  d <= m -> 0 < m -> (Z.of_nat m < 2 ^ 53)%Z ->
  unit_float (Prim2SF (1 - float_of_nat d / float_of_nat m)).
Proof.
  intros Hdm Hm Hs. rewrite FloatAxioms.sub_spec, one_SF.
  apply SFsub_one_unit, ratio_unit; assumption.
Qed.

Lemma truthy_length s : truthy s = true -> 0 < length s.
Proof. destruct s; simpl; [discriminate | lia]. Qed.

(** The score of two short strings is a number of the unit interval. *)
Lemma calculate_similarity_unit a b :
  short a -> short b -> unit_float (Prim2SF (calculate_similarity a b)).
Proof.
  intros Ha Hb. unfold calculate_similarity.
  destruct (truthy a) eqn:Ta; cbn [negb orb]; [|rewrite zero_SF; left; reflexivity].
  destruct (truthy b) eqn:Tb; cbn [negb orb]; [|rewrite zero_SF; left; reflexivity].
  destruct (pystr_eqb a b); [rewrite one_SF; apply unit_float_one|].
  apply truthy_length in Ta.
  destruct (Nat.max (length a) (length b) =? 0) eqn:E;
    [apply Nat.eqb_eq in E; lia|].
  apply one_minus_ratio_unit.
  - apply edit_distance_le_max, levenshtein_distance_ok.
  - lia.
  - unfold short in *. lia.
Qed.

Lemma leb_of_unit x :
  unit_float (Prim2SF x) -> (0 <=? x)%float = true /\ (x <=? 1)%float = true.
Proof.
  intros H. rewrite !FloatAxioms.leb_spec, zero_SF, one_SF. now apply unit_float_range.
Qed.

Lemma pos_float_not_nan x : pos_float x -> x <> S754_nan.
Proof. intros [->|[(m & e & ->)| ->]]; discriminate. Qed.

(** The mean of two scores is a number: the comparisons with it are those
    of an order. *)
Lemma overall_pos a t :
  unit_float (Prim2SF a) -> unit_float (Prim2SF t) ->
  pos_float (Prim2SF ((a + t) / 2)).
Proof.
  intros Ha Ht. rewrite FloatAxioms.div_spec, FloatAxioms.add_spec, two_SF.
  apply SFdiv_pos_finite, SFadd_unit_pos; assumption.
Qed.

Lemma ltb_trans x y z :
  (x <? y)%float = true -> (y <? z)%float = true -> (x <? z)%float = true.
Proof. rewrite !FloatAxioms.ltb_spec. apply SFltb_trans. Qed.

Lemma ltb_le_trans c b s :
  (c <? s)%float = true -> (b <? s)%float = false -> Prim2SF b <> S754_nan ->
  (c <? b)%float = true.
Proof. rewrite !FloatAxioms.ltb_spec. apply SFltb_le_trans. Qed.

Lemma calculate_similarity_sym a b :
  calculate_similarity a b = calculate_similarity b a.
Proof.
  unfold calculate_similarity.
  rewrite (orb_comm (negb (truthy a))).
  destruct (negb (truthy b) || negb (truthy a)); [reflexivity|].
  assert (E : pystr_eqb a b = pystr_eqb b a).
  { destruct (pystr_eqb a b) eqn:E1, (pystr_eqb b a) eqn:E2; auto.
    - apply pystr_eqb_eq in E1. subst. now rewrite pystr_eqb_refl in E2.
    - apply pystr_eqb_eq in E2. subst. now rewrite pystr_eqb_refl in E1. }
  rewrite E, (Nat.max_comm (length a)), (levenshtein_distance_sym a b).
  reflexivity.
Qed.

End SimilarityFacts.

(** ** Dictionaries and the two indices *)

Lemma key_eqb_eq (k1 k2 : key) : key_eqb k1 k2 = true <-> k1 = k2.
Proof.
  destruct k1 as [a1 t1], k2 as [a2 t2]. unfold key_eqb. simpl.
  rewrite andb_true_iff, !pystr_eqb_eq. split.
  - intros [-> ->]. reflexivity.
  - intros [= -> ->]. auto.
Qed.

Lemma key_eqb_refl (k : key) : key_eqb k k = true.
Proof. now apply key_eqb_eq. Qed.

Section DictFacts.

Variables (K V : Type) (eqb : K -> K -> bool).
Hypothesis eqb_eq : forall a b, eqb a b = true <-> a = b.

Lemma dict_set_keys (d : dict K V) k v :
  dict_keys (dict_set eqb d k v) =
  if existsb (eqb k) (dict_keys d) then dict_keys d else dict_keys d ++ [k].
Proof.
  induction d as [|[k' v'] d IH]; simpl; [reflexivity|].
  destruct (eqb k k') eqn:E; simpl; [reflexivity|].
  unfold dict_keys in *. rewrite IH.
  destruct (existsb (eqb k) (map fst d)); reflexivity.
Qed.

Lemma existsb_eqb_In k (l : list K) : existsb (eqb k) l = true <-> In k l.
Proof.
  rewrite existsb_exists. split.
  - intros [x [Hx E]]. apply eqb_eq in E. now subst.
  - intros H. exists k. split; [exact H | now apply eqb_eq].
Qed.

Lemma dict_set_NoDup (d : dict K V) k v :
  NoDup (dict_keys d) -> NoDup (dict_keys (dict_set eqb d k v)).
Proof.
  intros H. rewrite dict_set_keys.
  destruct (existsb (eqb k) (dict_keys d)) eqn:E; [exact H|].
  apply NoDup_app; [exact H | repeat constructor; simpl; tauto |].
  intros x Hx [<-|[]].
  apply existsb_eqb_In in Hx. congruence.
Qed.

Lemma dict_set_In (d : dict K V) k v k' v' :
  In (k', v') (dict_set eqb d k v) -> In (k', v') d \/ (k' = k /\ v' = v).
Proof.
  induction d as [|[k0 v0] d IH]; simpl.
  - intros [[= <- <-]|[]]. auto.
  - destruct (eqb k k0) eqn:E; simpl.
    + apply eqb_eq in E. subst k0. intros [[= <- <-]|H]; auto.
    + intros [H|H]; auto. apply IH in H. tauto.
Qed.

Lemma dict_get_In (d : dict K V) k v : dict_get eqb d k = Some v -> In (k, v) d.
Proof.
  induction d as [|[k' v'] d IH]; simpl; [discriminate|].
  destruct (eqb k k') eqn:E.
  - apply eqb_eq in E. subst. intros [= ->]. auto.
  - auto.
Qed.

Lemma dict_get_None (d : dict K V) k :
  dict_get eqb d k = None <-> ~ In k (dict_keys d).
Proof.
  induction d as [|[k' v'] d IH]; simpl; [tauto|].
  destruct (eqb k k') eqn:E.
  - apply eqb_eq in E. subst. split; [discriminate | tauto].
  - rewrite IH. split; [|tauto].
    intros H [->|H']; [|tauto].
    assert (eqb k k = true) by now apply eqb_eq. congruence.
Qed.

End DictFacts.

Section AppendFacts.

Variables (K V : Type) (eqb : K -> K -> bool).
Hypothesis eqb_eq : forall a b, eqb a b = true <-> a = b.

(** The first element filed under a key. *)
Definition bucket_head (d : dict K (list V)) (k : K) : option V :=
  match dict_get eqb d k with
  | Some (x :: _) => Some x
  | _ => None
  end.

Lemma dict_append_head (d : dict K (list V)) k x k0 :
  bucket_head (dict_append eqb d k x) k0 =
  match bucket_head d k0 with
  | Some y => Some y
  | None => if eqb k0 k then Some x else None
  end.
Proof.
  unfold bucket_head. induction d as [|[k' l] d IH]; simpl.
  - destruct (eqb k0 k); reflexivity.
  - destruct (eqb k k') eqn:E; simpl.
    + apply eqb_eq in E. subst k'.
      destruct (eqb k0 k) eqn:E0.
      * destruct l; reflexivity.
      * destruct (dict_get eqb d k0) as [[|y l0]|]; reflexivity.
    + destruct (eqb k0 k') eqn:E0; [|exact IH].
      destruct l as [|y l]; [|reflexivity].
      destruct (eqb k0 k) eqn:E1; [|reflexivity].
      apply eqb_eq in E0, E1. rewrite <- E1, E0 in E.
      assert (eqb k' k' = true) by now apply eqb_eq. congruence.
Qed.

Lemma dict_append_In (d : dict K (list V)) k x k0 l :
  In (k0, l) (dict_append eqb d k x) ->
  l <> [] /\ (In k0 (dict_keys d) \/ k0 = k)
  \/ In (k0, l) d.
Proof.
  induction d as [|[k' l'] d IH]; simpl.
  - intros [[= <- <-]|[]]. left. split; [discriminate | auto].
  - destruct (eqb k k') eqn:E; simpl.
    + intros [[= <- <-]|H]; [|auto].
      left. split; [destruct l'; discriminate | auto].
    + intros [H|H]; [auto|]. apply IH in H. tauto.
Qed.

End AppendFacts.

Arguments bucket_head {K V} eqb d k.

(** The first file, in the order of the index, one of whose interpretations
    has the key [k]. *)
Definition bears (k : key) (entry : pystr * list interpretation) : bool :=
  existsb (fun s : interpretation => let '(_, artist, title) := s in key_eqb k (artist, title))
          (snd entry).

Definition first_bearer (index : file_index) (k : key) : option pystr :=
  option_map fst (find (bears k) index).

Definition nonempty_buckets (reverse : reverse_index) : Prop :=
  forall k files, In (k, files) reverse -> files <> [].

Definition clean_keys (reverse : reverse_index) : Prop :=
  forall k, In k (dict_keys reverse) -> truthy (fst k) = true /\ truthy (snd k) = true.

Definition clean_entry (strategies : list interpretation) : Prop :=
  forall s a t, In (s, a, t) strategies -> truthy a = true /\ truthy t = true.

Section IndexFacts.

Lemma file_keys_head reverse filename strategies k :
  bucket_head key_eqb (file_keys reverse (filename, strategies)) k =
  match bucket_head key_eqb reverse k with
  | Some f => Some f
  | None => if bears k (filename, strategies) then Some filename else None
  end.
Proof.
  unfold file_keys, bears. simpl snd.
  revert reverse. induction strategies as [|[[s a] t] strategies IH]; intros reverse; simpl.
  - destruct (bucket_head key_eqb reverse k); reflexivity.
  - rewrite IH, (dict_append_head _ _ key_eqb key_eqb_eq).
    destruct (bucket_head key_eqb reverse k); [reflexivity|].
    destruct (key_eqb k (a, t)); reflexivity.
Qed.

Lemma build_reverse_head_from index : forall reverse k,
  bucket_head key_eqb (fold_left file_keys index reverse) k =
  match bucket_head key_eqb reverse k with
  | Some f => Some f
  | None => first_bearer index k
  end.
Proof.
  unfold first_bearer.
  induction index as [|[filename strategies] index IH]; intros reverse k;
    cbn [fold_left find].
  - destruct (bucket_head key_eqb reverse k); reflexivity.
  - rewrite IH, file_keys_head.
    destruct (bucket_head key_eqb reverse k); [reflexivity|].
    destruct (bears k (filename, strategies)); reflexivity.
Qed.

(** The head of a bucket of the reverse index is the first file that bears
    the key. *)
Lemma build_reverse_head index k :
  bucket_head key_eqb (build_reverse_index index) k = first_bearer index k.
Proof. unfold build_reverse_index. now rewrite build_reverse_head_from. Qed.

Lemma file_keys_nonempty reverse entry :
  nonempty_buckets reverse -> nonempty_buckets (file_keys reverse entry).
Proof.
  destruct entry as [filename strategies]. unfold file_keys.
  revert reverse. induction strategies as [|[[s a] t] strategies IH]; intros reverse H; simpl.
  - exact H.
  - apply IH. intros k files Hin.
    apply (dict_append_In _ _ key_eqb) in Hin. destruct Hin as [[Hne _]|Hin]; eauto.
Qed.

Lemma build_reverse_nonempty index : nonempty_buckets (build_reverse_index index).
Proof.
  unfold build_reverse_index.
  assert (H : nonempty_buckets []) by (intros k files []).
  revert H. generalize (@nil (key * list pystr)).
  induction index as [|entry index IH]; intros reverse H; simpl; [exact H|].
  apply IH, file_keys_nonempty, H.
Qed.

Lemma dict_append_keys_In (reverse : reverse_index) k x k0 :
  In k0 (dict_keys (dict_append key_eqb reverse k x)) ->
  In k0 (dict_keys reverse) \/ k0 = k.
Proof.
  unfold dict_keys. rewrite in_map_iff. intros [[k1 l] [E Hin]]. simpl in E. subst k1.
  apply (dict_append_In _ _ key_eqb) in Hin.
  destruct Hin as [[_ H]|H]; [exact H|].
  left. apply in_map_iff. exists (k0, l). auto.
Qed.

Lemma file_keys_clean reverse filename strategies :
  clean_keys reverse -> clean_entry strategies ->
  clean_keys (file_keys reverse (filename, strategies)).
Proof.
  unfold file_keys. revert reverse.
  induction strategies as [|[[s a] t] strategies IH]; intros reverse Hr Hs; simpl.
  - exact Hr.
  - apply IH.
    + intros k Hk. apply dict_append_keys_In in Hk. destruct Hk as [Hk| ->].
      * now apply Hr.
      * apply (Hs s a t). now left.
    + intros s' a' t' Hin. apply (Hs s' a' t'). now right.
Qed.

Lemma build_reverse_clean index :
  (forall filename strategies, In (filename, strategies) index -> clean_entry strategies) ->
  clean_keys (build_reverse_index index).
Proof.
  unfold build_reverse_index.
  assert (H : clean_keys []) by (intros k []).
  revert H. generalize (@nil (key * list pystr)).
  induction index as [|[filename strategies] index IH]; intros reverse H Hi; simpl; [exact H|].
  apply IH.
  - apply file_keys_clean; [exact H|]. apply (Hi filename). now left.
  - intros f s Hin. apply (Hi f). now right.
Qed.

Variable U : UnicodeData.
Variable os : OS.

Lemma clean_strategy_clean s s' a t :
  In (s', a, t) (clean_strategy U s) -> truthy a = true /\ truthy t = true.
Proof.
  destruct s as [[name artist] title]. unfold clean_strategy.
  destruct (truthy (deep_clean_text U artist) && truthy (deep_clean_text U title)) eqn:E;
    [|intros []].
  intros [[= <- <- <-]|[]]. now apply andb_true_iff.
Qed.

Lemma extract_clean filepath filename :
  clean_entry (extract_artist_title_comprehensive U os filepath filename).
Proof.
  intros s a t H. unfold extract_artist_title_comprehensive in H.
  apply in_flat_map in H. destruct H as [raw [_ H]].
  eapply clean_strategy_clean; eauto.
Qed.

(** What the first loop keeps in the file index. *)
Definition index_ok (folder_path : pystr) (index : file_index) : Prop :=
  NoDup (dict_keys index)
  /\ forall filename strategies,
      In (filename, strategies) index ->
      strategies <> []
      /\ strategies =
         extract_artist_title_comprehensive U os (path_join os folder_path filename) filename.

Lemma index_step_ok folder_path st filename :
  index_ok folder_path (st_index st) ->
  index_ok folder_path (st_index (index_step U os folder_path st filename)).
Proof.
  intros [Hn Hi]. unfold index_step.
  destruct (negb (isfile os (path_join os folder_path filename))); [split; assumption|].
  destruct (negb (is_audio_name U filename)); [split; assumption|].
  destruct (extract_artist_title_comprehensive U os _ filename) as [|s0 l] eqn:E;
    [split; assumption|].
  simpl. split.
  - apply (dict_set_NoDup _ _ pystr_eqb pystr_eqb_eq), Hn.
  - intros f strs Hin. apply (dict_set_In _ _ pystr_eqb pystr_eqb_eq) in Hin.
    destruct Hin as [Hin|[-> ->]]; [now apply Hi|].
    split; [discriminate | now rewrite E].
Qed.

Lemma index_files_ok folder_path names :
  index_ok folder_path (st_index (index_files U os folder_path names)).
Proof.
  unfold index_files.
  assert (H : index_ok folder_path (st_index index_start))
    by (split; [constructor | intros f s []]).
  revert H. generalize index_start.
  induction names as [|n names IH]; intros st H; simpl; [exact H|].
  apply IH, index_step_ok, H.
Qed.

End IndexFacts.

(** ** The cross matcher *)

Definition short_key (k : key) : Prop := short (fst k) /\ short (snd k).

Definition short_interpretation (s : interpretation) : Prop :=
  short_key (interpretation_key s).

Definition is_number (x : float) : Prop := Prim2SF x <> S754_nan.

Section MatchFacts.

Lemma accept_above_zero : (ACCEPT <? 0)%float = false.
Proof. reflexivity. Qed.

Lemma zero_is_number : is_number 0%float.
Proof. unfold is_number. rewrite zero_SF. discriminate. Qed.

Lemma overall_is_number key1 artist2 title2 :
  short_key key1 -> short artist2 -> short title2 ->
  is_number (overall key1 artist2 title2).
Proof.
  intros [Ha Ht] Ha2 Ht2. unfold is_number, overall.
  apply pos_float_not_nan, overall_pos; apply calculate_similarity_unit; assumption.
Qed.

Lemma gated_scores_numbers reverse1 strategies2 :
  Forall short_key (dict_keys reverse1) ->
  Forall short_interpretation strategies2 ->
  Forall is_number (gated_scores reverse1 strategies2).
Proof.
  intros Hk Hs. apply Forall_forall. intros x Hx.
  unfold gated_scores in Hx. apply in_flat_map in Hx.
  destruct Hx as [[[s a2] t2] [Hin Hx]].
  apply in_flat_map in Hx. destruct Hx as [key1 [Hkin Hx]].
  destruct (passes_gate key1 a2); [|destruct Hx].
  destruct Hx as [<-|[]].
  rewrite Forall_forall in Hk, Hs.
  destruct (Hs _ Hin) as [Ha Ht]. simpl in Ha, Ht.
  apply overall_is_number; auto.
Qed.

Lemma fmax_number a b : is_number a -> is_number b -> is_number (fmax a b).
Proof. unfold fmax. destruct (a <? b)%float; auto. Qed.

Lemma ltb_fmax c a b :
  is_number a ->
  (c <? fmax a b)%float = ((c <? a)%float || (c <? b)%float).
Proof.
  intros Ha. unfold fmax. destruct (a <? b)%float eqn:E.
  - destruct (c <? a)%float eqn:E1; [|reflexivity].
    simpl. apply (ltb_trans c a b); assumption.
  - destruct (c <? b)%float eqn:E2; [|now rewrite orb_false_r].
    rewrite (ltb_le_trans c a b E2 E Ha). reflexivity.
Qed.

(** A threshold is below the running maximum exactly when it is below the
    start or below one of the scores. *)
Lemma ltb_fold_fmax c scores : forall b0,
  is_number b0 -> Forall is_number scores ->
  (c <? fold_left fmax scores b0)%float
  = ((c <? b0)%float || existsb (fun s => (c <? s)%float) scores).
Proof.
  induction scores as [|s scores IH]; intros b0 Hb Hs; simpl.
  - now rewrite orb_false_r.
  - inversion Hs as [|? ? Hs1 Hs2]; subst.
    rewrite IH by (try apply fmax_number; assumption).
    rewrite ltb_fmax by assumption. now rewrite orb_assoc.
Qed.

Lemma accepted_exists reverse1 strategies2 :
  Forall short_key (dict_keys reverse1) ->
  Forall short_interpretation strategies2 ->
  accepted reverse1 strategies2
  = existsb (fun s => (ACCEPT <? s)%float) (gated_scores reverse1 strategies2).
Proof.
  intros Hk Hs. unfold accepted, best_overall.
  pose proof (gated_scores_numbers reverse1 strategies2 Hk Hs) as Hn.
  destruct (gated_scores reverse1 strategies2) as [|s scores]; [reflexivity|].
  inversion Hn; subst. now apply ltb_fold_fmax.
Qed.

(** The running state of the scan: without a candidate the best similarity
    is still 0. *)
Definition best_ok (b : best) : Prop :=
  best_match b = None -> best_similarity b = 0%float.

Lemma scan_key_similarity artist2 title2 b key1 :
  best_similarity (scan_key artist2 title2 b key1)
  = fold_left fmax (if passes_gate key1 artist2 then [overall key1 artist2 title2] else [])
              (best_similarity b)
  /\ (best_ok b -> best_ok (scan_key artist2 title2 b key1)).
Proof.
  unfold scan_key, passes_gate, overall, best_ok. destruct key1 as [artist1 title1]. simpl fst. simpl snd.
  destruct (GATE <? calculate_similarity artist1 artist2)%float; [|simpl; auto].
  simpl fold_left. unfold fmax.
  destruct (best_similarity b <? _)%float; simpl; [|auto].
  split; [reflexivity | discriminate].
Qed.

Lemma scan_keys_similarity artist2 title2 keys : forall b,
  best_similarity (fold_left (scan_key artist2 title2) keys b)
  = fold_left fmax
              (flat_map (fun key1 => if passes_gate key1 artist2
                                     then [overall key1 artist2 title2] else []) keys)
              (best_similarity b)
  /\ (best_ok b -> best_ok (fold_left (scan_key artist2 title2) keys b)).
Proof.
  induction keys as [|key1 keys IH]; intros b; simpl; [auto|].
  destruct (IH (scan_key artist2 title2 b key1)) as [E1 E2].
  destruct (scan_key_similarity artist2 title2 b key1) as [F1 F2].
  rewrite E1, F1, fold_left_app. auto.
Qed.

(** Without an exact key the scan goes through all the pairs. *)
Lemma scan_strategies_no_exact reverse1 strategies2 : forall b last,
  no_exact_key reverse1 strategies2 ->
  exists b' last',
    scan_strategies reverse1 strategies2 b last = NoExact b' last'
    /\ best_similarity b'
       = fold_left fmax (gated_scores reverse1 strategies2) (best_similarity b)
    /\ (best_ok b -> best_ok b')
    /\ (strategies2 = [] -> b' = b)
    /\ (strategies2 <> [] -> last' <> None).
Proof.
  induction strategies2 as [|[[s a2] t2] strategies2 IH]; intros b last Hno.
  - exists b, last. simpl. repeat split; auto; congruence.
  - assert (Hget : dict_get key_eqb reverse1 (a2, t2) = None)
      by (apply (Hno (s, a2, t2)); now left).
    assert (Hno' : no_exact_key reverse1 strategies2)
      by (intros x Hx; apply Hno; now right).
    cbn [scan_strategies]. rewrite Hget.
    destruct (scan_keys_similarity a2 t2 (dict_keys reverse1) b) as [E1 E2].
    destruct (IH (fold_left (scan_key a2 t2) (dict_keys reverse1) b) (Some (a2, t2)) Hno')
      as (b' & last' & R & S & O & Z & L).
    exists b', last'. split; [exact R|]. split.
    + rewrite S, E1. unfold gated_scores. cbn [flat_map]. now rewrite fold_left_app.
    + split; [auto|]. split; [discriminate|].
      intros _. destruct strategies2 as [|x l].
      * cbn [scan_strategies] in R. injection R as _ <-. discriminate.
      * apply L. discriminate.
Qed.

(** The outcome of one file that has no exact key. *)
Lemma match_file_no_exact reverse1 unique_songs match_details filename2 strategies2 :
  no_exact_key reverse1 strategies2 ->
  Forall short_key (dict_keys reverse1) ->
  Forall short_interpretation strategies2 ->
  (accepted reverse1 strategies2 = true ->
   exists similarity info2 info1,
     match_file reverse1 (unique_songs, match_details) (filename2, strategies2)
     = Ok (unique_songs,
           match_details ++ [(filename2, FuzzyMatch similarity, info2, info1)]))
  /\ (accepted reverse1 strategies2 = false ->
      match_file reverse1 (unique_songs, match_details) (filename2, strategies2)
      = Ok (unique_songs ++ [filename2], match_details)).
Proof.
  intros Hno Hk Hs.
  destruct (scan_strategies_no_exact reverse1 strategies2 best_start None Hno)
    as (b' & last' & R & S & O & Z & L).
  assert (Hacc : (ACCEPT <? best_similarity b')%float = accepted reverse1 strategies2).
  { rewrite S, accepted_exists by assumption.
    cbn [best_similarity best_start].
    rewrite ltb_fold_fmax
      by (try apply zero_is_number; apply gated_scores_numbers; assumption).
    now rewrite accept_above_zero. }
  assert (Hok : best_ok b') by (apply O; intros _; reflexivity).
  unfold match_file. rewrite R.
  destruct (best_match b') as [[[artist1 title1] similarity]|] eqn:B.
  - rewrite Hacc. split; intros A; rewrite A; [|reflexivity].
    destruct last' as [[artist2 title2]|]; [eauto|].
    exfalso. destruct strategies2 as [|x l]; [|now apply L].
    rewrite (Z eq_refl) in B. discriminate.
  - split; intros A; [|reflexivity].
    rewrite <- Hacc, (Hok B), accept_above_zero in A. discriminate.
Qed.

(** An exact key stops the scan at the first interpretation that has one. *)
Lemma scan_strategies_exact reverse1 pre s artist2 title2 post matched_files : forall b last,
  no_exact_key reverse1 pre ->
  dict_get key_eqb reverse1 (artist2, title2) = Some matched_files ->
  scan_strategies reverse1 (pre ++ (s, artist2, title2) :: post) b last
  = FoundExact s matched_files.
Proof.
  induction pre as [|[[s0 a0] t0] pre IH]; intros b last Hno Hget; simpl.
  - now rewrite Hget.
  - assert (G : dict_get key_eqb reverse1 (a0, t0) = None)
      by (apply (Hno (s0, a0, t0)); now left).
    rewrite G.
    apply IH; [|exact Hget]. intros x Hx. apply Hno. now right.
Qed.

(** One round adds the file to exactly one of the two lists. *)
Lemma match_file_shape reverse1 unique_songs match_details filename2 strategies2 u d :
  match_file reverse1 (unique_songs, match_details) (filename2, strategies2) = Ok (u, d) ->
  (u = unique_songs ++ [filename2] /\ d = match_details)
  \/ (u = unique_songs /\ exists detail, d = match_details ++ [detail]
                                         /\ detail_file detail = filename2).
Proof.
  unfold match_file.
  destruct (scan_strategies reverse1 strategies2 best_start None) as [s files|b last].
  - destruct files as [|f files]; [discriminate|].
    intros [= <- <-]. right. split; [reflexivity|]. eexists. split; reflexivity.
  - destruct (best_match b) as [[[a1 t1] sim]|].
    + destruct (ACCEPT <? best_similarity b)%float.
      * destruct last as [[a2 t2]|]; [|discriminate].
        intros [= <- <-]. right. split; [reflexivity|]. eexists. split; reflexivity.
      * intros [= <- <-]. auto.
    + intros [= <- <-]. auto.
Qed.

Lemma scan_strategies_cases reverse1 strategies2 : forall b last,
  (exists s files, scan_strategies reverse1 strategies2 b last = FoundExact s files
                   /\ exists k, dict_get key_eqb reverse1 k = Some files)
  \/ (exists b' last', scan_strategies reverse1 strategies2 b last = NoExact b' last'
                       /\ (strategies2 = [] -> b' = b)
                       /\ (strategies2 <> [] -> last' <> None)).
Proof.
  induction strategies2 as [|[[s a2] t2] strategies2 IH]; intros b last.
  - right. exists b, last. simpl. repeat split; auto; congruence.
  - cbn [scan_strategies].
    destruct (dict_get key_eqb reverse1 (a2, t2)) as [files|] eqn:G.
    + left. exists s, files. split; [reflexivity | eauto].
    + destruct (IH (fold_left (scan_key a2 t2) (dict_keys reverse1) b) (Some (a2, t2)))
        as [H|(b' & last' & R & Z & L)]; [left; exact H|].
      right. exists b', last'. split; [exact R|]. split; [discriminate|].
      intros _. destruct strategies2 as [|x l].
      * cbn [scan_strategies] in R. injection R as _ <-. discriminate.
      * apply L. discriminate.
Qed.

(** With the buckets of a reverse index nothing is raised. *)
Lemma match_file_ok reverse1 acc entry :
  nonempty_buckets reverse1 ->
  exists acc', match_file reverse1 acc entry = Ok acc'.
Proof.
  intros Hne. destruct acc as [unique_songs match_details], entry as [filename2 strategies2].
  unfold match_file.
  destruct (scan_strategies_cases reverse1 strategies2 best_start None)
    as [(s & files & -> & k & G)|(b' & last' & -> & Z & L)].
  - apply (dict_get_In _ _ key_eqb key_eqb_eq) in G. apply Hne in G.
    destruct files; [congruence | eauto].
  - destruct (best_match b') as [[[a1 t1] sim]|] eqn:B; [|eauto].
    destruct (ACCEPT <? best_similarity b')%float; [|eauto].
    destruct last' as [[a2 t2]|]; [eauto|].
    exfalso. destruct strategies2 as [|x l]; [|now apply L].
    rewrite (Z eq_refl) in B. discriminate.
Qed.

Lemma cross_check_ok reverse1 index2 : forall acc,
  nonempty_buckets reverse1 ->
  exists acc', cross_check reverse1 index2 acc = Ok acc'.
Proof.
  induction index2 as [|entry index2 IH]; intros acc Hne; cbn [cross_check]; [eauto|].
  destruct (match_file_ok reverse1 acc entry Hne) as [acc' ->]. cbn [bind].
  now apply IH.
Qed.

(** The two result lists grow by the files of the index, each added once. *)
Lemma cross_check_partition reverse1 index2 : forall unique_songs match_details u d,
  cross_check reverse1 index2 (unique_songs, match_details) = Ok (u, d) ->
  exists u1 d1,
    u = unique_songs ++ u1 /\ d = match_details ++ d1
    /\ Permutation (u1 ++ map detail_file d1) (dict_keys index2)
    /\ length u1 + length d1 = length index2.
Proof.
  induction index2 as [|[filename2 strategies2] index2 IH];
    intros unique_songs match_details u d H; cbn [cross_check] in H.
  - injection H as H1 H2. subst u d. exists [], []. rewrite !app_nil_r. repeat split; constructor.
  - destruct (match_file reverse1 (unique_songs, match_details) (filename2, strategies2))
      as [[u0 d0]|e] eqn:M; [|discriminate].
    cbn [bind] in H. apply IH in H. destruct H as (u1 & d1 & -> & -> & P & L).
    apply match_file_shape in M.
    destruct M as [[-> ->]|[-> (detail & -> & F)]].
    + exists (filename2 :: u1), d1. rewrite <- app_assoc. simpl.
      repeat split; [now constructor | lia].
    + exists u1, (detail :: d1). rewrite <- app_assoc. simpl.
      repeat split; [|lia].
      rewrite <- F. apply Permutation_sym.
      apply Permutation_cons_app, Permutation_sym, P.
Qed.

End MatchFacts.

(** * The properties of the specification *)

Lemma latin_laws : UnicodeLaws Latin.table.
Proof.
  split; [reflexivity|].
  intros s c H. simpl in H. apply in_map_iff in H. destruct H as [x [<- _]].
  unfold Latin.lower_char, ascii_upper.
  destruct ((65 <=? x)%N && (x <=? 90)%N) eqn:E1.
  - apply andb_true_iff in E1. destruct E1 as [A B].
    apply N.leb_le in A, B. apply andb_false_iff. right. apply N.leb_gt. lia.
  - destruct ((192 <=? x)%N && (x <=? 222)%N && negb (x =? 215)%N) eqn:E2; [|exact E1].
    apply andb_true_iff in E2. destruct E2 as [E2 _].
    apply andb_true_iff in E2. destruct E2 as [A _]. apply N.leb_le in A.
    apply andb_false_iff. right. apply N.leb_gt. lia.
Qed.

(** C1.  A candidate file none of whose interpretations is an exact key of
    the reference index gets a Fuzzy decision exactly when the best overall
    similarity, over the pairs whose artist similarity is above 0.8, is
    strictly above 0.85; otherwise (a best of 0.85 or less, or no pair
    through the gate) it goes to the unique files.  The best is above the
    threshold exactly when some pair through the gate is.  Both comparisons
    are the strict ones of binary64. *)
Theorem fuzzy_iff_best_overall_above_accept
        reverse1 unique_songs match_details filename2 strategies2 :
  no_exact_key reverse1 strategies2 ->
  Forall short_key (dict_keys reverse1) ->
  Forall short_interpretation strategies2 ->
  (accepted reverse1 strategies2 = true <->
   exists similarity info2 info1,
     match_file reverse1 (unique_songs, match_details) (filename2, strategies2)
     = Ok (unique_songs,
           match_details ++ [(filename2, FuzzyMatch similarity, info2, info1)]))
  /\ (accepted reverse1 strategies2 = false <->
      match_file reverse1 (unique_songs, match_details) (filename2, strategies2)
      = Ok (unique_songs ++ [filename2], match_details))
  /\ accepted reverse1 strategies2
     = existsb (fun s => (ACCEPT <? s)%float) (gated_scores reverse1 strategies2).
Proof.
  intros Hno Hk Hs.
  destruct (match_file_no_exact reverse1 unique_songs match_details filename2
                                strategies2 Hno Hk Hs) as [Hf Hu].
  assert (Hdiff : forall similarity info2 info1,
             Ok (unique_songs ++ [filename2], match_details)
             <> Ok (unique_songs,
                    match_details ++ [(filename2, FuzzyMatch similarity, info2, info1)])).
  { intros similarity info2 info1 [= E _].
    apply (f_equal (@length pystr)) in E. rewrite length_app in E. simpl in E. lia. }
  split; [|split].
  - split; [exact Hf|]. intros (similarity & info2 & info1 & E).
    destruct (accepted reverse1 strategies2); [reflexivity|].
    rewrite (Hu eq_refl) in E. now apply Hdiff in E.
  - split; [exact Hu|]. intros E.
    destruct (accepted reverse1 strategies2); [|reflexivity].
    destruct (Hf eq_refl) as (similarity & info2 & info1 & E').
    rewrite E in E'. now apply Hdiff in E'.
  - now apply accepted_exists.
Qed.

(** C2.  When the key of an interpretation of the candidate file is in the
    reverse index of the reference collection, and no earlier interpretation
    has such a key, the file gets an Exact decision for that interpretation,
    naming the first file of the reference index that bears the key (the
    first one filed under it); nothing is added to the unique files and no
    Fuzzy decision is made, whatever the similarities are. *)
Theorem exact_key_gives_exact_decision
        index1 unique_songs match_details filename2 pre s artist2 title2 post matched_files :
  no_exact_key (build_reverse_index index1) pre ->
  dict_get key_eqb (build_reverse_index index1) (artist2, title2) = Some matched_files ->
  exists first,
    first_bearer index1 (artist2, title2) = Some first
    /\ hd_error matched_files = Some first
    /\ match_file (build_reverse_index index1) (unique_songs, match_details)
                  (filename2, pre ++ (s, artist2, title2) :: post)
       = Ok (unique_songs, match_details ++ [(filename2, ExactMatch, s, first)]).
Proof.
  intros Hno Hget.
  pose proof (build_reverse_head index1 (artist2, title2)) as Hhead.
  unfold bucket_head in Hhead. rewrite Hget in Hhead.
  pose proof (build_reverse_nonempty index1 (artist2, title2) matched_files
                (dict_get_In _ _ key_eqb key_eqb_eq _ _ _ Hget)) as Hne.
  destruct matched_files as [|first rest]; [congruence|].
  exists first. split; [now symmetry|]. split; [reflexivity|].
  unfold match_file.
  now rewrite (scan_strategies_exact _ pre s artist2 title2 post (first :: rest)).
Qed.

(** C3.  Cleaning "ver. 2" gives "ver 2", and cleaning that gives "2": the
    dot of the marker [ver.] is a regular-expression dot, which matches the
    space once the real dot is gone. *)
Theorem deep_clean_text_twice_on_ver :
  deep_clean_text Latin.table (str "ver. 2") = str "ver 2"
  /\ deep_clean_text Latin.table (str "ver 2") = str "2".
Proof. split; vm_compute; reflexivity. Qed.

(** C4, as the program has it.  The cleaned text consists of single spaces
    and of characters of [\w] or of the CJK range that are neither
    whitespace nor ASCII capitals: letters and digits of any script stay.
    It has no space in front or at the end and no two spaces in a row. *)
Theorem deep_clean_text_shape U (HU : UnicodeLaws U) text :
  Forall (fun c => canonical_char U c = true) (deep_clean_text U text)
  /\ single_spaced (deep_clean_text U text) = true.
Proof.
  split.
  - apply Forall_forall. intros c. now apply deep_clean_text_chars.
  - now apply deep_clean_text_single_spaced.
Qed.

(** C4 as stated fails: the letter U+00E9 is kept and is none of the listed
    characters. *)
Lemma deep_clean_text_keeps_e_acute :
  deep_clean_text Latin.table [233%N] = [233%N] /\ listed_char 233%N = false.
Proof. split; vm_compute; reflexivity. Qed.

Lemma deep_clean_text_shape_witness :
  Forall (fun c => canonical_char Latin.table c = true)
         (deep_clean_text Latin.table (str "  Adele - Hello (Remix) "))
  /\ single_spaced (deep_clean_text Latin.table (str "  Adele - Hello (Remix) ")) = true.
Proof. exact (deep_clean_text_shape Latin.table latin_laws (str "  Adele - Hello (Remix) ")). Defined.

(** C5.  The word "very" is not a marker, and the marker removal deletes
    it: [ver.] matches "ver" followed by any character. *)
Theorem remove_markers_deletes_very :
  existsb (pystr_eqb (str "very")) version_markers = false
  /\ remove_markers Latin.table (str "very good") = str " good".
Proof. split; vm_compute; reflexivity. Qed.

(** C6.  For non-empty, different strings the similarity is
    [1 - d / max(len a, len b)], computed in binary64, where [d] is the cost
    of a cheapest script of insertions, deletions and substitutions; it lies
    between 0 and 1. *)
Theorem similarity_is_one_minus_distance_ratio a b :
  truthy a = true -> truthy b = true -> a <> b -> short a -> short b ->
  exists d,
    edit_distance a b d
    /\ calculate_similarity a b
       = (1 - float_of_nat d / float_of_nat (Nat.max (length a) (length b)))%float
    /\ (0 <=? calculate_similarity a b)%float = true
    /\ (calculate_similarity a b <=? 1)%float = true.
Proof.
  intros Ta Tb Hab Ha Hb. exists (levenshtein_distance a b).
  split; [apply levenshtein_distance_ok|]. split.
  - unfold calculate_similarity. rewrite Ta, Tb. cbn [negb orb].
    destruct (pystr_eqb a b) eqn:E; [apply pystr_eqb_eq in E; contradiction|].
    apply truthy_length in Ta.
    destruct (Nat.max (length a) (length b) =? 0) eqn:E0;
      [apply Nat.eqb_eq in E0; lia | reflexivity].
  - apply leb_of_unit, calculate_similarity_unit; assumption.
Qed.

Lemma similarity_of_kitten_sitting :
  exists d,
    edit_distance (str "kitten") (str "sitting") d
    /\ calculate_similarity (str "kitten") (str "sitting")
       = (1 - float_of_nat d / float_of_nat (Nat.max (length (str "kitten")) (length (str "sitting"))))%float
    /\ (0 <=? calculate_similarity (str "kitten") (str "sitting"))%float = true
    /\ (calculate_similarity (str "kitten") (str "sitting") <=? 1)%float = true.
Proof.
  apply (similarity_is_one_minus_distance_ratio (str "kitten") (str "sitting"));
    [reflexivity | reflexivity | discriminate | reflexivity | reflexivity].
Defined.

(** C7.  A non-empty string is at similarity 1.0 from itself; the similarity
    with an empty string is 0; the similarity is symmetric. *)
Theorem similarity_reflexive_zero_symmetric :
  (forall s, truthy s = true -> calculate_similarity s s = 1%float)
  /\ (forall a b, a = [] \/ b = [] -> calculate_similarity a b = 0%float)
  /\ (forall a b, calculate_similarity a b = calculate_similarity b a).
Proof.
  split; [|split].
  - intros s Ts. unfold calculate_similarity. rewrite Ts, pystr_eqb_refl. reflexivity.
  - intros a b [-> | ->]; unfold calculate_similarity; simpl; [reflexivity|].
    now rewrite orb_true_r.
  - apply calculate_similarity_sym.
Qed.

(** C8.  The extractor keeps a candidate exactly when both cleaned fields
    are non-empty; so every interpretation in a file index, and every key of
    the reverse index made from it, has a non-empty artist and a non-empty
    title. *)
Theorem stored_interpretations_are_nonempty U os folder_path index reverse :
  build_smart_index U os folder_path = Ok (index, reverse) ->
  (forall filename strategies s a t,
      In (filename, strategies) index -> In (s, a, t) strategies ->
      truthy a = true /\ truthy t = true)
  /\ (forall a t files,
         In ((a, t), files) reverse -> truthy a = true /\ truthy t = true)
  /\ (forall filepath filename s a t,
         In (s, a, t) (extract_artist_title_comprehensive U os filepath filename) <->
         exists artist title,
           In (s, artist, title) (raw_strategies U os filepath filename)
           /\ a = deep_clean_text U artist /\ t = deep_clean_text U title
           /\ truthy a = true /\ truthy t = true).
Proof.
  unfold build_smart_index.
  destruct (listdir os folder_path) as [names|]; [|discriminate].
  intros [= <- <-].
  destruct (index_files_ok U os folder_path names) as [_ Hi].
  assert (Hclean : forall filename strategies,
             In (filename, strategies) (st_index (index_files U os folder_path names)) ->
             clean_entry strategies).
  { intros filename strategies Hin. destruct (Hi _ _ Hin) as [_ ->].
    apply extract_clean. }
  split; [|split].
  - intros filename strategies s a t Hin Hs. exact (Hclean _ _ Hin s a t Hs).
  - intros a t files Hin.
    apply (build_reverse_clean _ Hclean (a, t)).
    unfold dict_keys. apply in_map_iff. exists ((a, t), files). auto.
  - intros filepath filename s a t. unfold extract_artist_title_comprehensive.
    rewrite in_flat_map. split.
    + intros [[[s0 artist] title] [Hraw Hc]]. unfold clean_strategy in Hc.
      destruct (truthy (deep_clean_text U artist) && truthy (deep_clean_text U title)) eqn:E;
        [|destruct Hc].
      destruct Hc as [[= <- <- <-]|[]]. apply andb_true_iff in E.
      exists artist, title. tauto.
    + intros (artist & title & Hraw & -> & -> & Ta & Tt).
      exists (s, artist, title). split; [exact Hraw|].
      unfold clean_strategy. rewrite Ta, Tt. now left.
Qed.

(** C9.  When the directory cannot be listed (an empty or missing path
    makes [os.listdir] raise), the index builder raises [OSError] and so does
    the caller; a directory that can be listed always gives indices, the
    empty ones for an empty directory. *)
Theorem unlistable_directory_raises U os folder_path :
  listdir os folder_path = None ->
  build_smart_index U os folder_path = Raise OSError
  /\ (forall other, find_unique_with_cross_check U os folder_path other = Raise OSError)
  /\ (forall other names,
         listdir os other = Some names ->
         find_unique_with_cross_check U os other folder_path = Raise OSError)
  /\ (forall other, listdir os other = Some [] ->
                    build_smart_index U os other = Ok ([], [])).
Proof.
  intros H. unfold find_unique_with_cross_check, build_smart_index. rewrite H.
  repeat split.
  - intros other names Ho. rewrite Ho. reflexivity.
  - intros other Ho. rewrite Ho. reflexivity.
Qed.

(** C10.  The cross matcher puts every file of the candidate index in
    exactly one of the two lists, once: the unique files together with the
    files of the decisions are the files of the index, without repetition,
    and the two lengths add up to the size of the index. *)
Theorem cross_check_partitions_candidates index1 index2 :
  NoDup (dict_keys index2) ->
  exists unique_songs match_details,
    cross_check (build_reverse_index index1) index2 ([], []) = Ok (unique_songs, match_details)
    /\ Permutation (unique_songs ++ map detail_file match_details) (dict_keys index2)
    /\ NoDup (unique_songs ++ map detail_file match_details)
    /\ length unique_songs + length match_details = length index2.
Proof.
  intros Hnd.
  destruct (cross_check_ok (build_reverse_index index1) index2 ([], [])
                           (build_reverse_nonempty index1)) as [[u d] E].
  exists u, d. split; [exact E|].
  apply cross_check_partition in E. destruct E as (u1 & d1 & -> & -> & P & L).
  simpl. repeat split; [exact P | | exact L].
  apply (Permutation_NoDup (Permutation_sym P) Hnd).
Qed.

(** ** The theorems at the small collection *)

Lemma fuzzy_iff_best_overall_above_accept_at_085 :
  (accepted Demo.reverse_085 Demo.strategies_085 = true <->
   exists similarity info2 info1,
     match_file Demo.reverse_085 ([], []) (str "cand.mp3", Demo.strategies_085)
     = Ok ([], [] ++ [(str "cand.mp3", FuzzyMatch similarity, info2, info1)]))
  /\ (accepted Demo.reverse_085 Demo.strategies_085 = false <->
      match_file Demo.reverse_085 ([], []) (str "cand.mp3", Demo.strategies_085)
      = Ok ([] ++ [str "cand.mp3"], []))
  /\ accepted Demo.reverse_085 Demo.strategies_085
     = existsb (fun s => (ACCEPT <? s)%float)
               (gated_scores Demo.reverse_085 Demo.strategies_085).
Proof.
  apply (fuzzy_iff_best_overall_above_accept
           Demo.reverse_085 [] [] (str "cand.mp3") Demo.strategies_085).
  - intros s [<-|[]]. reflexivity.
  - repeat constructor.
  - repeat constructor.
Defined.

Lemma exact_key_gives_exact_decision_at_adele :
  exists first,
    first_bearer [(str "a.flac", [(str "metadata", str "adele", str "hello")]);
                  (str "b.flac", [(str "metadata", str "adele", str "hello")])]
                 (str "adele", str "hello") = Some first
    /\ hd_error [str "a.flac"; str "b.flac"] = Some first
    /\ match_file
         (build_reverse_index
            [(str "a.flac", [(str "metadata", str "adele", str "hello")]);
             (str "b.flac", [(str "metadata", str "adele", str "hello")])])
         ([], [])
         (str "c.mp3", [(str "filename-", str "x", str "y")]
                       ++ (str "filename - ", str "adele", str "hello") :: [])
       = Ok ([], [] ++ [(str "c.mp3", ExactMatch, str "filename - ", first)]).
Proof.
  apply (exact_key_gives_exact_decision
           [(str "a.flac", [(str "metadata", str "adele", str "hello")]);
            (str "b.flac", [(str "metadata", str "adele", str "hello")])]
           [] [] (str "c.mp3") [(str "filename-", str "x", str "y")]
           (str "filename - ") (str "adele") (str "hello") []
           [str "a.flac"; str "b.flac"]).
  - intros s [<-|[]]. reflexivity.
  - reflexivity.
Defined.

Lemma stored_interpretations_are_nonempty_at_ref :
  (forall filename strategies s a t,
      In (filename, strategies) (Demo.index_of (str "ref")) -> In (s, a, t) strategies ->
      truthy a = true /\ truthy t = true)
  /\ (forall a t files,
         In ((a, t), files) (Demo.reverse_of (str "ref")) ->
         truthy a = true /\ truthy t = true)
  /\ (forall filepath filename s a t,
         In (s, a, t) (extract_artist_title_comprehensive Latin.table Demo.os filepath filename) <->
         exists artist title,
           In (s, artist, title) (raw_strategies Latin.table Demo.os filepath filename)
           /\ a = deep_clean_text Latin.table artist /\ t = deep_clean_text Latin.table title
           /\ truthy a = true /\ truthy t = true).
Proof.
  apply (stored_interpretations_are_nonempty Latin.table Demo.os (str "ref")).
  vm_compute. reflexivity.
Defined.

Lemma unlistable_directory_raises_at_empty_path :
  build_smart_index Latin.table Demo.os [] = Raise OSError
  /\ (forall other, find_unique_with_cross_check Latin.table Demo.os [] other = Raise OSError)
  /\ (forall other names,
         listdir Demo.os other = Some names ->
         find_unique_with_cross_check Latin.table Demo.os other [] = Raise OSError)
  /\ (forall other, listdir Demo.os other = Some [] ->
                    build_smart_index Latin.table Demo.os other = Ok ([], [])).
Proof.
  apply (unlistable_directory_raises Latin.table Demo.os []). reflexivity.
Defined.

Lemma cross_check_partitions_candidates_at_demo :
  exists unique_songs match_details,
    cross_check (build_reverse_index (Demo.index_of (str "ref")))
                (Demo.index_of (str "cand")) ([], [])
    = Ok (unique_songs, match_details)
    /\ Permutation (unique_songs ++ map detail_file match_details)
                   (dict_keys (Demo.index_of (str "cand")))
    /\ NoDup (unique_songs ++ map detail_file match_details)
    /\ length unique_songs + length match_details = length (Demo.index_of (str "cand")).
Proof.
  apply (cross_check_partitions_candidates (Demo.index_of (str "ref"))
                                           (Demo.index_of (str "cand"))).
  vm_compute.
  repeat (constructor; [simpl; intuition discriminate|]). constructor.
Defined.

(** * Further properties of the program *)

(** ** The distance of [levenshtein_distance] *)

Section DistanceFacts.

Lemma edits_refl a : edits a a 0.
Proof.
  induction a as [|x a IH]; [apply edits_nil|].
  replace 0 with (neq_cost x x + 0) by (unfold neq_cost; now rewrite N.eqb_refl).
  now apply edits_subst.
Qed.

Lemma edits_zero a b n : edits a b n -> n = 0 -> a = b.
Proof.
  induction 1 as [|x a b n H IH|y a b n H IH|x y a b n H IH]; intros E;
    try discriminate; [reflexivity|].
  unfold neq_cost in E. destruct (x =? y)%N eqn:Exy; [|discriminate].
  apply N.eqb_eq in Exy. subst. f_equal. apply IH. exact E.
Qed.

Lemma neq_cost_triangle x y z : neq_cost x z <= neq_cost x y + neq_cost y z.
Proof.
  unfold neq_cost.
  destruct (x =? z)%N eqn:E1, (x =? y)%N eqn:E2, (y =? z)%N eqn:E3; try lia.
  apply N.eqb_eq in E2, E3. subst. rewrite N.eqb_refl in E1. discriminate.
Qed.

(** Two scripts in a row are matched by one script that costs no more. *)
Lemma edits_trans a b n :
  edits a b n -> forall c m, edits b c m -> exists k, edits a c k /\ k <= n + m.
Proof.
  induction 1 as [|x a b n H IH|y a b n H IH|x y a b n H IH].
  - intros c m H2. exists m. split; [exact H2 | lia].
  - intros c m H2. destruct (IH c m H2) as [k [Hk Hle]].
    exists (S k). split; [now apply edits_delete | lia].
  - induction c as [|z c IHc]; intros m H2;
      inversion H2 as [|y' b' c' m' H'|z' b' c' m' H'|y' z' b' c' m' H']; subst.
    + destruct (IH [] m' H') as [k [Hk Hle]]. exists k. split; [exact Hk | lia].
    + destruct (IH (z :: c) m' H') as [k [Hk Hle]]. exists k. split; [exact Hk | lia].
    + destruct (IHc m' H') as [k [Hk Hle]].
      exists (S k). split; [now apply edits_insert | lia].
    + destruct (IH c m' H') as [k [Hk Hle]].
      exists (S k). split; [now apply edits_insert | lia].
  - induction c as [|z c IHc]; intros m H2;
      inversion H2 as [|y' b' c' m' H'|z' b' c' m' H'|y' z' b' c' m' H']; subst.
    + destruct (IH [] m' H') as [k [Hk Hle]].
      exists (S k). split; [now apply edits_delete | lia].
    + destruct (IH (z :: c) m' H') as [k [Hk Hle]].
      exists (S k). split; [now apply edits_delete | lia].
    + destruct (IHc m' H') as [k [Hk Hle]].
      exists (S k). split; [now apply edits_insert | lia].
    + destruct (IH c m' H') as [k [Hk Hle]].
      exists (neq_cost x z + k). split; [now apply edits_subst|].
      pose proof (neq_cost_triangle x y z). lia.
Qed.

End DistanceFacts.

(** X1.  [levenshtein_distance] is a metric on strings: it is 0 exactly for
    equal strings, it is symmetric, and it satisfies the triangle
    inequality. *)
Theorem levenshtein_distance_metric :
  (forall a b, levenshtein_distance a b = 0 <-> a = b)
  /\ (forall a b, levenshtein_distance a b = levenshtein_distance b a)
  /\ (forall a b c,
         levenshtein_distance a c
         <= levenshtein_distance a b + levenshtein_distance b c).
Proof.
  split; [|split].
  - intros a b. destruct (levenshtein_distance_ok a b) as [H M]. split.
    + intros E. apply (edits_zero a b _ H E).
    + intros ->. specialize (M 0 (edits_refl b)). lia.
  - apply levenshtein_distance_sym.
  - intros a b c.
    destruct (levenshtein_distance_ok a b) as [Hab _].
    destruct (levenshtein_distance_ok b c) as [Hbc _].
    destruct (levenshtein_distance_ok a c) as [_ Mac].
    destruct (edits_trans a b _ Hab c _ Hbc) as [k [Hk Hle]].
    apply Mac in Hk. lia.
Qed.

(** X2.  For all strings, in whichever order they are given,
    [levenshtein_distance] returns the cost of a cheapest script of
    insertions, deletions and substitutions; the result is at least the
    difference of the two lengths and at most the larger length. *)
Theorem levenshtein_distance_is_edit_distance a b :
  edit_distance a b (levenshtein_distance a b)
  /\ length a - length b <= levenshtein_distance a b
  /\ length b - length a <= levenshtein_distance a b
  /\ levenshtein_distance a b <= Nat.max (length a) (length b).
Proof.
  pose proof (levenshtein_distance_ok a b) as H.
  split; [exact H|].
  pose proof (edit_distance_le_max a b _ H).
  destruct H as [H _]. apply edits_length in H. lia.
Qed.

(** ** The steps of [deep_clean_text] *)

Section TextSteps.

Variable U : UnicodeData.

Lemma find_close_sub_brackets s :
  find_close s = None -> find_close (sub_brackets_from 0 s) = None.
Proof.
  induction s as [|c s IH]; [reflexivity|]. simpl.
  destruct (is_closer c) eqn:C; [discriminate|].
  destruct (c =? NEWLINE)%N eqn:N.
  - intros _. destruct (is_opener c) eqn:O.
    + (* an opener is not a newline *)
      apply N.eqb_eq in N. subst c. vm_compute in O. discriminate.
    + simpl. now rewrite C, N.
  - intros H. destruct (find_close s) as [n|] eqn:F; [discriminate|].
    destruct (is_opener c); simpl; rewrite C, N, IH; reflexivity.
Qed.

Lemma sub_brackets_from_stable s : forall k,
  sub_brackets_from 0 (sub_brackets_from k s) = sub_brackets_from k s.
Proof.
  induction s as [|c s IH]; intros k; [reflexivity|]. simpl.
  destruct k as [|k]; [|apply IH].
  destruct (is_opener c) eqn:O.
  - destruct (find_close s) as [n|] eqn:F; [apply IH|].
    simpl. rewrite O, (find_close_sub_brackets s F), IH. reflexivity.
  - simpl. rewrite O, IH. reflexivity.
Qed.

Lemma lstrip_length s : length (lstrip U s) <= length s.
Proof.
  induction s as [|c s IH]; simpl; [lia|]. destruct (is_space U c); simpl; lia.
Qed.

Lemma rstrip_length s : length (rstrip U s) <= length s.
Proof.
  induction s as [|c s IH]; simpl; [lia|].
  destruct (rstrip U s); [destruct (is_space U c)|]; simpl in *; lia.
Qed.

Lemma strip_length s : length (strip U s) <= length s.
Proof.
  unfold strip. pose proof (rstrip_length (lstrip U s)). pose proof (lstrip_length s). lia.
Qed.

Lemma sub_brackets_from_length s : forall k, length (sub_brackets_from k s) <= length s.
Proof.
  induction s as [|c s IH]; intros k; simpl; [lia|].
  destruct k as [|k]; [|specialize (IH k); lia].
  destruct (is_opener c); [destruct (find_close s) as [n|]|]; simpl;
    try (specialize (IH 0); lia).
  specialize (IH n). lia.
Qed.

Lemma sub_pattern_from_length pat s : forall k prev,
  length (sub_pattern_from U pat k prev s) <= length s.
Proof.
  induction s as [|c s IH]; intros k prev; simpl; [lia|].
  destruct k as [|k]; [|specialize (IH k (Some c)); lia].
  destruct (match_here U pat prev (c :: s)); simpl.
  - specialize (IH (length pat - 1) (Some c)). lia.
  - specialize (IH 0 (Some c)). lia.
Qed.

Lemma remove_markers_length s : length (remove_markers U s) <= length s.
Proof.
  unfold remove_markers. generalize version_markers as ms.
  intros ms. revert s. induction ms as [|m ms IH]; intros s; simpl; [lia|].
  specialize (IH (sub_marker U m s)).
  pose proof (sub_pattern_from_length (marker_pattern m) s 0 None).
  unfold sub_marker in *. lia.
Qed.

Lemma sub_spaces_from_length s : forall b, length (sub_spaces_from U b s) <= length s.
Proof.
  induction s as [|c s IH]; intros b; simpl; [lia|].
  destruct (is_space U c); [destruct b|]; simpl;
    [specialize (IH true) | specialize (IH true) | specialize (IH false)]; lia.
Qed.

End TextSteps.

(** X3.  One pass of the bracket removal removes every bracket group it can:
    a second pass changes nothing. *)
Theorem sub_brackets_idempotent s : sub_brackets (sub_brackets s) = sub_brackets s.
Proof. apply sub_brackets_from_stable. Qed.

(** X4.  Cleaning never lengthens a text: the result has at most as many
    characters as the lower-cased input, and the empty text stays empty. *)
Theorem deep_clean_text_not_longer U text :
  length (deep_clean_text U text) <= length (py_lower U text)
  /\ deep_clean_text U [] = [].
Proof.
  split; [|reflexivity].
  unfold deep_clean_text. destruct (truthy text); simpl; [|lia].
  pose proof (strip_length U (py_lower U text)).
  pose proof (sub_brackets_from_length (strip U (py_lower U text)) 0).
  pose proof (remove_markers_length U (sub_brackets (strip U (py_lower U text)))).
  pose proof (strip_length U (sub_spaces U (sub_special U
               (remove_markers U (sub_brackets (strip U (py_lower U text))))))).
  pose proof (sub_spaces_from_length U (sub_special U
               (remove_markers U (sub_brackets (strip U (py_lower U text))))) false).
  unfold sub_spaces, sub_brackets, sub_special in *. rewrite length_map in *. lia.
Qed.

(** ** The candidate extractor *)

Section SublistFacts.

Variable A : Type.

Lemma sublist_refl (l : list A) : sublist l l.
Proof. induction l; [apply sublist_nil | apply sublist_keep; assumption]. Qed.

Lemma sublist_nil_l (l : list A) : sublist [] l.
Proof. induction l; [apply sublist_nil | apply sublist_skip; assumption]. Qed.

Lemma sublist_app (l1 l1' l2 l2' : list A) :
  sublist l1 l1' -> sublist l2 l2' -> sublist (l1 ++ l2) (l1' ++ l2').
Proof.
  induction 1; intros H2; simpl;
    [exact H2 | apply sublist_skip; auto | apply sublist_keep; auto].
Qed.

Lemma sublist_trans (l1 l2 l3 : list A) :
  sublist l1 l2 -> sublist l2 l3 -> sublist l1 l3.
Proof.
  intros H12 H23. revert l1 H12.
  induction H23; intros l1 H12.
  - exact H12.
  - apply sublist_skip. auto.
  - inversion H12; subst; [apply sublist_skip | apply sublist_keep]; auto.
Qed.

Lemma sublist_In (l l' : list A) x : sublist l l' -> In x l -> In x l'.
Proof. induction 1; simpl; intuition. Qed.

Lemma sublist_length (l l' : list A) : sublist l l' -> length l <= length l'.
Proof. induction 1; simpl; lia. Qed.

Lemma sublist_NoDup (l l' : list A) : sublist l l' -> NoDup l' -> NoDup l.
Proof.
  induction 1; intros Hnd; [constructor | |]; inversion Hnd; subst; auto.
  constructor; auto. intros Hin. eauto using sublist_In.
Qed.

End SublistFacts.

Section ExtractorFacts.

Variable U : UnicodeData.
Variable os : OS.

Lemma clean_strategy_names raw :
  sublist (map strategy_name (flat_map (clean_strategy U) raw)) (map strategy_name raw).
Proof.
  induction raw as [|[[name artist] title] raw IH]; simpl; [constructor|].
  destruct (truthy _ && truthy _); simpl;
    [apply sublist_keep | apply sublist_skip]; exact IH.
Qed.

Lemma metadata_strategy_names filepath :
  sublist (map strategy_name (metadata_strategy U os filepath)) [str "metadata"].
Proof.
  unfold metadata_strategy.
  destruct (if endswith _ _ then _ else _) as [[[artist|] [title|]]|];
    try apply sublist_nil_l.
  destruct (truthy artist && truthy title); [apply sublist_refl | apply sublist_nil_l].
Qed.

Lemma filename_strategy_names name seps :
  sublist (map strategy_name (flat_map (filename_strategy U name) seps))
          (map (fun sep => str "filename" ++ sep) seps).
Proof.
  induction seps as [|sep seps IH]; simpl; [constructor|].
  rewrite map_app. apply (sublist_app _ _ [_]); [|exact IH].
  unfold filename_strategy.
  destruct (split_first sep name) as [[part0 part1]|]; [|apply sublist_nil_l].
  destruct (truthy _ && truthy _); [apply sublist_refl | apply sublist_nil_l].
Qed.

Lemma filename_rev_strategy_names name seps :
  sublist (map strategy_name (flat_map (filename_rev_strategy U name) seps))
          (map (fun sep => str "filename_rev" ++ sep) seps).
Proof.
  induction seps as [|sep seps IH]; simpl; [constructor|].
  rewrite map_app. apply (sublist_app _ _ [_]); [|exact IH].
  unfold filename_rev_strategy.
  destruct (split_first sep name) as [[part0 part1]|]; [|apply sublist_nil_l].
  destruct (truthy _ && truthy _); [|apply sublist_nil_l].
  destruct (_ <=? 15); [apply sublist_refl | apply sublist_nil_l].
Qed.

Lemma regex_strategies_names name :
  sublist (map strategy_name (regex_strategies U name))
          [str "regex_artist-title"; str "regex_title-artist"; str "regex_artist-feat"].
Proof.
  unfold regex_strategies. rewrite !map_app.
  apply (sublist_app _ _ [_] _ [_; _]); [|apply (sublist_app _ _ [_] _ [_])].
  - destruct (re_match _ name) as [[g1 g2]|]; [apply sublist_refl | apply sublist_nil_l].
  - destruct (re_match _ name) as [[g1 g2]|]; [apply sublist_refl | apply sublist_nil_l].
  - destruct (re_match _ name) as [[g1 g2]|]; [apply sublist_refl | apply sublist_nil_l].
Qed.

Lemma raw_strategies_names filepath filename :
  sublist (map strategy_name (raw_strategies U os filepath filename)) STRATEGY_NAMES.
Proof.
  unfold raw_strategies, STRATEGY_NAMES. cbv zeta. rewrite !map_app.
  repeat apply sublist_app.
  - apply metadata_strategy_names.
  - apply filename_strategy_names.
  - unfold reversed_strategies.
    destruct (_ || _); [apply filename_rev_strategy_names | apply sublist_nil_l].
  - apply regex_strategies_names.
Qed.

Lemma strategy_names_NoDup : NoDup STRATEGY_NAMES.
Proof.
  apply (NoDup_count_occ' (list_eq_dec N.eq_dec)).
  intros x Hx. vm_compute in Hx.
  repeat (destruct Hx as [<-|Hx]; [vm_compute; reflexivity|]). destruct Hx.
Qed.

Lemma extract_names filepath filename :
  sublist (map strategy_name (extract_artist_title_comprehensive U os filepath filename))
          STRATEGY_NAMES.
Proof.
  unfold extract_artist_title_comprehensive.
  eapply sublist_trans; [apply clean_strategy_names | apply raw_strategies_names].
Qed.

End ExtractorFacts.

Section SplitFacts.

Lemma startswith_In p s c : startswith p s = true -> In c p -> In c s.
Proof.
  revert s. induction p as [|x p IH]; intros s H Hin; [destruct Hin|].
  destruct s as [|y s]; [discriminate|]. simpl in H.
  apply andb_true_iff in H. destruct H as [E H]. apply N.eqb_eq in E. subst y.
  destruct Hin as [<-|Hin]; [now left | right; eauto].
Qed.

Lemma split_first_In sep s l r c :
  split_first sep s = Some (l, r) -> In c sep -> In c s.
Proof.
  revert l. induction s as [|y s IH]; intros l H Hin.
  - simpl in H. destruct (startswith sep []) eqn:E; [|discriminate].
    eapply startswith_In; eauto.
  - cbn [split_first] in H. destruct (startswith sep (y :: s)) eqn:E.
    + eapply startswith_In; eauto.
    + destruct (split_first sep s) as [[l' r']|] eqn:F; [|discriminate].
      injection H as _ <-. right. eapply IH; eauto.
Qed.

Lemma split_first_absent sep s c :
  In c sep -> ~ In c s -> split_first sep s = None.
Proof.
  intros Hin Hs. destruct (split_first sep s) as [[l r]|] eqn:E; [|reflexivity].
  exfalso. eauto using split_first_In.
Qed.

Lemma take_drop_while p s : take_while p s ++ drop_while p s = s.
Proof.
  induction s as [|c s IH]; simpl; [reflexivity|].
  destruct (p c); simpl; [now rewrite IH | reflexivity].
Qed.

Lemma take_while_all p s : forallb p s = true -> take_while p s = s.
Proof.
  induction s as [|c s IH]; simpl; [reflexivity|].
  destruct (p c); simpl; [intros H; now rewrite IH | discriminate].
Qed.

Lemma drop_while_all p s : forallb p s = true -> drop_while p s = [].
Proof.
  induction s as [|c s IH]; simpl; [reflexivity|].
  destruct (p c); simpl; [exact IH | discriminate].
Qed.

Lemma take_while_forallb p s : forallb p (take_while p s) = true.
Proof.
  induction s as [|c s IH]; simpl; [reflexivity|].
  destruct (p c) eqn:E; simpl; [now rewrite E | reflexivity].
Qed.

Lemma drop_while_head p s c r : drop_while p s = c :: r -> p c = false.
Proof.
  induction s as [|x s IH]; simpl; [discriminate|].
  destruct (p x) eqn:E; [exact IH | intros [= <- _]; exact E].
Qed.

Lemma startswith_refl s t : startswith s (s ++ t) = true.
Proof. induction s as [|c s IH]; simpl; [reflexivity|]. now rewrite N.eqb_refl. Qed.

Lemma startswith_prefix sep s : startswith sep s = true -> s = sep ++ skipn (length sep) s.
Proof.
  revert s. induction sep as [|c sep IH]; intros s H; [reflexivity|].
  destruct s as [|x s]; [discriminate|]. simpl in H.
  apply andb_true_iff in H. destruct H as [E H]. apply N.eqb_eq in E. subst x.
  simpl. f_equal. now apply IH.
Qed.

Lemma split_first_cut sep s : forall part0 part1,
  split_first sep s = Some (part0, part1) -> first_cut sep s part0 part1.
Proof.
  induction s as [|c s IH]; intros part0 part1 H.
  - simpl in H. destruct (startswith sep []) eqn:E; [|discriminate].
    injection H as <- <-. split; [now apply startswith_prefix | simpl; lia].
  - cbn [split_first] in H. destruct (startswith sep (c :: s)) eqn:E.
    + injection H as <- <-. split; [now apply startswith_prefix | simpl; lia].
    + destruct (split_first sep s) as [[l r]|] eqn:F; [|discriminate].
      injection H as <- <-. destruct (IH l r eq_refl) as [E1 E2]. split.
      * simpl. now rewrite <- E1.
      * intros before after Hd. destruct before as [|x before].
        -- simpl in Hd. rewrite Hd, startswith_refl in E. discriminate.
        -- simpl in Hd. injection Hd as -> Hd. simpl.
           specialize (E2 before after Hd). lia.
Qed.

End SplitFacts.

Section RegexFacts.

Variable U : UnicodeData.

Let sep := is_sep U.
Let nonsep := fun c => negb (is_sep U c).

Lemma rest_group_line s :
  forallb not_newline s = true ->
  rest_group s = if truthy s then Some s else None.
Proof.
  intros H. unfold rest_group. rewrite take_while_all, drop_while_all by exact H.
  reflexivity.
Qed.

(** A run of separators cannot start at a character that is none. *)
Lemma seps_then_nonsep k c s : is_sep U c = false -> seps_then U k (c :: s) = None.
Proof. intros H. unfold seps_then. simpl. now rewrite H. Qed.

Lemma seps_then_nil k : seps_then U k [] = None.
Proof. reflexivity. Qed.

(** The lazy group runs over the characters that are no separators. *)
Lemma lazy_group_skip k pre : forall group1 rest,
  forallb nonsep pre = true ->
  forallb not_newline pre = true ->
  lazy_group (seps_then U k) group1 (pre ++ rest)
  = lazy_group (seps_then U k) (group1 ++ pre) rest.
Proof.
  induction pre as [|c pre IH]; intros group1 rest Hs Hn; simpl.
  - now rewrite app_nil_r.
  - simpl in Hs, Hn. apply andb_true_iff in Hs, Hn.
    destruct Hs as [Hc Hs], Hn as [Hnc Hn].
    unfold nonsep in Hc. apply negb_true_iff in Hc.
    rewrite (seps_then_nonsep k c (pre ++ rest) Hc), Hnc.
    rewrite IH by assumption. now rewrite <- app_assoc.
Qed.

Lemma lazy_group_no_separator k s : forall group1,
  forallb nonsep s = true ->
  lazy_group (seps_then U k) group1 s = None.
Proof.
  induction s as [|c s IH]; intros group1 H; simpl.
  - reflexivity.
  - simpl in H. apply andb_true_iff in H. destruct H as [Hc H].
    unfold nonsep in Hc. apply negb_true_iff in Hc.
    rewrite (seps_then_nonsep k c s Hc).
    destruct (not_newline c); [now apply IH | reflexivity].
Qed.

Lemma re_match_no_separator k name :
  forallb nonsep name = true -> re_match (seps_then U k) name = None.
Proof.
  intros H. destruct name as [|c s]; [reflexivity|]. simpl in *.
  apply andb_true_iff in H. destruct H as [_ H].
  destruct (not_newline c); [now apply lazy_group_no_separator | reflexivity].
Qed.

Lemma forallb_app_inv (A : Type) (p : A -> bool) l1 l2 :
  forallb p (l1 ++ l2) = true -> forallb p l1 = true /\ forallb p l2 = true.
Proof. rewrite forallb_app. apply andb_true_iff. Qed.

(** The greedy run followed by the rest of the line. *)
Lemma try_runs_rest run : forall after j,
  forallb not_newline (run ++ after) = true ->
  j <= length run ->
  try_runs rest_group j (run ++ after)
  = match j with
    | 0 => None
    | S _ =>
        if (j =? length run) && negb (truthy after)
        then (match j with
              | S (S _) => Some (skipn (j - 1) run)
              | _ => None
              end)
        else Some (skipn j run ++ after)
    end.
Proof.
  intros after j Hn Hj. destruct j as [|j]; [reflexivity|].
  cbn [try_runs].
  assert (Hskip : forall i, i <= length run ->
                            skipn i (run ++ after) = skipn i run ++ after).
  { intros i Hi. rewrite skipn_app. replace (i - length run) with 0 by lia.
    reflexivity. }
  assert (Hline : forall i, forallb not_newline (skipn i (run ++ after)) = true).
  { intros i. rewrite <- (firstn_skipn i (run ++ after)) in Hn.
    now apply forallb_app_inv in Hn. }
  rewrite rest_group_line by apply Hline.
  rewrite Hskip by exact Hj.
  destruct (S j =? length run) eqn:E; cbn [andb].
  - apply Nat.eqb_eq in E. rewrite E, skipn_all. cbn [app].
    destruct after as [|a after]; cbn [truthy negb]; [|reflexivity].
    rewrite <- E.
    destruct j as [|j]; [reflexivity|]. cbn [try_runs].
    rewrite rest_group_line by apply Hline.
    rewrite Hskip by lia. rewrite app_nil_r.
    replace (S (S j) - 1) with (S j) by lia.
    assert (L : length (skipn (S j) run) = 1) by (rewrite length_skipn; lia).
    destruct (skipn (S j) run) as [|x [|y r]]; try discriminate. reflexivity.
  - apply Nat.eqb_neq in E.
    assert (L : 0 < length (skipn (S j) run)) by (rewrite length_skipn; lia).
    destruct (skipn (S j) run) as [|x r]; [simpl in L; lia | reflexivity].
Qed.

Lemma skipn_last (run : pystr) :
  2 <= length run -> skipn (length run - 1) run = [last run 0%N].
Proof.
  intros H. rewrite <- (rev_involutive run) at 2 3.
  destruct (rev run) as [|x r] eqn:E.
  - apply (f_equal (@length _)) in E. rewrite length_rev in E. simpl in E. lia.
  - simpl. rewrite last_last.
    assert (L : length run - 1 = length (rev r)).
    { apply (f_equal (@length _)) in E. rewrite length_rev in E. simpl in E.
      rewrite length_rev. lia. }
    rewrite L, skipn_app, skipn_all, Nat.sub_diag. reflexivity.
Qed.

Lemma seps_then_rest rest :
  forallb not_newline rest = true ->
  seps_then U rest_group rest
  = match drop_while sep rest with
    | (_ :: _) as group2 => if truthy (take_while sep rest) then Some group2 else None
    | [] =>
        match take_while sep rest with
        | (_ :: _ :: _) as run => Some [last run 0%N]
        | _ => None
        end
    end.
Proof.
  intros Hn. unfold seps_then. fold sep.
  pose proof (take_drop_while sep rest) as E.
  set (run := take_while sep rest) in *. set (after := drop_while sep rest) in *.
  rewrite <- E. rewrite <- E in Hn.
  rewrite (try_runs_rest run after (length run) Hn (Nat.le_refl _)).
  rewrite Nat.eqb_refl, skipn_all. cbn [andb app].
  destruct run as [|x [|y run]].
  - destruct after; reflexivity.
  - destruct after; reflexivity.
  - destruct after as [|a after]; cbn [truthy negb]; [|reflexivity].
    rewrite (skipn_last (x :: y :: run)) by (simpl; lia). reflexivity.
Qed.

Lemma re_match_artist_title name :
  forallb not_newline name = true ->
  re_match (pattern_artist_title U) name = first_separator_split U name.
Proof.
  intros Hn. destruct name as [|c s]; [reflexivity|].
  unfold re_match, first_separator_split, pattern_artist_title.
  simpl in Hn. apply andb_true_iff in Hn. destruct Hn as [Hc Hn]. rewrite Hc.
  fold nonsep. fold sep.
  pose proof (take_drop_while nonsep s) as Es.
  pose proof (take_while_forallb nonsep s) as Hpre.
  pose proof (drop_while_head nonsep s) as Hhead.
  set (pre := take_while nonsep s) in *. set (rest := drop_while nonsep s) in *.
  rewrite <- Es in Hn. apply forallb_app_inv in Hn. destruct Hn as [Hn1 Hn2].
  rewrite <- Es at 1. rewrite lazy_group_skip by assumption. cbn [app].
  destruct rest as [|x rest']; [reflexivity|].
  assert (Hx : sep x = true).
  { specialize (Hhead x rest' eq_refl). unfold nonsep in Hhead.
    now apply negb_false_iff in Hhead. }
  cbn [lazy_group]. rewrite (seps_then_rest (x :: rest') Hn2).
  cbn [take_while drop_while]. rewrite Hx.
  destruct (drop_while sep rest') as [|a after] eqn:Ea; [|reflexivity].
  destruct (take_while sep rest') as [|y run] eqn:Et; [|reflexivity].
  pose proof (take_drop_while sep rest') as Er. rewrite Ea, Et in Er. subst rest'.
  simpl in Hn2. apply andb_true_iff in Hn2. destruct Hn2 as [-> _]. reflexivity.
Qed.

End RegexFacts.
Section PlainNames.

Variable U : UnicodeData.
Hypothesis laws : UnicodeLaws U.

Lemma plain_no_sep name c :
  forallb (plain_char U) name = true -> In c name -> is_sep U c = false /\ c <> TILDE.
Proof.
  intros H Hin. rewrite forallb_forall in H. specialize (H c Hin).
  unfold plain_char in H. apply andb_true_iff in H. destruct H as [H1 H2].
  apply negb_true_iff in H1, H2. apply N.eqb_neq in H2. auto.
Qed.

Lemma is_sep_space : is_sep U SPACE = true.
Proof. unfold is_sep, is_space. now rewrite (space_isspace U laws). Qed.

Lemma plain_split name sep :
  forallb (plain_char U) name = true -> In sep separators -> split_first sep name = None.
Proof.
  intros H Hin.
  assert (G : exists c, In c sep /\ (is_sep U c = true \/ c = TILDE)).
  { unfold separators in Hin. simpl in Hin.
    destruct Hin as [<-|[<-|[<-|[<-|[<-|[<-|[]]]]]]].
    - exists SPACE. split; [now left | left; apply is_sep_space].
    - exists SPACE. split; [now left | left; apply is_sep_space].
    - exists SPACE. split; [now left | left; apply is_sep_space].
    - exists HYPHEN. split; [now left | left]. unfold is_sep.
      rewrite N.eqb_refl. now rewrite orb_true_r.
    - exists UNDERSCORE. split; [now left | left]. unfold is_sep.
      rewrite N.eqb_refl. now rewrite orb_true_r.
    - exists TILDE. split; [now left | now right]. }
  destruct G as [c [Hc Hs]]. apply (split_first_absent sep name c Hc).
  intros Hn. destruct (plain_no_sep name c H Hn) as [N1 N2].
  destruct Hs; congruence.
Qed.

Lemma plain_nonsep name :
  forallb (plain_char U) name = true ->
  forallb (fun c => negb (is_sep U c)) name = true.
Proof.
  intros H. apply forallb_forall. intros c Hc.
  destruct (plain_no_sep name c H Hc) as [-> _]. reflexivity.
Qed.

Lemma plain_raw_strategies os filepath filename :
  forallb (plain_char U) (splitext_root os filename) = true ->
  raw_strategies U os filepath filename = metadata_strategy U os filepath.
Proof.
  intros H. unfold raw_strategies. cbv zeta.
  set (name := splitext_root os filename) in *.
  assert (F : forall seps, incl seps separators ->
                           flat_map (filename_strategy U name) seps = []).
  { induction seps as [|sep seps IH]; intros Hi; simpl; [reflexivity|].
    rewrite IH by (intros x Hx; apply Hi; now right).
    unfold filename_strategy.
    rewrite (plain_split name sep H) by (apply Hi; now left). reflexivity. }
  rewrite (F separators) by apply incl_refl.
  assert (R : reversed_strategies U name = []).
  { unfold reversed_strategies, contains.
    rewrite !(plain_split name _ H) by (unfold separators; simpl; tauto).
    reflexivity. }
  rewrite R.
  assert (X : regex_strategies U name = []).
  { unfold regex_strategies, pattern_artist_title, pattern_title_artist,
      pattern_artist_feat.
    rewrite !(re_match_no_separator U _ name (plain_nonsep name H)). reflexivity. }
  rewrite X. now rewrite !app_nil_r.
Qed.

End PlainNames.

Section SplitShape.

Variable U : UnicodeData.

Lemma first_separator_split_shape name group1 group2 :
  first_separator_split U name = Some (group1, group2) ->
  exists run,
    name = group1 ++ run ++ group2
    /\ run <> [] /\ forallb (is_sep U) run = true
    /\ group1 <> [] /\ forallb (fun c => negb (is_sep U c)) (tl group1) = true
    /\ group2 <> [].
Proof.
  destruct name as [|c s]; [discriminate|]. unfold first_separator_split.
  pose proof (take_drop_while (fun c => negb (is_sep U c)) s) as Es.
  pose proof (take_while_forallb (fun c => negb (is_sep U c)) s) as Hpre.
  pose proof (drop_while_head (fun c => negb (is_sep U c)) s) as Hhead.
  set (pre := take_while _ s) in *. set (rest := drop_while _ s) in *.
  pose proof (take_drop_while (is_sep U) rest) as Er.
  pose proof (take_while_forallb (is_sep U) rest) as Hrun.
  pose proof (drop_while_head (is_sep U) rest) as Hafter.
  set (run := take_while (is_sep U) rest) in *.
  set (after := drop_while (is_sep U) rest) in *.
  destruct after as [|a after'] eqn:Ea.
  - destruct run as [|x [|y run']] eqn:Erun; try discriminate.
    intros [= <- <-].
    exists (removelast (x :: y :: run')).
    assert (Hne : x :: y :: run' <> []) by discriminate.
    pose proof (app_removelast_last 0%N Hne) as Hl.
    repeat split; try discriminate.
    + rewrite <- Es, <- Er, app_nil_r. rewrite Hl at 1. reflexivity.
    + rewrite Hl in Hrun. apply forallb_app_inv in Hrun. apply Hrun.
    + exact Hpre.
  - intros [= <- <-]. exists run.
    repeat split; try discriminate.
    + rewrite <- Es, <- Er. reflexivity.
    + intros E. rewrite E in Er. simpl in Er.
      destruct rest as [|x rest']; [discriminate|].
      injection Er as -> ->.
      specialize (Hhead _ _ eq_refl). specialize (Hafter _ _ eq_refl).
      rewrite Hafter in Hhead. discriminate.
    + exact Hrun.
    + exact Hpre.
Qed.

End SplitShape.

(** X5.  The interpretations of a file come in the order in which the
    strategies are tried (tags, the six separators, the two reversed
    separators, the three patterns), each strategy gives at most one, and so
    a file has at most twelve. *)
Theorem interpretations_follow_the_strategy_order U os filepath filename :
  sublist (map strategy_name
               (extract_artist_title_comprehensive U os filepath filename))
          STRATEGY_NAMES
  /\ NoDup (map strategy_name
                (extract_artist_title_comprehensive U os filepath filename))
  /\ length (extract_artist_title_comprehensive U os filepath filename) <= 12.
Proof.
  pose proof (extract_names U os filepath filename) as H.
  split; [exact H|]. split.
  - apply (sublist_NoDup _ _ _ H), strategy_names_NoDup.
  - apply sublist_length in H. rewrite length_map in H. exact H.
Qed.

(** X6.  A file name that, without its extension, has no blank, hyphen,
    underscore or tilde gets no interpretation from its name: the tags are
    its only source, and without usable tags it has none. *)
Theorem name_without_separator_has_only_tag_interpretations U os filepath filename :
  UnicodeLaws U ->
  forallb (plain_char U) (splitext_root os filename) = true ->
  extract_artist_title_comprehensive U os filepath filename
  = flat_map (clean_strategy U) (metadata_strategy U os filepath).
Proof.
  intros laws H. unfold extract_artist_title_comprehensive.
  now rewrite (plain_raw_strategies U laws os filepath filename H).
Qed.

(** X7.  On a name without newline the pattern [^(.+?)[\s\-_]+(.+)$] cuts at
    the first separator after the first character: the first group has no
    separator after its first character, a run of separators follows it, and
    the second group is the rest (so an artist of several words loses all
    but the first word to the title). *)
Theorem regex_artist_title_splits_at_first_separator U name :
  forallb not_newline name = true ->
  re_match (pattern_artist_title U) name = first_separator_split U name
  /\ forall group1 group2,
      re_match (pattern_artist_title U) name = Some (group1, group2) ->
      exists run,
        name = group1 ++ run ++ group2
        /\ run <> [] /\ forallb (is_sep U) run = true
        /\ group1 <> [] /\ forallb (fun c => negb (is_sep U c)) (tl group1) = true
        /\ group2 <> [].
Proof.
  intros H. rewrite (re_match_artist_title U name H). split; [reflexivity|].
  apply first_separator_split_shape.
Qed.

(** X8.  An interpretation of the filename and reversed-filename strategies
    comes from the cut at the first occurrence of the separator: both parts
    are stripped and must be non-empty, the strategy name ends in the
    separator, and the reversed reading swaps the two parts and is kept only
    when the artist has at most 15 characters. *)
Theorem filename_strategies_cut_at_the_first_separator U name sep s :
  In s (filename_strategy U name sep ++ filename_rev_strategy U name sep) ->
  exists part0 part1,
    first_cut sep name part0 part1
    /\ strip U part0 <> [] /\ strip U part1 <> []
    /\ (s = (str "filename" ++ sep, strip U part0, strip U part1)
        \/ (s = (str "filename_rev" ++ sep, strip U part1, strip U part0)
            /\ length (strip U part1) <= 15)).
Proof.
  unfold filename_strategy, filename_rev_strategy.
  destruct (split_first sep name) as [[part0 part1]|] eqn:E; [|intros []].
  apply split_first_cut in E. intros H. exists part0, part1.
  split; [exact E|].
  destruct (strip U part0) as [|a0 l0] eqn:E0; [destruct (truthy (strip U part1)); destruct H|].
  destruct (strip U part1) as [|a1 l1] eqn:E1; [destruct H|].
  cbn [truthy andb] in H. split; [discriminate|]. split; [discriminate|].
  destruct H as [<-|H]; [now left|].
  destruct (length (a1 :: l1) <=? 15) eqn:L; [|destruct H].
  destruct H as [<-|[]]. right. split; [reflexivity|]. now apply Nat.leb_le.
Qed.

(** ** Dictionaries and counters *)

Section DictLookup.

Variables (K V : Type) (eqb : K -> K -> bool).
Hypothesis eqb_eq : forall a b, eqb a b = true <-> a = b.

Lemma eqb_refl_of k : eqb k k = true.
Proof. now apply eqb_eq. Qed.

Lemma dict_get_set (d : dict K V) k v x :
  dict_get eqb (dict_set eqb d k v) x = if eqb x k then Some v else dict_get eqb d x.
Proof.
  induction d as [|[k' v'] d IH]; simpl; [reflexivity|].
  destruct (eqb k k') eqn:E; simpl.
  - apply eqb_eq in E. subst k'. destruct (eqb x k); reflexivity.
  - rewrite IH. destruct (eqb x k') eqn:E1, (eqb x k) eqn:E2; try reflexivity.
    apply eqb_eq in E1, E2. subst. rewrite eqb_refl_of in E. discriminate.
Qed.

Definition get_or_nil (W : Type) (d : dict K (list W)) (k : K) : list W :=
  match dict_get eqb d k with Some l => l | None => [] end.

Lemma dict_append_get_or_nil (W : Type) (d : dict K (list W)) k x k0 :
  get_or_nil W (dict_append eqb d k x) k0
  = get_or_nil W d k0 ++ (if eqb k0 k then [x] else []).
Proof.
  unfold get_or_nil. induction d as [|[k' l] d IH]; simpl.
  - destruct (eqb k0 k); reflexivity.
  - destruct (eqb k k') eqn:E; simpl.
    + apply eqb_eq in E. subst k'.
      destruct (eqb k0 k); [reflexivity | now rewrite app_nil_r].
    + destruct (eqb k0 k') eqn:E1; [|exact IH].
      destruct (eqb k0 k) eqn:E2; [|now rewrite app_nil_r].
      apply eqb_eq in E1, E2. subst. rewrite eqb_refl_of in E. discriminate.
Qed.

Lemma dict_append_keys (W : Type) (d : dict K (list W)) k x :
  dict_keys (dict_append eqb d k x)
  = if existsb (eqb k) (dict_keys d) then dict_keys d else dict_keys d ++ [k].
Proof.
  induction d as [|[k' l] d IH]; simpl; [reflexivity|].
  destruct (eqb k k') eqn:E; simpl; [reflexivity|].
  unfold dict_keys in *. rewrite IH.
  destruct (existsb (eqb k) (map fst d)); reflexivity.
Qed.

Lemma dict_append_NoDup (W : Type) (d : dict K (list W)) k x :
  NoDup (dict_keys d) -> NoDup (dict_keys (dict_append eqb d k x)).
Proof.
  intros H. rewrite dict_append_keys.
  destruct (existsb (eqb k) (dict_keys d)) eqn:E; [exact H|].
  apply NoDup_app; [exact H | repeat constructor; simpl; tauto |].
  intros y Hy [<-|[]].
  apply (existsb_eqb_In K eqb eqb_eq) in Hy. congruence.
Qed.

End DictLookup.

Section CounterFacts.

Lemma counter_add_get patterns label x :
  dict_get pystr_eqb (counter_add patterns label) x
  = if pystr_eqb x label then Some (get_count patterns label + 1)
    else dict_get pystr_eqb patterns x.
Proof.
  unfold counter_add, get_count.
  destruct (dict_get pystr_eqb patterns label) as [n|];
    rewrite (dict_get_set _ _ pystr_eqb pystr_eqb_eq); reflexivity.
Qed.

Lemma counter_add_count patterns label x :
  get_count (counter_add patterns label) x
  = get_count patterns x + (if pystr_eqb x label then 1 else 0).
Proof.
  unfold get_count at 1. rewrite counter_add_get.
  destruct (pystr_eqb x label) eqn:E.
  - apply pystr_eqb_eq in E. now subst.
  - unfold get_count. destruct (dict_get pystr_eqb patterns x); lia.
Qed.

Lemma dict_set_sum (patterns : dict pystr nat) label v :
  list_sum (map snd (dict_set pystr_eqb patterns label v)) + get_count patterns label
  = list_sum (map snd patterns) + v.
Proof.
  unfold get_count.
  induction patterns as [|[k n] patterns IH]; simpl; [lia|].
  destruct (pystr_eqb label k); simpl; lia.
Qed.

Lemma counter_add_sum patterns label :
  list_sum (map snd (counter_add patterns label)) = list_sum (map snd patterns) + 1.
Proof.
  pose proof (dict_set_sum patterns label (get_count patterns label + 1)) as H.
  unfold counter_add, get_count in *.
  destruct (dict_get pystr_eqb patterns label) as [n|]; simpl in *; lia.
Qed.

Lemma counter_add_NoDup patterns label :
  NoDup (dict_keys patterns) -> NoDup (dict_keys (counter_add patterns label)).
Proof.
  intros H. unfold counter_add.
  destruct (dict_get pystr_eqb patterns label);
    now apply (dict_set_NoDup _ _ pystr_eqb pystr_eqb_eq).
Qed.

Lemma counter_add_positive patterns label :
  positive_counts patterns -> positive_counts (counter_add patterns label).
Proof.
  intros H x n. rewrite counter_add_get.
  destruct (pystr_eqb x label); [intros [= <-]; lia | apply H].
Qed.

Lemma filter_andb_length (A : Type) (p q : A -> bool) (l : list A) :
  length (filter (fun x => p x && q x) l) <= length (filter p l).
Proof.
  induction l as [|x l IH]; simpl; [lia|].
  destruct (p x), (q x); simpl; lia.
Qed.

(** Counting the elements of a list under the label [f] gives them. *)
Variables (A : Type) (f : A -> pystr).

Lemma counter_fold_count (l : list A) : forall patterns label,
  get_count (fold_left (fun patterns x => counter_add patterns (f x)) l patterns) label
  = get_count patterns label + length (filter (fun x => pystr_eqb label (f x)) l).
Proof.
  induction l as [|x l IH]; intros patterns label; simpl; [lia|].
  rewrite IH, counter_add_count.
  destruct (pystr_eqb label (f x)); simpl; lia.
Qed.

Lemma counter_fold_positive (l : list A) : forall patterns,
  positive_counts patterns ->
  positive_counts (fold_left (fun patterns x => counter_add patterns (f x)) l patterns).
Proof.
  induction l as [|x l IH]; intros patterns H; simpl; [exact H|].
  apply IH, counter_add_positive, H.
Qed.

Lemma counter_fold_sum (l : list A) : forall patterns,
  list_sum (map snd (fold_left (fun patterns x => counter_add patterns (f x)) l patterns))
  = list_sum (map snd patterns) + length l.
Proof.
  induction l as [|x l IH]; intros patterns; simpl; [lia|].
  rewrite IH, counter_add_sum. lia.
Qed.

Lemma counter_fold_NoDup (l : list A) : forall patterns,
  NoDup (dict_keys patterns) ->
  NoDup (dict_keys (fold_left (fun patterns x => counter_add patterns (f x)) l patterns)).
Proof.
  induction l as [|x l IH]; intros patterns H; simpl; [exact H|].
  apply IH, counter_add_NoDup, H.
Qed.

(** What a lookup gives after the counting. *)
Lemma counter_fold_get (l : list A) patterns label :
  positive_counts patterns ->
  dict_get pystr_eqb
           (fold_left (fun patterns x => counter_add patterns (f x)) l patterns) label
  = match get_count patterns label + length (filter (fun x => pystr_eqb label (f x)) l) with
    | 0 => None
    | S n => Some (S n)
    end.
Proof.
  intros P. pose proof (counter_fold_count l patterns label) as E.
  pose proof (counter_fold_positive l patterns P label) as Q.
  unfold get_count at 1 in E.
  destruct (dict_get pystr_eqb _ label) as [n|].
  - specialize (Q n eq_refl). rewrite <- E. destruct n; [lia | reflexivity].
  - now rewrite <- E.
Qed.

End CounterFacts.

(** ** The indices of [build_smart_index] *)

Section IndexLookup.

Variable U : UnicodeData.
Variable os : OS.
Variable folder_path : pystr.

Let extract (filename : pystr) : list interpretation :=
  extract_artist_title_comprehensive U os (path_join os folder_path filename) filename.

Lemma index_step_get st filename x :
  dict_get pystr_eqb (st_index (index_step U os folder_path st filename)) x
  = if pystr_eqb x filename && qualifies U os folder_path filename
    then Some (extract filename)
    else dict_get pystr_eqb (st_index st) x.
Proof.
  unfold index_step, qualifies, regular_audio, parsed, extract.
  destruct (isfile os (path_join os folder_path filename)); simpl;
    [|now rewrite andb_false_r].
  destruct (is_audio_name U filename); simpl; [|now rewrite andb_false_r].
  destruct (extract_artist_title_comprehensive U os _ filename) as [|s l]; simpl.
  - now rewrite andb_false_r.
  - rewrite (dict_get_set _ _ pystr_eqb pystr_eqb_eq), andb_true_r. reflexivity.
Qed.

Lemma index_fold_get names : forall st x,
  dict_get pystr_eqb (st_index (fold_left (index_step U os folder_path) names st)) x
  = if existsb (pystr_eqb x) names && qualifies U os folder_path x
    then Some (extract x)
    else dict_get pystr_eqb (st_index st) x.
Proof.
  induction names as [|n names IH]; intros st x; simpl; [reflexivity|].
  rewrite IH, index_step_get.
  destruct (pystr_eqb x n) eqn:E; simpl.
  - apply pystr_eqb_eq in E. subst n.
    destruct (qualifies U os folder_path x), (existsb (pystr_eqb x) names); reflexivity.
  - reflexivity.
Qed.

Lemma index_step_keys st filename :
  dict_keys (st_index (index_step U os folder_path st filename))
  = if qualifies U os folder_path filename
       && negb (existsb (pystr_eqb filename) (dict_keys (st_index st)))
    then dict_keys (st_index st) ++ [filename]
    else dict_keys (st_index st).
Proof.
  unfold index_step, qualifies, regular_audio, parsed.
  destruct (isfile os (path_join os folder_path filename)); simpl; [|reflexivity].
  destruct (is_audio_name U filename); simpl; [|reflexivity].
  destruct (extract_artist_title_comprehensive U os _ filename) as [|s l]; simpl;
    [reflexivity|].
  rewrite (dict_set_keys _ _ pystr_eqb).
  destruct (existsb (pystr_eqb filename) (dict_keys (st_index st))); reflexivity.
Qed.

Lemma index_fold_keys names : forall st,
  NoDup names ->
  (forall n, In n names -> ~ In n (dict_keys (st_index st))) ->
  dict_keys (st_index (fold_left (index_step U os folder_path) names st))
  = dict_keys (st_index st) ++ filter (qualifies U os folder_path) names.
Proof.
  induction names as [|n names IH]; intros st Hnd Hfresh; simpl;
    [now rewrite app_nil_r|].
  inversion Hnd as [|? ? Hn Hnd']; subst.
  assert (E : existsb (pystr_eqb n) (dict_keys (st_index st)) = false).
  { destruct (existsb (pystr_eqb n) (dict_keys (st_index st))) eqn:E; [|reflexivity].
    apply (existsb_eqb_In _ pystr_eqb pystr_eqb_eq) in E.
    exfalso. apply (Hfresh n); [now left | exact E]. }
  rewrite IH; [| exact Hnd' |].
  - rewrite index_step_keys, E, andb_true_r.
    destruct (qualifies U os folder_path n); [now rewrite <- app_assoc | reflexivity].
  - intros m Hm. rewrite index_step_keys, E, andb_true_r.
    destruct (qualifies U os folder_path n).
    + rewrite in_app_iff. intros [H|[<-|[]]]; [|contradiction].
      apply (Hfresh m); [now right | exact H].
    + apply Hfresh. now right.
Qed.

(** The counters of the first loop. *)
Lemma index_fold_counters names : forall st,
  let st' := fold_left (index_step U os folder_path) names st in
  st_total st' = st_total st + length names
  /\ st_audio st' = st_audio st + length (filter (regular_audio U os folder_path) names)
  /\ st_unparsed st'
     = st_unparsed st
       ++ filter (fun n => regular_audio U os folder_path n
                           && negb (parsed U os folder_path n)) names.
Proof.
  induction names as [|n names IH]; intros st; simpl.
  - rewrite app_nil_r. repeat split; lia.
  - destruct (IH (index_step U os folder_path st n)) as (T & A & P).
    cbv zeta in *. rewrite T, A, P. clear T A P IH.
    unfold index_step, regular_audio, parsed.
    destruct (isfile os (path_join os folder_path n)); simpl;
      [|repeat split; lia].
    destruct (is_audio_name U n); simpl; [|repeat split; lia].
    destruct (extract_artist_title_comprehensive U os _ n) as [|s l]; simpl;
      repeat split; try lia.
    now rewrite <- app_assoc.
Qed.

End IndexLookup.

Section ReverseLookup.

Lemma file_keys_get_or_nil reverse filename strategies k :
  get_or_nil key key_eqb pystr (file_keys reverse (filename, strategies)) k
  = get_or_nil key key_eqb pystr reverse k
    ++ map (fun _ => filename) (filter (has_key k) strategies).
Proof.
  unfold file_keys. revert reverse.
  induction strategies as [|[[s a] t] strategies IH]; intros reverse; simpl.
  - now rewrite app_nil_r.
  - rewrite IH, (dict_append_get_or_nil _ key_eqb key_eqb_eq).
    unfold has_key at 2. simpl. rewrite <- app_assoc.
    destruct (key_eqb k (a, t)); reflexivity.
Qed.

Lemma build_reverse_get_or_nil index : forall reverse k,
  get_or_nil key key_eqb pystr (fold_left file_keys index reverse) k
  = get_or_nil key key_eqb pystr reverse k ++ bucket_of index k.
Proof.
  unfold bucket_of.
  induction index as [|[filename strategies] index IH]; intros reverse k;
    cbn [fold_left flat_map].
  - now rewrite app_nil_r.
  - rewrite IH, file_keys_get_or_nil, <- app_assoc. reflexivity.
Qed.

Lemma file_keys_NoDup reverse entry :
  NoDup (dict_keys reverse) -> NoDup (dict_keys (file_keys reverse entry)).
Proof.
  destruct entry as [filename strategies]. unfold file_keys. revert reverse.
  induction strategies as [|[[s a] t] strategies IH]; intros reverse H; simpl; [exact H|].
  apply IH, (dict_append_NoDup _ key_eqb key_eqb_eq), H.
Qed.

Lemma build_reverse_NoDup index : NoDup (dict_keys (build_reverse_index index)).
Proof.
  unfold build_reverse_index.
  assert (H : NoDup (dict_keys (@nil (key * list pystr)))) by constructor.
  revert H. generalize (@nil (key * list pystr)).
  induction index as [|entry index IH]; intros reverse H; simpl; [exact H|].
  apply IH, file_keys_NoDup, H.
Qed.

End ReverseLookup.

(** X9.  Looking a name up in the file index gives the interpretations of
    the extractor exactly for the listed names that are regular files with
    an audio extension and at least one interpretation, and nothing for any
    other name; no name is a key twice, and when the listing has no
    repetition the keys are those names in the order of the listing. *)
Theorem file_index_lookup U os folder_path index reverse :
  build_smart_index U os folder_path = Ok (index, reverse) ->
  exists names,
    listdir os folder_path = Some names
    /\ (forall filename,
           dict_get pystr_eqb index filename
           = if existsb (pystr_eqb filename) names && qualifies U os folder_path filename
             then Some (extract_artist_title_comprehensive
                          U os (path_join os folder_path filename) filename)
             else None)
    /\ NoDup (dict_keys index)
    /\ (NoDup names -> dict_keys index = filter (qualifies U os folder_path) names).
Proof.
  unfold build_smart_index.
  destruct (listdir os folder_path) as [names|]; [|discriminate].
  intros [= <- <-]. exists names. split; [reflexivity|]. split; [|split].
  - intros filename. unfold index_files. now rewrite index_fold_get.
  - apply index_files_ok.
  - intros Hnd. unfold index_files. rewrite index_fold_keys; auto.
Qed.

(** X10.  The counters printed by the index builder: every listed name is
    counted, the audio count is the number of listed regular files with an
    audio extension, the names reported as not parsed are those among them
    without interpretation, and at most as many files are indexed as there
    are audio files. *)
Theorem index_counters U os folder_path names :
  st_total (index_files U os folder_path names) = length names
  /\ st_audio (index_files U os folder_path names)
     = length (filter (regular_audio U os folder_path) names)
  /\ st_unparsed (index_files U os folder_path names)
     = filter (fun n => regular_audio U os folder_path n
                        && negb (parsed U os folder_path n)) names
  /\ length (st_index (index_files U os folder_path names))
     + length (st_unparsed (index_files U os folder_path names))
     <= st_audio (index_files U os folder_path names)
  /\ st_audio (index_files U os folder_path names)
     <= st_total (index_files U os folder_path names)
  /\ (NoDup names ->
      length (st_index (index_files U os folder_path names))
      + length (st_unparsed (index_files U os folder_path names))
      = st_audio (index_files U os folder_path names)).
Proof.
  unfold index_files.
  destruct (index_fold_counters U os folder_path names index_start) as (T & A & P).
  cbv zeta in T, A, P. simpl in T, A, P.
  set (st := fold_left (index_step U os folder_path) names index_start) in *.
  assert (Hsplit : forall l,
             length (filter (qualifies U os folder_path) l)
             + length (filter (fun n => regular_audio U os folder_path n
                                        && negb (parsed U os folder_path n)) l)
             = length (filter (regular_audio U os folder_path) l)).
  { induction l as [|n l IH]; simpl; [reflexivity|]. unfold qualifies at 1.
    destruct (regular_audio U os folder_path n), (parsed U os folder_path n);
      simpl; lia. }
  assert (Hkeys : length (st_index st) <= length (filter (qualifies U os folder_path) names)).
  { assert (G : forall l (st0 : index_state),
               length (st_index (fold_left (index_step U os folder_path) l st0))
               <= length (st_index st0) + length (filter (qualifies U os folder_path) l)).
    { induction l as [|n l IH]; intros st0; simpl; [lia|].
      specialize (IH (index_step U os folder_path st0 n)).
      assert (length (st_index (index_step U os folder_path st0 n))
              <= length (st_index st0)
                 + (if qualifies U os folder_path n then 1 else 0)).
      { rewrite <- !(length_map fst). change (map fst) with (@dict_keys pystr (list interpretation)).
        rewrite index_step_keys.
        destruct (qualifies U os folder_path n); simpl;
          [destruct (existsb _ _); simpl; rewrite ?length_app; simpl; lia | lia]. }
      destruct (qualifies U os folder_path n); simpl in *; lia. }
    specialize (G names index_start). simpl in G. exact G. }
  rewrite T, A, P. pose proof (Hsplit names).
  pose proof (filter_length_le (regular_audio U os folder_path) names).
  repeat split; try lia.
  intros Hnd.
  assert (E : dict_keys (st_index st) = filter (qualifies U os folder_path) names).
  { unfold st. rewrite index_fold_keys; auto. }
  apply (f_equal (@length pystr)) in E. unfold dict_keys in E. rewrite length_map in E. lia.
Qed.

(** X11.  Looking a key up in the reverse index gives the files of the index
    that bear the key, in the order of the index, each once for every
    interpretation of it that has the key (so a file can be listed several
    times); a key that no file bears is absent, no bucket is empty and no
    key is stored twice. *)
Theorem reverse_index_lookup index k :
  match dict_get key_eqb (build_reverse_index index) k with
  | Some files => files = bucket_of index k /\ files <> []
  | None => bucket_of index k = []
  end
  /\ NoDup (dict_keys (build_reverse_index index)).
Proof.
  split; [|apply build_reverse_NoDup].
  pose proof (build_reverse_get_or_nil index [] k) as H.
  unfold get_or_nil in H. simpl in H. fold (build_reverse_index index) in H.
  destruct (dict_get key_eqb (build_reverse_index index) k) as [files|] eqn:G.
  - split; [exact H|].
    apply (build_reverse_nonempty index k).
    now apply (dict_get_In _ _ key_eqb key_eqb_eq).
  - now symmetry.
Qed.

Section StrategyCounts.

Variable U : UnicodeData.
Variable os : OS.
Variable folder_path : pystr.

Lemma count_strategy_fold strategies counts :
  fold_left (count_strategy) strategies counts
  = fold_left (fun patterns s => counter_add patterns (strategy_name s)) strategies counts.
Proof.
  revert counts. induction strategies as [|[[name a] t] strategies IH]; intros counts;
    simpl; [reflexivity|].
  now rewrite IH.
Qed.

Lemma filter_name_NoDup label (strategies : list interpretation) :
  NoDup (map strategy_name strategies) ->
  length (filter (fun s => pystr_eqb label (strategy_name s)) strategies)
  = if existsb (fun s => pystr_eqb label (strategy_name s)) strategies then 1 else 0.
Proof.
  induction strategies as [|s strategies IH]; intros H; simpl; [reflexivity|].
  inversion H as [|? ? Hn Hnd]; subst.
  destruct (pystr_eqb label (strategy_name s)) eqn:E; simpl.
  - apply pystr_eqb_eq in E. subst label.
    rewrite IH by exact Hnd.
    destruct (existsb _ strategies) eqn:X; [|reflexivity].
    exfalso. apply Hn. apply existsb_exists in X. destruct X as [s' [Hin E]].
    apply pystr_eqb_eq in E. rewrite E. now apply in_map.
  - now apply IH.
Qed.

Let users (label : pystr) (names : list pystr) : list pystr :=
  strategy_users U os folder_path label names.

Lemma index_step_counts st filename label :
  get_count (st_counts (index_step U os folder_path st filename)) label
  = get_count (st_counts st) label + length (users label [filename])
  /\ (positive_counts (st_counts st) ->
      positive_counts (st_counts (index_step U os folder_path st filename))).
Proof.
  unfold users, strategy_users, index_step, regular_audio, uses. cbn [filter].
  destruct (isfile os (path_join os folder_path filename)); simpl; [|split; [lia|auto]].
  destruct (is_audio_name U filename); simpl; [|split; [lia|auto]].
  pose proof (sublist_NoDup _ _ _
                (extract_names U os (path_join os folder_path filename) filename)
                strategy_names_NoDup) as Hnd.
  destruct (extract_artist_title_comprehensive U os _ filename) as [|s l] eqn:E.
  - simpl. split; [lia|auto].
  - cbn [st_counts]. rewrite count_strategy_fold. split.
    + rewrite counter_fold_count, (filter_name_NoDup label (s :: l) Hnd).
      destruct (existsb _ (s :: l)); simpl; lia.
    + apply counter_fold_positive.
Qed.

Lemma index_fold_strategy_counts names label : forall st,
  get_count (st_counts (fold_left (index_step U os folder_path) names st)) label
  = get_count (st_counts st) label + length (users label names)
  /\ (positive_counts (st_counts st) ->
      positive_counts (st_counts (fold_left (index_step U os folder_path) names st))).
Proof.
  induction names as [|n names IH]; intros st; simpl.
  - split; [unfold users, strategy_users; simpl; lia | auto].
  - destruct (IH (index_step U os folder_path st n)) as [E P].
    destruct (index_step_counts st n label) as [E1 P1].
    split; [|auto]. rewrite E, E1. unfold users, strategy_users. cbn [filter].
    destruct (_ && _); simpl; lia.
Qed.

End StrategyCounts.

(** X12.  The strategy usage printed by the index builder: the count of a
    strategy is the number of listed regular audio files that have an
    interpretation by it, a strategy that no file uses is not in the table,
    no count exceeds the number of audio files, and only the twelve names of
    the strategies are counted. *)
Theorem strategy_counts U os folder_path names label :
  dict_get pystr_eqb (st_counts (index_files U os folder_path names)) label
  = match strategy_users U os folder_path label names with
    | [] => None
    | _ :: _ => Some (length (strategy_users U os folder_path label names))
    end
  /\ length (strategy_users U os folder_path label names)
     <= st_audio (index_files U os folder_path names)
  /\ (strategy_users U os folder_path label names <> [] -> In label STRATEGY_NAMES).
Proof.
  unfold index_files, strategy_users.
  destruct (index_fold_strategy_counts U os folder_path names label index_start)
    as [E P].
  assert (P0 : positive_counts (st_counts index_start)) by (intros x n; discriminate).
  specialize (P P0). unfold get_count in E.
  change (dict_get pystr_eqb (st_counts index_start) label) with (@None nat) in E.
  unfold strategy_users in E.
  set (users := filter _ names) in *.
  split; [|split].
  - destruct (dict_get pystr_eqb _ label) as [n|] eqn:G.
    + apply P in G. destruct users; simpl in *; [lia | now subst].
    + destruct users; simpl in *; [reflexivity | lia].
  - destruct (index_fold_counters U os folder_path names index_start) as (_ & A & _).
    cbv zeta in A. rewrite A. cbn [index_start st_audio plus]. unfold users.
    apply filter_andb_length.
  - intros Hne. destruct users as [|n l] eqn:Eu; [congruence|].
    assert (Hin : In n users) by (rewrite Eu; now left).
    unfold users in Hin. apply filter_In in Hin. destruct Hin as [_ Hin].
    apply andb_true_iff in Hin. destruct Hin as [_ Hin]. unfold uses in Hin.
    apply existsb_exists in Hin. destruct Hin as [s [Hs El]].
    apply pystr_eqb_eq in El. subst label.
    eapply sublist_In; [apply extract_names|]. apply in_map, Hs.
Qed.

(** ** The cross matcher on whole collections *)

Section MatchMore.

Lemma bears_first_bearer index k entry :
  In entry index -> bears k entry = true -> exists f, first_bearer index k = Some f.
Proof.
  intros Hin Hb. unfold first_bearer.
  destruct (find (bears k) index) as [e|] eqn:F; [exists (fst e); reflexivity|].
  rewrite (find_none _ _ F entry Hin) in Hb. discriminate.
Qed.

Lemma first_bearer_get index k f :
  first_bearer index k = Some f ->
  exists files, dict_get key_eqb (build_reverse_index index) k = Some (f :: files).
Proof.
  intros H. pose proof (build_reverse_head index k) as Hh.
  rewrite H in Hh. unfold bucket_head in Hh.
  destruct (dict_get key_eqb (build_reverse_index index) k) as [[|x files]|];
    try discriminate.
  injection Hh as ->. eauto.
Qed.

(** Against the reverse index of a collection, every file of that collection
    with an interpretation is matched exactly, at its first interpretation. *)
Lemma cross_check_self index : forall part unique_songs match_details,
  (forall entry, In entry part -> In entry index /\ snd entry <> []) ->
  exists added,
    cross_check (build_reverse_index index) part (unique_songs, match_details)
    = Ok (unique_songs, match_details ++ added)
    /\ forallb is_exact added = true
    /\ map detail_file added = dict_keys part.
Proof.
  induction part as [|[filename strategies] part IH]; intros u d Hpart.
  - exists []. rewrite app_nil_r. repeat split.
  - destruct (Hpart (filename, strategies) (or_introl eq_refl)) as [Hin Hne].
    simpl in Hne. destruct strategies as [|[[s a] t] rest]; [congruence|].
    assert (Hb : bears (a, t) (filename, (s, a, t) :: rest) = true).
    { unfold bears. simpl. now rewrite key_eqb_refl. }
    destruct (bears_first_bearer index (a, t) _ Hin Hb) as [f Hf].
    destruct (first_bearer_get index (a, t) f Hf) as [files Hg].
    cbn [cross_check]. unfold match_file at 1. cbn [scan_strategies]. rewrite Hg.
    cbn [bind].
    destruct (IH u (d ++ [(filename, ExactMatch, s, f)])) as (added & E & X & F).
    { intros e He. apply Hpart. now right. }
    exists ((filename, ExactMatch, s, f) :: added).
    rewrite E, <- app_assoc. simpl. rewrite X, F. repeat split.
Qed.

Lemma first_exact_split reverse1 strategies2 :
  no_exact_key reverse1 strategies2
  \/ exists pre s a t post files,
      strategies2 = pre ++ (s, a, t) :: post
      /\ no_exact_key reverse1 pre
      /\ dict_get key_eqb reverse1 (a, t) = Some files.
Proof.
  induction strategies2 as [|[[s a] t] rest IH].
  - left. intros x [].
  - destruct (dict_get key_eqb reverse1 (a, t)) as [files|] eqn:G.
    + right. exists [], s, a, t, rest, files. repeat split; auto. intros x [].
    + destruct IH as [H|(pre & s' & a' & t' & post & files & -> & Hp & Hg)].
      * left. intros x [<-|Hx]; [exact G | now apply H].
      * right. exists ((s, a, t) :: pre), s', a', t', post, files.
        repeat split; auto. intros x [<-|Hx]; [exact G | now apply Hp].
Qed.

Lemma app_one_neq (A : Type) (l : list A) (x : A) : l ++ [x] <> l.
Proof.
  intros E. apply (f_equal (@length A)) in E. rewrite length_app in E. simpl in E. lia.
Qed.

(** A file is added to the unique songs exactly when it has no exact key and
    its best overall similarity is not above the threshold. *)
Lemma match_file_unique_iff reverse1 unique_songs match_details filename2 strategies2 :
  Forall short_key (dict_keys reverse1) ->
  Forall short_interpretation strategies2 ->
  match_file reverse1 (unique_songs, match_details) (filename2, strategies2)
  = Ok (unique_songs ++ [filename2], match_details)
  <-> no_exact_key reverse1 strategies2 /\ accepted reverse1 strategies2 = false.
Proof.
  intros Hk Hs. split.
  - intros E.
    destruct (first_exact_split reverse1 strategies2)
      as [Hno|(pre & s & a & t & post & files & -> & Hp & Hg)].
    + split; [exact Hno|].
      destruct (match_file_no_exact reverse1 unique_songs match_details filename2
                                    strategies2 Hno Hk Hs) as [Hf _].
      destruct (accepted reverse1 strategies2); [|reflexivity].
      destruct (Hf eq_refl) as (sim & i2 & i1 & E'). rewrite E in E'.
      injection E' as E' _. now apply app_one_neq in E'.
    + exfalso. unfold match_file in E.
      rewrite (scan_strategies_exact reverse1 pre s a t post files) in E by assumption.
      destruct files as [|f files]; [discriminate|].
      injection E as E _. symmetry in E. now apply app_one_neq in E.
  - intros [Hno Ha].
    now apply (match_file_no_exact reverse1 unique_songs match_details filename2
                                   strategies2 Hno Hk Hs).
Qed.

Lemma gated_scores_incl reverse1 reverse1' strategies2 x :
  incl (dict_keys reverse1) (dict_keys reverse1') ->
  In x (gated_scores reverse1 strategies2) -> In x (gated_scores reverse1' strategies2).
Proof.
  intros Hi. unfold gated_scores. rewrite !in_flat_map.
  intros [[[s a] t] [Hs Hx]]. exists (s, a, t). split; [exact Hs|].
  rewrite in_flat_map in *. destruct Hx as [k [Hk Hx]]. exists k. split; [now apply Hi | exact Hx].
Qed.

End MatchMore.

(** X13.  Matching a folder against itself leaves no unique song: every
    indexed file gets an exact decision, in the order of the index. *)
Theorem self_match_has_no_unique_song U os folder names :
  listdir os folder = Some names ->
  exists index reverse match_details,
    build_smart_index U os folder = Ok (index, reverse)
    /\ find_unique_with_cross_check U os folder folder
       = Ok ([], match_details, length index, length index)
    /\ forallb is_exact match_details = true
    /\ map detail_file match_details = dict_keys index.
Proof.
  intros H. unfold find_unique_with_cross_check, build_smart_index. rewrite H.
  set (index := st_index (index_files U os folder names)).
  destruct (cross_check_self index index [] []) as (added & E & X & F).
  { intros [filename strategies] Hin. split; [exact Hin|].
    destruct (index_files_ok U os folder names) as [_ Hi].
    now destruct (Hi filename strategies Hin). }
  exists index, (build_reverse_index index), added.
  split; [reflexivity|]. cbn [bind]. rewrite E. cbn [bind app]. auto.
Qed.

(** X14.  A file reported unique against a reference index is reported unique
    against every reference index with fewer keys: adding reference keys
    never turns a matched file into a unique one. *)
Theorem unique_against_more_keys_stays_unique
        reverse1 reverse1' unique_songs match_details filename2 strategies2 :
  incl (dict_keys reverse1) (dict_keys reverse1') ->
  Forall short_key (dict_keys reverse1') ->
  Forall short_interpretation strategies2 ->
  match_file reverse1' (unique_songs, match_details) (filename2, strategies2)
  = Ok (unique_songs ++ [filename2], match_details) ->
  match_file reverse1 (unique_songs, match_details) (filename2, strategies2)
  = Ok (unique_songs ++ [filename2], match_details).
Proof.
  intros Hi Hk' Hs E.
  assert (Hk : Forall short_key (dict_keys reverse1)).
  { rewrite Forall_forall in *. intros k Hin. apply Hk', Hi, Hin. }
  apply match_file_unique_iff in E; [|assumption|assumption].
  destruct E as [Hno Ha].
  apply match_file_unique_iff; [assumption|assumption|]. split.
  - intros x Hx. specialize (Hno x Hx).
    apply (dict_get_None _ _ key_eqb key_eqb_eq) in Hno.
    apply (dict_get_None _ _ key_eqb key_eqb_eq). intros Hin. apply Hno, Hi, Hin.
  - rewrite accepted_exists in * by assumption.
    destruct (existsb _ (gated_scores reverse1 strategies2)) eqn:Ex; [|reflexivity].
    apply existsb_exists in Ex. destruct Ex as [x [Hx Hlt]].
    assert (Ex' : existsb (fun s => (ACCEPT <? s)%float)
                          (gated_scores reverse1' strategies2) = true).
    { apply existsb_exists. exists x. split; [|exact Hlt].
      eapply gated_scores_incl; eauto. }
    congruence.
Qed.

Definition short_entry (entry : pystr * list interpretation) : Prop :=
  Forall short_interpretation (snd entry).

Section Unmatched.

Variable reverse1 : reverse_index.

Lemma has_exact_key_false strategies2 :
  has_exact_key reverse1 strategies2 = false <-> no_exact_key reverse1 strategies2.
Proof.
  unfold has_exact_key, no_exact_key. split.
  - intros H s Hs.
    destruct (dict_get key_eqb reverse1 (interpretation_key s)) eqn:G; [|reflexivity].
    assert (X : existsb (fun s => match dict_get key_eqb reverse1 (interpretation_key s) with
                                  | Some _ => true | None => false end) strategies2 = true).
    { apply existsb_exists. exists s. now rewrite G. }
    congruence.
  - intros H. destruct (existsb _ strategies2) eqn:X; [|reflexivity].
    apply existsb_exists in X. destruct X as [s [Hs X]].
    now rewrite (H s Hs) in X.
Qed.

Lemma unmatched_iff filename2 strategies2 :
  unmatched reverse1 (filename2, strategies2) = true
  <-> no_exact_key reverse1 strategies2 /\ accepted reverse1 strategies2 = false.
Proof.
  unfold unmatched. cbn [snd]. rewrite andb_true_iff, !negb_true_iff.
  now rewrite has_exact_key_false.
Qed.

Lemma cross_check_filter index2 : forall u d u' d',
  Forall short_key (dict_keys reverse1) ->
  Forall short_entry index2 ->
  cross_check reverse1 index2 (u, d) = Ok (u', d') ->
  u' = u ++ dict_keys (filter (unmatched reverse1) index2)
  /\ map detail_file d'
     = map detail_file d
       ++ dict_keys (filter (fun entry => negb (unmatched reverse1 entry)) index2).
Proof.
  induction index2 as [|[filename2 strategies2] index2 IH]; intros u d u' d' Hk Hs H.
  - cbn [cross_check] in H. injection H as <- <-. simpl. now rewrite !app_nil_r.
  - cbn [cross_check] in H. inversion Hs as [|? ? Hs1 Hs2]; subst.
    destruct (match_file reverse1 (u, d) (filename2, strategies2)) as [[u0 d0]|e] eqn:M;
      [|discriminate].
    cbn [bind] in H. destruct (IH u0 d0 u' d' Hk Hs2 H) as [-> ->].
    pose proof (match_file_unique_iff reverse1 u d filename2 strategies2 Hk Hs1) as I.
    rewrite <- unmatched_iff in I. cbn [filter].
    destruct (match_file_shape reverse1 u d filename2 strategies2 u0 d0 M)
      as [[-> ->]|(-> & detail & -> & F)].
    + apply I in M. rewrite M. cbn [negb dict_keys map fst].
      split; [now rewrite <- app_assoc | reflexivity].
    + destruct (unmatched reverse1 (filename2, strategies2)) eqn:X.
      * destruct I as [_ I]. specialize (I eq_refl). rewrite M in I.
        injection I as I _. symmetry in I. now apply app_one_neq in I.
      * cbn [negb dict_keys map fst]. split; [reflexivity|].
        rewrite map_app. cbn [map]. rewrite F, <- app_assoc. reflexivity.
Qed.

End Unmatched.

(** X15.  The unique songs are the candidates, in the order of the candidate
    index, that have no exact key and whose best overall similarity is not
    above the acceptance threshold; the decisions are about the other
    candidates, in their order. *)
Theorem unique_songs_are_the_unmatched_candidates
        reverse1 index2 unique_songs match_details :
  Forall short_key (dict_keys reverse1) ->
  Forall short_entry index2 ->
  cross_check reverse1 index2 ([], []) = Ok (unique_songs, match_details) ->
  unique_songs = dict_keys (filter (unmatched reverse1) index2)
  /\ map detail_file match_details
     = dict_keys (filter (fun entry => negb (unmatched reverse1 entry)) index2).
Proof.
  intros Hk Hs H. now apply (cross_check_filter reverse1 index2 [] []).
Qed.

Section ScanTrace.

Variable reverse1 : reverse_index.

Lemma scan_key_traced done s keys : forall b,
  In s done ->
  incl keys (dict_keys reverse1) ->
  best_traced reverse1 done b ->
  best_traced reverse1 done (fold_left (scan_key (fst (interpretation_key s))
                                        (snd (interpretation_key s))) keys b).
Proof.
  induction keys as [|[artist1 title1] keys IH]; intros b Hs Hi Hb; simpl; [exact Hb|].
  apply IH; [exact Hs | intros k Hk; apply Hi; now right |].
  unfold scan_key.
  destruct (GATE <? calculate_similarity artist1 (fst (interpretation_key s)))%float eqn:G;
    [|exact Hb].
  destruct (best_similarity b <? _)%float; [|exact Hb].
  unfold best_traced. cbn [best_match best_similarity]. split; [reflexivity|].
  split; [apply Hi; now left|]. exists s. repeat split; auto.
Qed.

Lemma best_traced_more done s b : best_traced reverse1 done b -> best_traced reverse1 (done ++ [s]) b.
Proof.
  unfold best_traced. destruct (best_match b) as [[[a1 t1] sim]|]; [|auto].
  intros (E & Hk & s0 & Hs0 & Hg & Ho). split; [exact E|]. split; [exact Hk|].
  exists s0. repeat split; auto. apply in_or_app. now left.
Qed.

Lemma scan_strategies_traced strategies2 : forall done b last b' last',
  scan_strategies reverse1 strategies2 b last = NoExact b' last' ->
  best_traced reverse1 done b -> last_traced done last ->
  best_traced reverse1 (done ++ strategies2) b' /\ last_traced (done ++ strategies2) last'.
Proof.
  induction strategies2 as [|[[name artist2] title2] strategies2 IH];
    intros done b last b' last' H Hb Hl.
  - cbn [scan_strategies] in H. injection H as <- <-. now rewrite app_nil_r.
  - cbn [scan_strategies] in H.
    destruct (dict_get key_eqb reverse1 (artist2, title2)); [discriminate|].
    change (done ++ (name, artist2, title2) :: strategies2)
      with (done ++ [(name, artist2, title2)] ++ strategies2).
    rewrite app_assoc.
    apply (IH _ _ _ _ _ H).
    + apply (scan_key_traced (done ++ [(name, artist2, title2)]) (name, artist2, title2)).
      * apply in_or_app. right. now left.
      * apply incl_refl.
      * now apply best_traced_more.
    + exists done, (name, artist2, title2). split; reflexivity.
Qed.

End ScanTrace.

(** X16.  A fuzzy decision shows a similarity above the threshold that is the
    overall similarity of a reference key and of an interpretation of the
    file through the gate, and names that key; the candidate side of the
    label is always the last interpretation of the file, whichever
    interpretation the similarity comes from. *)
Theorem fuzzy_decision_names_the_last_interpretation
        reverse1 unique_songs match_details filename2 strategies2 similarity info2 info1 :
  match_file reverse1 (unique_songs, match_details) (filename2, strategies2)
  = Ok (unique_songs,
        match_details ++ [(filename2, FuzzyMatch similarity, info2, info1)]) ->
  (ACCEPT <? similarity)%float = true
  /\ (exists key1,
         scored_by reverse1 strategies2 key1 similarity
         /\ info1 = dash (fst key1) (snd key1))
  /\ (exists pre s,
         strategies2 = pre ++ [s]
         /\ info2 = dash (fst (interpretation_key s)) (snd (interpretation_key s))).
Proof.
  unfold match_file.
  destruct (scan_strategies reverse1 strategies2 best_start None) as [s files|b last] eqn:S.
  - destruct files as [|f files]; [discriminate|].
    intros [= H]. apply app_inv_head in H. discriminate.
  - destruct (scan_strategies_traced reverse1 strategies2 [] best_start None b last S)
      as [Hb Hl]; [exact I | reflexivity |].
    cbn [app] in Hb, Hl. unfold best_traced in Hb.
    destruct (best_match b) as [[[artist1 title1] sim]|].
    + destruct Hb as [E Hsc].
      destruct (ACCEPT <? best_similarity b)%float eqn:A.
      * destruct last as [[artist2 title2]|]; [|discriminate].
        intros [= H]. apply app_inv_head in H. injection H as <- <- <-.
        split; [now rewrite E|]. split.
        -- exists (artist1, title1). split; [exact Hsc | reflexivity].
        -- destruct Hl as (pre & s & -> & Ek). exists pre, s. split; [reflexivity|].
           now rewrite <- Ek.
      * intros [= H _]. now apply app_one_neq in H.
    + intros [= H _]. now apply app_one_neq in H.
Qed.

(** X17.  The matcher raises nothing but the [OSError] of a folder that
    cannot be listed: with two listings it always returns, so neither the
    index [[0]] of the matched files nor the loop variables of the fuzzy
    label can fail. *)
Theorem only_a_failed_listing_raises U os folder1 folder2 e :
  find_unique_with_cross_check U os folder1 folder2 = Raise e ->
  e = OSError /\ (listdir os folder1 = None \/ listdir os folder2 = None).
Proof.
  unfold find_unique_with_cross_check, build_smart_index.
  destruct (listdir os folder1) as [names1|]; [|intros [= <-]; auto].
  destruct (listdir os folder2) as [names2|]; [|intros [= <-]; auto].
  cbn [bind].
  destruct (cross_check_ok
              (build_reverse_index (st_index (index_files U os folder1 names1)))
              (st_index (index_files U os folder2 names2)) ([], [])
              (build_reverse_nonempty _)) as [[u d] ->].
  discriminate.
Qed.

(** ** The analysis tools *)

Section ToolFacts.

Lemma contains_refl s : contains s s = true.
Proof.
  unfold contains. destruct s as [|c s]; [reflexivity|].
  cbn [split_first]. rewrite <- (app_nil_r (c :: s)) at 2.
  now rewrite startswith_refl.
Qed.

End ToolFacts.

(** X18.  [analyze_naming_patterns] counts every file name under exactly one
    pattern: looking a label up gives the number of names of that pattern
    (a label of no name is absent), the counts add up to the number of
    names, no label is stored twice, and the table is empty only for an
    empty list of names (so the percentages that [quick_analysis] prints
    for the entries of the table never divide by zero). *)
Theorem analyze_naming_patterns_counts os filenames :
  (forall label,
      match dict_get pystr_eqb (analyze_naming_patterns os filenames) label with
      | Some n =>
          0 < n
          /\ n = length (filter (fun f => pystr_eqb label (naming_pattern (splitext_root os f)))
                                filenames)
      | None =>
          filter (fun f => pystr_eqb label (naming_pattern (splitext_root os f))) filenames
          = []
      end)
  /\ list_sum (map snd (analyze_naming_patterns os filenames)) = length filenames
  /\ NoDup (dict_keys (analyze_naming_patterns os filenames))
  /\ (analyze_naming_patterns os filenames = [] <-> filenames = []).
Proof.
  pose (f := fun filename => naming_pattern (splitext_root os filename)).
  change (analyze_naming_patterns os filenames)
    with (fold_left (fun patterns x => counter_add patterns (f x)) filenames []).
  assert (P : positive_counts []) by (intros x n; discriminate).
  assert (S : list_sum (map snd (fold_left (fun patterns x => counter_add patterns (f x))
                                           filenames []))
              = length filenames) by apply (counter_fold_sum _ f filenames []).
  split; [|split; [|split]].
  - intros label. rewrite (counter_fold_get _ f filenames [] label P).
    change (get_count [] label) with 0. cbn [plus]. unfold f.
    destruct (filter _ filenames) as [|x l] eqn:F; simpl; [reflexivity|].
    split; lia.
  - exact S.
  - apply counter_fold_NoDup. constructor.
  - split.
    + intros E. rewrite E in S. destruct filenames; [reflexivity | discriminate].
    + now intros ->.
Qed.

(** X19.  [quick_analysis] returns the numbers of names with an audio
    extension in the two listings, and raises when a folder cannot be
    listed; at most 20 simple matches are counted, and when both folders
    list the same names every one of the first 20 audio names matches. *)
Theorem quick_analysis_counts U os folder1 folder2 :
  match listdir os folder1, listdir os folder2 with
  | Some names1, Some names2 =>
      quick_analysis U os folder1 folder2
      = Ok (length (filter (is_audio_name U) names1),
            length (filter (is_audio_name U) names2))
      /\ exists patterns1 patterns2 matches,
          quick_analysis_report U os folder1 folder2 = Ok (patterns1, patterns2, matches)
          /\ matches <= 20
          /\ matches <= length (filter (is_audio_name U) names2)
          /\ (names1 = names2 ->
              matches = Nat.min 20 (length (filter (is_audio_name U) names2)))
  | _, _ =>
      quick_analysis U os folder1 folder2 = Raise OSError
      /\ quick_analysis_report U os folder1 folder2 = Raise OSError
  end.
Proof.
  unfold quick_analysis, quick_analysis_report, audio_files.
  destruct (listdir os folder1) as [names1|]; [|split; reflexivity].
  destruct (listdir os folder2) as [names2|]; [|split; reflexivity].
  cbn [bind]. split; [reflexivity|].
  do 3 eexists. split; [reflexivity|].
  unfold simple_matches.
  set (files2 := filter (is_audio_name U) names2).
  pose proof (filter_length_le (simple_match U os (filter (is_audio_name U) names1))
                               (firstn 20 files2)) as Hle.
  rewrite length_firstn in Hle. repeat split; try lia.
  intros ->. fold files2.
  assert (G : forall l, incl l files2 ->
                        filter (simple_match U os files2) l = l).
  { induction l as [|x l IH]; intros Hi; simpl; [reflexivity|].
    assert (Hx : simple_match U os files2 x = true).
    { unfold simple_match. apply existsb_exists. exists x.
      split; [apply Hi; now left|]. now rewrite contains_refl. }
    rewrite Hx, IH; [reflexivity|]. intros y Hy. apply Hi. now right. }
  rewrite G; [apply length_firstn|].
  intros y Hy. rewrite <- (firstn_skipn 20 files2). apply in_or_app. now left.
Qed.

(** X20.  [manual_verification] asks about the first [sample_size] unique
    songs at most, in their order, one answer each; the verdicts are
    confirmed for [n], misjudged for [y] (whatever the case and the
    surrounding spaces) and skipped otherwise, and the three tallies add up
    to the number of songs asked about.  Without unique songs nothing is
    asked. *)
Theorem manual_verification_sample U answers unique_songs sample_size :
  match manual_verification U answers unique_songs sample_size with
  | None => unique_songs = []
  | Some results =>
      unique_songs <> []
      /\ map fst results = firstn sample_size unique_songs
      /\ length results = Nat.min sample_size (length unique_songs)
      /\ (forall i filename v,
             nth_error results i = Some (filename, v) -> v = verdict U (answers i))
      /\ correct results + incorrect results + skipped results = length results
      /\ skipped results = unanswered results
  end.
Proof.
  unfold manual_verification. destruct unique_songs as [|x l]; [reflexivity|].
  set (songs := x :: l).
  assert (Hfirst : firstn (Nat.min sample_size (length songs)) songs
                   = firstn sample_size songs).
  { destruct (Nat.le_ge_cases sample_size (length songs)) as [H|H].
    - now rewrite Nat.min_l.
    - rewrite Nat.min_r by exact H. now rewrite firstn_all, firstn_all2. }
  rewrite Hfirst. set (sample := firstn sample_size songs).
  assert (Hgen : forall (smp : list pystr) start,
             map fst (map (fun p : nat * pystr => (snd p, verdict U (answers (fst p))))
                          (combine (seq start (length smp)) smp)) = smp
             /\ forall i filename v,
                 nth_error (map (fun p : nat * pystr => (snd p, verdict U (answers (fst p))))
                                (combine (seq start (length smp)) smp)) i
                 = Some (filename, v) -> v = verdict U (answers (start + i))).
  { induction smp as [|y smp IH]; intros start; simpl.
    - split; [reflexivity|]. intros [|i]; discriminate.
    - destruct (IH (S start)) as [E1 E2]. split; [now rewrite E1|].
      intros [|i] filename v; simpl.
      + intros [= _ <-]. now rewrite Nat.add_0_r.
      + intros H. rewrite (E2 i filename v H). f_equal. f_equal. lia. }
  destruct (Hgen sample 0) as [E1 E2].
  split; [discriminate|]. split; [exact E1|]. split.
  - rewrite <- (length_map fst), E1. unfold sample. apply length_firstn.
  - split; [exact E2|].
    unfold skipped, correct, incorrect.
    set (results := map _ _).
    assert (length (filter (fun r : pystr * option bool =>
                              match snd r with Some true => true | _ => false end) results)
            + length (filter (fun r : pystr * option bool =>
                                match snd r with Some false => true | _ => false end) results)
            <= length results).
    { clear. induction results as [|[f [[|]|]] results IH]; simpl; lia. }
    split; [lia|].
    assert (length (filter (fun r : pystr * option bool =>
                              match snd r with Some true => true | _ => false end) results)
            + length (filter (fun r : pystr * option bool =>
                                match snd r with Some false => true | _ => false end) results)
            + unanswered results
            = length results).
    { clear. unfold unanswered.
      induction results as [|[f [[|]|]] results IH]; simpl; lia. }
    lia.
Qed.

(** ** The properties at the small collection *)

Lemma name_without_separator_has_only_tag_interpretations_at_song :
  extract_artist_title_comprehensive Latin.table Demo.os (str "cand/song.mp3")
                                     (str "song.mp3")
  = flat_map (clean_strategy Latin.table)
             (metadata_strategy Latin.table Demo.os (str "cand/song.mp3")).
Proof.
  apply (name_without_separator_has_only_tag_interpretations
           Latin.table Demo.os (str "cand/song.mp3") (str "song.mp3")).
  - apply latin_laws.
  - reflexivity.
Defined.

Lemma regex_artist_title_splits_at_first_separator_at_daft_punk :
  re_match (pattern_artist_title Latin.table) (str "daft punk - get lucky")
  = first_separator_split Latin.table (str "daft punk - get lucky")
  /\ forall group1 group2,
      re_match (pattern_artist_title Latin.table) (str "daft punk - get lucky")
      = Some (group1, group2) ->
      exists run,
        str "daft punk - get lucky" = group1 ++ run ++ group2
        /\ run <> [] /\ forallb (is_sep Latin.table) run = true
        /\ group1 <> []
        /\ forallb (fun c => negb (is_sep Latin.table c)) (tl group1) = true
        /\ group2 <> [].
Proof.
  apply (regex_artist_title_splits_at_first_separator
           Latin.table (str "daft punk - get lucky")).
  reflexivity.
Defined.

Lemma filename_strategies_cut_at_the_first_separator_at_live :
  exists part0 part1,
    first_cut (str " - ") (str "Adele - Hello - Live") part0 part1
    /\ strip Latin.table part0 <> [] /\ strip Latin.table part1 <> []
    /\ ((str "filename - ", str "Adele", str "Hello - Live")
        = (str "filename" ++ str " - ", strip Latin.table part0, strip Latin.table part1)
        \/ ((str "filename - ", str "Adele", str "Hello - Live")
            = (str "filename_rev" ++ str " - ", strip Latin.table part1,
               strip Latin.table part0)
            /\ length (strip Latin.table part1) <= 15)).
Proof.
  apply (filename_strategies_cut_at_the_first_separator
           Latin.table (str "Adele - Hello - Live") (str " - ")
           (str "filename - ", str "Adele", str "Hello - Live")).
  left. reflexivity.
Defined.

Lemma file_index_lookup_at_ref :
  exists names,
    listdir Demo.os (str "ref") = Some names
    /\ (forall filename,
           dict_get pystr_eqb (Demo.index_of (str "ref")) filename
           = if existsb (pystr_eqb filename) names
                && qualifies Latin.table Demo.os (str "ref") filename
             then Some (extract_artist_title_comprehensive
                          Latin.table Demo.os
                          (path_join Demo.os (str "ref") filename) filename)
             else None)
    /\ NoDup (dict_keys (Demo.index_of (str "ref")))
    /\ (NoDup names ->
        dict_keys (Demo.index_of (str "ref"))
        = filter (qualifies Latin.table Demo.os (str "ref")) names).
Proof.
  apply (file_index_lookup Latin.table Demo.os (str "ref")
                           (Demo.index_of (str "ref")) (Demo.reverse_of (str "ref"))).
  vm_compute. reflexivity.
Defined.

Lemma self_match_has_no_unique_song_at_ref :
  exists index reverse match_details,
    build_smart_index Latin.table Demo.os (str "ref") = Ok (index, reverse)
    /\ find_unique_with_cross_check Latin.table Demo.os (str "ref") (str "ref")
       = Ok ([], match_details, length index, length index)
    /\ forallb is_exact match_details = true
    /\ map detail_file match_details = dict_keys index.
Proof.
  apply (self_match_has_no_unique_song Latin.table Demo.os (str "ref") Demo.names_ref).
  reflexivity.
Defined.

Lemma unique_against_more_keys_stays_unique_at_abba :
  match_file Sample.reverse_one ([], []) (str "c.mp3", Sample.strategies_unknown)
  = Ok ([] ++ [str "c.mp3"], []).
Proof.
  apply (unique_against_more_keys_stays_unique
           Sample.reverse_one Sample.reverse_two [] [] (str "c.mp3")
           Sample.strategies_unknown).
  - intros k [<-|[]]. right. left. reflexivity.
  - repeat constructor.
  - repeat constructor.
  - vm_compute. reflexivity.
Defined.

Lemma unique_songs_are_the_unmatched_candidates_at_demo :
  Sample.unique_songs
  = dict_keys (filter (unmatched (Demo.reverse_of (str "ref")))
                      (Demo.index_of (str "cand")))
  /\ map detail_file Sample.match_details
     = dict_keys (filter (fun entry => negb (unmatched (Demo.reverse_of (str "ref")) entry))
                         (Demo.index_of (str "cand"))).
Proof.
  apply (unique_songs_are_the_unmatched_candidates
           (Demo.reverse_of (str "ref")) (Demo.index_of (str "cand"))).
  - set (keys := dict_keys (Demo.reverse_of (str "ref"))).
    vm_compute in keys. subst keys. repeat constructor.
  - set (index := Demo.index_of (str "cand")).
    vm_compute in index. subst index. repeat constructor.
  - vm_compute. reflexivity.
Defined.

Lemma fuzzy_decision_names_the_last_interpretation_at_095 :
  (ACCEPT <? overall (str "adele", str "abcdefghij") (str "adele") (str "abcdefghix"))%float
  = true
  /\ (exists key1,
         scored_by Sample.reverse_095 Sample.strategies_095 key1
                   (overall (str "adele", str "abcdefghij") (str "adele")
                            (str "abcdefghix"))
         /\ dash (str "adele") (str "abcdefghij") = dash (fst key1) (snd key1))
  /\ (exists pre s,
         Sample.strategies_095 = pre ++ [s]
         /\ dash (str "adele") (str "abcdefghix")
            = dash (fst (interpretation_key s)) (snd (interpretation_key s))).
Proof.
  apply (fuzzy_decision_names_the_last_interpretation
           Sample.reverse_095 [] [] (str "c.mp3") Sample.strategies_095).
  vm_compute. reflexivity.
Defined.

Lemma only_a_failed_listing_raises_at_nowhere :
  OSError = OSError
  /\ (listdir Demo.os (str "nowhere") = None \/ listdir Demo.os (str "cand") = None).
Proof.
  apply (only_a_failed_listing_raises Latin.table Demo.os (str "nowhere") (str "cand")).
  reflexivity.
Defined.

